(** * Verification of the GA4 realtime page tracker

    A shallow embedding of the repository's Python sources
    ([scripts/ga4_client.py], [scripts/postgres_handler.py] and
    [dags/ga4_realtime_dag.py]) together with the properties its
    specification states about them.

    Conventions of the embedding:
    - a Python [str] is the sequence of its code points, restricted to the
      code points below 256 (Rocq's [ascii]); the API's field names are
      ASCII identifiers;
    - an exception is the [Raise] outcome of a [result];
    - the wall clock, the analytics API and the database are explicit
      parameters or explicit state. *)

From Stdlib Require Import ZArith Ascii String Lia.
From stdpp Require Import base list strings gmap sorting.

Open Scope string_scope.
Open Scope list_scope.

(** ** Field-name canonicalisation: [to_snake] (ga4_client.py, lines 18-21) *)

Module Snake.

(** Character classes of the two regular expressions. *)

Definition in_range (lo hi : nat) (c : ascii) : bool :=
  (lo <=? nat_of_ascii c)%nat && (nat_of_ascii c <=? hi)%nat.

(** [[A-Z]] *)
Definition is_upper (c : ascii) : bool := in_range 65 90 c.

(** [[a-z]] *)
Definition is_lower (c : ascii) : bool := in_range 97 122 c.

(** [[0-9]] *)
Definition is_digit (c : ascii) : bool := in_range 48 57 c.

(** [[a-z0-9]] *)
Definition is_lower_or_digit (c : ascii) : bool := is_lower c || is_digit c.

(** [.] without the DOTALL flag: any character except a line feed. *)
Definition is_dot (c : ascii) : bool := negb (nat_of_ascii c =? 10)%nat.

(** [str.lower()] on the code points below 256: the ASCII capitals and the
    Latin-1 capitals (U+00C0..U+00DE except the multiplication sign U+00D7)
    move up by 32, every other code point is kept. *)
Definition lower (c : ascii) : ascii :=
  if is_upper c
     || (in_range 192 222 c && negb (nat_of_ascii c =? 215)%nat)
  then ascii_of_nat (nat_of_ascii c + 32)
  else c.

(** [str.replace('.', '_')], one character at a time. *)
Definition replace_dot (c : ascii) : ascii :=
  if (nat_of_ascii c =? 46)%nat then "_"%char else c.

(** Greedy [[a-z]*]: the longest run of lowercase letters at the head of
    [s], and what follows it. *)
Fixpoint span_lower (s : list ascii) : list ascii * list ascii :=
  match s with
  | c :: tl =>
      if is_lower c
      then let (run, rest) := span_lower tl in (c :: run, rest)
      else ([], s)
  | [] => ([], [])
  end.

(** A pattern together with its replacement template: [m s] tries the
    pattern at the head of [s]; on a match it gives the expanded
    replacement and the text after the match. *)
Definition matcher := list ascii -> option (list ascii * list ascii).

(** [(.)([A-Z][a-z]+)] with template [\1_\2]. *)
Definition match_cap_word : matcher := fun s =>
  match s with
  | c :: u :: l :: tl =>
      if is_dot c && is_upper u && is_lower l
      then let (run, rest) := span_lower tl in
           Some (c :: "_"%char :: u :: l :: run, rest)
      else None
  | _ => None
  end.

(** [([a-z0-9])([A-Z])] with template [\1_\2]. *)
Definition match_hump : matcher := fun s =>
  match s with
  | c :: u :: tl =>
      if is_lower_or_digit c && is_upper u
      then Some ([c; "_"%char; u], tl)
      else None
  | _ => None
  end.

(** [re.sub]: scan from the left; where the pattern matches, emit the
    replacement and resume after the match, otherwise copy one character
    and move on.  Neither pattern matches the empty string.  The scan is
    bounded by [fuel]; [re_sub] supplies the length of the text, which
    always suffices ([re_sub_fuel_enough]). *)
Fixpoint re_sub_fuel (m : matcher) (fuel : nat) (s : list ascii) : list ascii :=
  match s with
  | [] => []
  | c :: tl =>
      match fuel with
      | O => s
      | S f =>
          match m s with
          | Some (rep, rest) => rep ++ re_sub_fuel m f rest
          | None => c :: re_sub_fuel m f tl
          end
      end
  end.

Definition re_sub (m : matcher) (s : list ascii) : list ascii :=
  re_sub_fuel m (length s) s.

Definition to_snake_chars (name : list ascii) : list ascii :=
  let s := re_sub match_cap_word name in
  let s := re_sub match_hump s in
  map lower (map replace_dot s).

Definition to_snake (name : string) : string :=
  string_of_list_ascii (to_snake_chars (list_ascii_of_string name)).

(** *** The separator rule in closed form

    [separator_before prev u next] tells whether [to_snake] puts an
    underscore between [prev] and the character [u] that follows it, [next]
    being the character after [u]:  [u] is a capital and either [prev] is a
    lowercase letter or a digit, or [u] begins a capitalised word ([next] is
    lowercase) and [prev] is any character but a line feed. *)
Definition separator_before (prev : option ascii) (u : ascii)
    (next : option ascii) : bool :=
  match prev with
  | None => false
  | Some p =>
      is_upper u
      && (is_lower_or_digit p
          || (is_dot p && match next with Some l => is_lower l | None => false end))
  end.

Fixpoint insert_separators (prev : option ascii) (s : list ascii) : list ascii :=
  match s with
  | [] => []
  | u :: tl =>
      (if separator_before prev u (head tl) then ["_"%char] else [])
        ++ u :: insert_separators (Some u) tl
  end.

(** The rule of the second pass alone: an underscore between a lowercase
    letter or digit and the capital that follows it. *)
Definition hump_before (prev : option ascii) (u : ascii) : bool :=
  match prev with
  | None => false
  | Some p => is_lower_or_digit p && is_upper u
  end.

Fixpoint insert_humps (prev : option ascii) (s : list ascii) : list ascii :=
  match s with
  | [] => []
  | u :: tl =>
      (if hump_before prev u then ["_"%char] else [])
        ++ u :: insert_humps (Some u) tl
  end.

(** What the two passes give when the character before [s] is [prev] and the
    first pass starts afresh at [s]: the first character can only get the
    second pass's separator. *)
Definition separators_from (prev : option ascii) (s : list ascii) : list ascii :=
  match s with
  | [] => []
  | c :: tl =>
      (if hump_before prev c then ["_"%char] else [])
        ++ c :: insert_separators (Some c) tl
  end.

(** A matcher is [shrinking] when every match consumes at least one
    character. *)
Definition shrinking (m : matcher) : Prop :=
  forall s rep rest, m s = Some (rep, rest) -> length rest < length s.

End Snake.

(** ** Outcomes of Python code *)

(** The exceptions that matter below. *)
Inductive exn : Type :=
  | IndexError
  | ValueError
  | KeyError (key : string)
  | ApiError
  | OperationalError
  | DatabaseError.

(** What running a piece of Python code gives: a value, or a raised
    exception. *)
Inductive result (A : Type) : Type :=
  | Ok (a : A)
  | Raise (e : exn).
Arguments Ok {A} a.
Arguments Raise {A} e.

(** ** Computations over an explicit state that may raise

    [Effect S A] is a piece of Python code run on a state of type [S]: it
    gives a value of type [A] or raises, and leaves a state either way (the
    effects done before an exception are not undone). *)

Definition Effect (S A : Type) : Type := S -> result A * S.

Definition ret {S A} (a : A) : Effect S A := fun st => (Ok a, st).

Definition raise {S A} (e : exn) : Effect S A := fun st => (Raise e, st).

Definition bind {S A B} (m : Effect S A) (k : A -> Effect S B)
    : Effect S B := fun st =>
  match m st with
  | (Ok a, st') => k a st'
  | (Raise e, st') => (Raise e, st')
  end.

Notation "x <- m ;; k" := (bind m (fun x => k))
  (at level 100, m at next level, right associativity).

(** [try: m except Exception as e: handler e] *)
Definition catch {S A} (m : Effect S A) (handler : exn -> Effect S A)
    : Effect S A := fun st =>
  match m st with
  | (Ok a, st') => (Ok a, st')
  | (Raise e, st') => handler e st'
  end.

(** [try: m finally: cleanup], for a [cleanup] that does not raise. *)
Definition finally {S A} (m : Effect S A) (cleanup : S -> S)
    : Effect S A := fun st =>
  match m st with
  | (r, st') => (r, cleanup st')
  end.

(** Code that does not touch the state. *)
Definition lift {S A} (r : result A) : Effect S A := fun st => (r, st).

(** ** The builtin [float] on strings *)

Module PyFloat.

(** The number a literal denotes, before rounding to binary64:
    [(-1)^negative * digits * 10^exp10], an infinity, or a NaN.  Rounding is
    not modelled and one number has several such representations; nothing
    below depends on the numeric value beyond the zero written [0.0]. *)
Inductive pyfloat : Type :=
  | FNum (negative : bool) (digits : N) (exp10 : Z)
  | FInf (negative : bool)
  | FNan.

(** [0.0] *)
Definition zero : pyfloat := FNum false 0 0.

(** Whitespace stripped by [float]: the code points below 256 for which
    [str.isspace] holds. *)
Definition is_space (c : ascii) : bool :=
  let n := nat_of_ascii c in
  ((9 <=? n) && (n <=? 13) || (28 <=? n) && (n <=? 32)
   || (n =? 133) || (n =? 160))%nat.

Definition is_digit (c : ascii) : bool := Snake.is_digit c.

Definition digit_value (c : ascii) : N := N.of_nat (nat_of_ascii c - 48).

Fixpoint drop_spaces (s : list ascii) : list ascii :=
  match s with
  | c :: tl => if is_space c then drop_spaces tl else s
  | [] => []
  end.

Definition strip (s : list ascii) : list ascii :=
  rev (drop_spaces (rev (drop_spaces s))).

(** The rest of a [digitpart] after its first digit: digits, each
    optionally preceded by one underscore.  [acc] is the value and [n] the
    number of digits read so far. *)
Fixpoint digits_tail (acc : N) (n : nat) (s : list ascii) : N * nat * list ascii :=
  match s with
  | c :: tl =>
      if is_digit c then digits_tail (10 * acc + digit_value c) (S n) tl
      else if Ascii.eqb c "_" then
        match tl with
        | d :: tl' =>
            if is_digit d then digits_tail (10 * acc + digit_value d) (S n) tl'
            else (acc, n, s)
        | [] => (acc, n, s)
        end
      else (acc, n, s)
  | [] => (acc, n, [])
  end.

(** [digitpart ::= digit (["_"] digit)*], continuing the value [acc]. *)
Definition digitpart (acc : N) (s : list ascii) : option (N * nat * list ascii) :=
  match s with
  | c :: tl =>
      if is_digit c then Some (digits_tail (10 * acc + digit_value c) 1 tl)
      else None
  | [] => None
  end.

(** [number ::= [digitpart] "." digitpart | digitpart ["."]]: the digits as
    one integer, the number of digits after the point, and the rest. *)
Definition number (s : list ascii) : option (N * nat * list ascii) :=
  match digitpart 0 s with
  | Some (i, _, rest) =>
      match rest with
      | "."%char :: rest' =>
          match digitpart i rest' with
          | Some (m, k, rest'') => Some (m, k, rest'')
          | None => Some (i, 0, rest')
          end
      | _ => Some (i, 0, rest)
      end
  | None =>
      match s with
      | "."%char :: rest' => digitpart 0 rest'
      | _ => None
      end
  end.

(** [sign ::= "+" | "-"], optional: whether it is a minus, and the rest. *)
Definition sign (s : list ascii) : bool * list ascii :=
  match s with
  | "-"%char :: tl => (true, tl)
  | "+"%char :: tl => (false, tl)
  | _ => (false, s)
  end.

(** [exponent ::= ("e" | "E") [sign] digitpart], optional, then the end of
    the text. *)
Definition exponent (s : list ascii) : option Z :=
  match s with
  | [] => Some 0%Z
  | c :: tl =>
      if Ascii.eqb c "e" || Ascii.eqb c "E" then
        let (neg, tl') := sign tl in
        match digitpart 0 tl' with
        | Some (e, _, []) => Some (if neg then (- Z.of_N e)%Z else Z.of_N e)
        | _ => None
        end
      else None
  end.

Definition lowered (s : list ascii) : string :=
  string_of_list_ascii (map Snake.lower s).

(** [float(s)] for a string [s]; [None] stands for [ValueError]. *)
Definition py_float (s : string) : option pyfloat :=
  let (neg, body) := sign (strip (list_ascii_of_string s)) in
  if String.eqb (lowered body) "inf" || String.eqb (lowered body) "infinity"
  then Some (FInf neg)
  else if String.eqb (lowered body) "nan" then Some FNan
  else
    match number body with
    | Some (m, k, rest) =>
        match exponent rest with
        | Some e => Some (FNum neg m (e - Z.of_nat k))
        | None => None
        end
    | None => None
    end.

End PyFloat.

Export PyFloat(pyfloat, FNum, FInf, FNan, py_float).

(** ** The report client (ga4_client.py) *)

Module Client.

(** *** The API boundary *)

(** A response row: the [value] of each [DimensionValue] and of each
    [MetricValue], in order. *)
Record Row : Type := {
  dimension_values : list string;
  metric_values : list string
}.

(** A [RunRealtimeReportResponse]: the [name] of each dimension header and
    of each metric header, and the rows. *)
Record Response : Type := {
  dimension_headers : list string;
  metric_headers : list string;
  rows : list Row
}.

(** A [RunRealtimeReportRequest]; the property and the five-minute range are
    the same in every request. *)
Record Request : Type := {
  dimensions : list string;
  metrics : list string
}.

(** What the code cannot see: the wall clock ([now_at k] is what the [k]-th
    call of [pd.Timestamp.now()] returns) and the analytics API. *)
Class Environment : Type := {
  now_at : nat -> Z;
  run_realtime_report : Request -> result Response
}.

(** *** Computations that read the clock, call the API and may raise

    The state counts the clock readings taken so far and logs the requests
    sent to the API, oldest first; it survives a raised exception. *)
Record state : Type := {
  clock_reads : nat;
  api_calls : list Request
}.

Abbreviation M := (Effect state).

(** [pd.Timestamp.now()] *)
Definition now {env : Environment} : M Z := fun st =>
  (Ok (now_at (clock_reads st)),
   {| clock_reads := S (clock_reads st); api_calls := api_calls st |}).

(** [self.client.run_realtime_report(req)] *)
Definition call_api {env : Environment} (req : Request) : M Response := fun st =>
  (run_realtime_report req,
   {| clock_reads := clock_reads st; api_calls := api_calls st ++ [req] |}).

(** *** Records and frames *)

Inductive value : Type :=
  | VStr (s : string)
  | VFloat (x : pyfloat)
  | VTime (t : Z).

(** A Python [dict] with string keys, in insertion order. *)
Definition dict : Type := list (string * value).

(** [d[k] = v]: an existing key keeps its place. *)
Fixpoint dict_set (k : string) (v : value) (d : dict) : dict :=
  match d with
  | [] => [(k, v)]
  | (k', v') :: tl =>
      if String.eqb k k' then (k, v) :: tl else (k', v') :: dict_set k v tl
  end.

(** [d.get(k)] *)
Fixpoint dict_get (k : string) (d : dict) : option value :=
  match d with
  | [] => None
  | (k', v') :: tl => if String.eqb k k' then Some v' else dict_get k tl
  end.

(** A [pd.DataFrame]: the column labels and, for each row, one cell per
    column; [None] is a missing cell (NaN). *)
Record DataFrame : Type := {
  columns : list string;
  cells : list (list (option value))
}.

(** [pd.DataFrame()] *)
Definition empty_frame : DataFrame := {| columns := []; cells := [] |}.

(** [df.empty]: one of the two axes has length zero. *)
Definition df_empty (df : DataFrame) : bool :=
  match columns df, cells df with
  | [], _ => true
  | _, [] => true
  | _, _ => false
  end.

(** [len(df)] *)
Definition df_len (df : DataFrame) : nat := length (cells df).

Definition has_column (col : string) (df : DataFrame) : bool :=
  existsb (String.eqb col) (columns df).

(** The positions of the columns labelled [col]. *)
Fixpoint positions (col : string) (i : nat) (cols : list string) : list nat :=
  match cols with
  | [] => []
  | c :: tl => (if String.eqb col c then [i] else []) ++ positions col (S i) tl
  end.

(** The cell of row [k] in the first column labelled [col]. *)
Definition cell (df : DataFrame) (k : nat) (col : string) : option value :=
  match positions col 0 (columns df), cells df !! k with
  | i :: _, Some r => mjoin (r !! i)
  | _, _ => None
  end.

(** The keys of [d] not yet in [seen], appended to [seen]. *)
Fixpoint add_keys (seen : list string) (ks : list string) : list string :=
  match ks with
  | [] => seen
  | k :: tl =>
      add_keys (if existsb (String.eqb k) seen then seen else seen ++ [k]) tl
  end.

(** [pd.DataFrame(rows)] for a list of dicts: the columns are the keys in
    order of first appearance, a key a dict lacks gives a missing cell. *)
Definition frame_columns (ds : list dict) : list string :=
  fold_left (fun seen d => add_keys seen (map fst d)) ds [].

Definition frame_of_dicts (ds : list dict) : DataFrame :=
  let cols := frame_columns ds in
  {| columns := cols;
     cells := map (fun d => map (fun c => dict_get c d) cols) ds |}.

(** [df.rename(columns=mapping)] *)
Definition rename (mapping : list (string * string)) (df : DataFrame) : DataFrame :=
  {| columns :=
       map (fun c =>
              match find (fun kv => String.eqb c kv.1) mapping with
              | Some kv => kv.2
              | None => c
              end) (columns df);
     cells := cells df |}.

(** [if col not in df.columns: df[col] = v] *)
Definition ensure_column (v : value) (df : DataFrame) (col : string) : DataFrame :=
  if has_column col df then df
  else {| columns := columns df ++ [col];
          cells := map (fun r => r ++ [Some v]) (cells df) |}.

(** [df[keep]]: the columns labelled by each key of [keep], in that order;
    [KeyError] for the first key that labels no column. *)
Definition select (keep : list string) (df : DataFrame) : result DataFrame :=
  match find (fun k => negb (has_column k df)) keep with
  | Some k => Raise (KeyError k)
  | None =>
      let idx := flat_map (fun k => positions k 0 (columns df)) keep in
      Ok {| columns :=
              flat_map (fun k => filter (fun c => String.eqb k c = true)
                                   (columns df)) keep;
            cells := map (fun r => map (fun i => mjoin (r !! i)) idx) (cells df) |}
  end.

(** *** [_parse_response_to_df] (lines 182-207) *)

Definition not_set : string := "(not set)".

(** [for i, dim_value in enumerate(row.dimension_values):
    d[dim_headers[i]] = dim_value.value or '(not set)'], from index [i] on. *)
Fixpoint set_dimensions (dim_headers : list string) (i : nat)
    (vals : list string) (d : dict) : result dict :=
  match vals with
  | [] => Ok d
  | v :: tl =>
      match dim_headers !! i with
      | Some h =>
          set_dimensions dim_headers (S i) tl
            (dict_set h (VStr (if String.eqb v "" then not_set else v)) d)
      | None => Raise IndexError
      end
  end.

(** [float(metric_value.value) if metric_value.value else 0.0] *)
Definition metric_number (v : string) : result pyfloat :=
  if String.eqb v "" then Ok PyFloat.zero
  else match py_float v with
       | Some x => Ok x
       | None => Raise ValueError
       end.

(** [for i, metric_value in enumerate(...): d[metric_headers[i]] = ...],
    from index [i] on; the right-hand side is evaluated first. *)
Fixpoint set_metrics (metric_headers : list string) (i : nat)
    (vals : list string) (d : dict) : result dict :=
  match vals with
  | [] => Ok d
  | v :: tl =>
      match metric_number v with
      | Ok x =>
          match metric_headers !! i with
          | Some h => set_metrics metric_headers (S i) tl (dict_set h (VFloat x) d)
          | None => Raise IndexError
          end
      | Raise e => Raise e
      end
  end.

(** The body of the loop over [response.rows]: one dict per row. *)
Definition parse_row {env : Environment} (dim_headers metric_headers : list string)
    (report_type : string) (row : Row) : M dict :=
  d <- lift (set_dimensions dim_headers 0 (dimension_values row) []) ;;
  d <- lift (set_metrics metric_headers 0 (metric_values row) d) ;;
  let d := dict_set "report_type" (VStr report_type) d in
  t <- now ;;
  ret (dict_set "extracted_at" (VTime t) d).

Fixpoint parse_rows {env : Environment} (dim_headers metric_headers : list string)
    (report_type : string) (rs : list Row) : M (list dict) :=
  match rs with
  | [] => ret []
  | row :: more =>
      d <- parse_row dim_headers metric_headers report_type row ;;
      ds <- parse_rows dim_headers metric_headers report_type more ;;
      ret (d :: ds)
  end.

(** The [try] block of [_parse_response_to_df]. *)
Definition parse_response_body {env : Environment} (response : Response)
    (report_type : string) : M DataFrame :=
  match rows response with
  | [] => ret empty_frame
  | _ =>
      let dim_headers := map Snake.to_snake (dimension_headers response) in
      let metric_headers := map Snake.to_snake (metric_headers response) in
      ds <- parse_rows dim_headers metric_headers report_type (rows response) ;;
      ret (frame_of_dicts ds)
  end.

Definition parse_response_to_df {env : Environment} (response : Response)
    (report_type : string) : M DataFrame :=
  catch (parse_response_body response report_type)
        (fun _ => ret empty_frame).

(** *** [get_realtime_traffic_sources] (lines 104-153) *)

Definition candidates : list (list string) :=
  [ ["sessionSource"; "sessionMedium"; "sessionCampaign"];
    ["sessionSource"; "sessionMedium"];
    ["deviceCategory"];
    ["country"] ].

Definition traffic_request (dims : list string) : Request :=
  {| dimensions := dims; metrics := ["activeUsers"] |}.

Definition traffic_rename : list (string * string) :=
  [ ("session_source", "source");
    ("session_medium", "medium");
    ("session_campaign", "campaign");
    ("device_category", "source");
    ("country", "source") ].

Definition keep : list string :=
  ["source"; "medium"; "campaign"; "active_users"; "report_type"; "extracted_at"].

(** One turn of the loop over the candidates: [Some df] is [return df[keep]],
    [None] is [continue]. *)
Definition try_candidate {env : Environment} (dims : list string)
    : M (option DataFrame) :=
  catch
    (resp <- call_api (traffic_request dims) ;;
     df <- parse_response_to_df resp "traffic_sources" ;;
     if df_empty df then ret None
     else
       let df := rename traffic_rename df in
       let df := fold_left (ensure_column (VStr not_set))
                   ["source"; "medium"; "campaign"] df in
       df <- lift (select keep df) ;;
       ret (Some df))
    (fun _ => ret None).

Fixpoint traffic_loop {env : Environment} (cands : list (list string)) : M DataFrame :=
  match cands with
  | [] => ret empty_frame
  | dims :: more =>
      r <- try_candidate dims ;;
      match r with
      | Some df => ret df
      | None => traffic_loop more
      end
  end.

Definition get_realtime_traffic_sources {env : Environment} : M DataFrame :=
  traffic_loop candidates.

End Client.

(** ** Vocabulary for the traffic-source ladder *)

Module Ladder.
Import Client.

(** The query for a candidate fails, or succeeds without rows. *)
Definition failed_or_empty (r : result Response) : Prop :=
  match r with
  | Raise _ => True
  | Ok response => rows response = []
  end.

(** A row answers the request for [dims]: one value per requested
    dimension, and one metric value, empty or accepted by [float]. *)
Definition row_answers (dims : list string) (row : Row) : bool :=
  (length (dimension_values row) =? length dims)%nat
  && match metric_values row with
     | [v] => match metric_number v with Ok _ => true | Raise _ => false end
     | _ => false
     end.

(** The query for [dims] succeeds with non-empty rows: the response's
    headers are those requested and its rows answer the request. *)
Definition answers (dims : list string) (response : Response) : Prop :=
  dimension_headers response = dims
  /\ metric_headers response = ["activeUsers"]
  /\ rows response <> []
  /\ Forall (fun row => row_answers dims row = true) (rows response).

(** The [i]-th dimension value of the row as normalised, or the sentinel
    when the row has no such value. *)
Definition dimension_or_not_set (row : Row) (i : nat) : value :=
  VStr match dimension_values row !! i with
       | Some v => if String.eqb v "" then not_set else v
       | None => not_set
       end.

Definition first_metric (row : Row) : value :=
  VFloat match metric_values row with
         | v :: _ => match metric_number v with Ok x => x | Raise _ => PyFloat.zero end
         | [] => PyFloat.zero
         end.

(** The canonical record of a row read at time [t]: the candidate's
    dimensions in the places of source, medium and campaign, the sentinel
    where the candidate has no dimension. *)
Definition traffic_record (t : Z) (row : Row) : list (option value) :=
  [ Some (dimension_or_not_set row 0);
    Some (dimension_or_not_set row 1);
    Some (dimension_or_not_set row 2);
    Some (first_metric row);
    Some (VStr "traffic_sources");
    Some (VTime t) ].

Definition traffic_frame {env : Environment} (reads : nat) (rs : list Row) : DataFrame :=
  {| columns := keep;
     cells := imap (fun k row => traffic_record (now_at (reads + k)) row) rs |}.

(** The dict [parse_row] builds for a row that answers the request whose
    canonical dimension names are [dh]. *)
Definition answered_dict (dh : list string) (t : Z) (row : Row) : dict :=
  zip dh (map (fun v => VStr (if String.eqb v "" then not_set else v))
              (dimension_values row))
  ++ [ ("active_users", first_metric row);
       ("report_type", VStr "traffic_sources");
       ("extracted_at", VTime t) ].

End Ladder.

(** ** The storage gateway (postgres_handler.py) *)

Module Storage.
Import Client.

(** *** The relational store *)

(** A stored row: its columns and their values, [None] being NULL.  The
    surrogate [id] and the generated [created_date] are left out. *)
Definition row : Type := list (string * option value).

Definition column (name : string) (r : row) : option value :=
  match find (fun kv => String.eqb name kv.1) r with
  | Some kv => kv.2
  | None => None
  end.

(** The timestamp in the row's [extracted_at] column, if it has one. *)
Definition extracted_at (r : row) : option Z :=
  match column "extracted_at" r with
  | Some (VTime t) => Some t
  | _ => None
  end.

(** Tables and views share one namespace.  What a view contains is what the
    server answers for it ([view_rows] below): the queries that define the
    views are not modelled. *)
Inductive relation : Type :=
  | BaseTable (rows : list row)
  | View.

Record database : Type := {
  relations : gmap string relation;
  indexes : gset string
}.

(** *** SQL statements of the handler *)

Inductive statement : Type :=
  | CreateTableIfNotExists (table : string)
  | CreateIndexIfNotExists (index table : string)
  | SelectBaseTables
  | SelectCount (table : string)
  | SelectSummary (table : string)
  | DeleteOlderThan (table : string) (hours : Z)
  | InsertRows (table : string) (rows : list row)
  | DropViewIfExists (view : string)
  | CreateView (view : string) (sources : list string).

Inductive answer : Type :=
  | Done
  | Names (names : list string)
  | Count (n : nat)
  | Summary (total_records : nat) (latest_update earliest_record : option Z).

(** Timestamps count microseconds. *)
Definition hour : Z := 3600000000.

(** [extracted_at < cutoff]; NULL is not less than anything. *)
Definition older_than (cutoff : Z) (r : row) : bool :=
  match extracted_at r with
  | Some t => (t <? cutoff)%Z
  | None => false
  end.

Definition name_le (a b : string) : Prop := String.leb a b = true.

#[global] Instance name_le_dec a b : Decision (name_le a b).
Proof. unfold name_le. apply _. Defined.

(** [information_schema.tables] restricted to base tables, ordered by
    name. *)
Definition base_tables (db : database) : list string :=
  merge_sort name_le
    (omap (fun kv : string * relation =>
             match kv.2 with BaseTable _ => Some kv.1 | View => None end)
          (map_to_list (relations db))).

Definition option_max (a : option Z) (t : Z) : option Z :=
  match a with Some x => Some (Z.max x t) | None => Some t end.

Definition option_min (a : option Z) (t : Z) : option Z :=
  match a with Some x => Some (Z.min x t) | None => Some t end.

(** [MAX(extracted_at)] and [MIN(extracted_at)], which skip NULLs. *)
Definition latest (rs : list row) : option Z :=
  fold_left option_max (omap extracted_at rs) None.

Definition earliest (rs : list row) : option Z :=
  fold_left option_min (omap extracted_at rs) None.

(** What a statement answers and how it changes the database, when [NOW()]
    is [now]; [None] when the statement is in error. *)
Definition run_statement (now : Z) (stmt : statement) (db : database)
    : option (answer * database) :=
  match stmt with
  | CreateTableIfNotExists t =>
      match relations db !! t with
      | Some _ => Some (Done, db)
      | None =>
          Some (Done, {| relations := <[t := BaseTable []]> (relations db);
                         indexes := indexes db |})
      end
  | CreateIndexIfNotExists i t =>
      if bool_decide (i ∈ indexes db) then Some (Done, db)
      else match relations db !! t with
           | Some (BaseTable _) =>
               Some (Done, {| relations := relations db;
                              indexes := {[i]} ∪ indexes db |})
           | _ => None
           end
  | SelectBaseTables => Some (Names (base_tables db), db)
  | SelectCount t =>
      match relations db !! t with
      | Some (BaseTable rs) => Some (Count (length rs), db)
      | _ => None
      end
  | SelectSummary t =>
      match relations db !! t with
      | Some (BaseTable rs) => Some (Summary (length rs) (latest rs) (earliest rs), db)
      | _ => None
      end
  | DeleteOlderThan t hours =>
      match relations db !! t with
      | Some (BaseTable rs) =>
          let kept :=
            List.filter (fun r => negb (older_than (now - hours * hour) r)) rs in
          Some (Done, {| relations := <[t := BaseTable kept]> (relations db);
                         indexes := indexes db |})
      | _ => None
      end
  | InsertRows t rows =>
      match relations db !! t with
      | Some (BaseTable rs) =>
          Some (Done, {| relations := <[t := BaseTable (rs ++ rows)]> (relations db);
                         indexes := indexes db |})
      | _ => None
      end
  | DropViewIfExists v =>
      match relations db !! v with
      | None => Some (Done, db)
      | Some View =>
          Some (Done, {| relations := delete v (relations db);
                         indexes := indexes db |})
      | Some (BaseTable _) => None
      end
  | CreateView v sources =>
      match relations db !! v with
      | Some _ => None
      | None =>
          if forallb (fun s => bool_decide (is_Some (relations db !! s))) sources
          then Some (Done, {| relations := <[v := View]> (relations db);
                              indexes := indexes db |})
          else None
      end
  end.

(** *** Connections and transactions *)

(** What the code cannot see: whether the next operation on the server
    fails ([fault_at k] for the [k]-th operation), the server's clock, and
    what [SELECT * FROM v ORDER BY extracted_at] answers for a view [v] on a
    database at a time, [None] when that query is in error. *)
Class Server : Type := {
  fault_at : nat -> bool;
  server_time : nat -> Z;
  view_rows : string -> database -> Z -> option (list row)
}.

(** An open psycopg2 connection: the database as its transaction sees it,
    whether the transaction is aborted by a failed statement, and the value
    of [NOW()] in it. *)
Record session : Type := {
  working : database;
  aborted : bool;
  txn_now : Z
}.

(** The committed database, the number of operations sent to the server so
    far, and the connection of the running method, if it has one. *)
Record world : Type := {
  store : database;
  tick : nat;
  conn : option session
}.

Abbreviation DB := (Effect world).

(** [self.get_connection()]: [psycopg2.connect] raises when the server
    cannot be reached. *)
Definition get_connection {srv : Server} : DB unit := fun w =>
  if fault_at (tick w)
  then (Raise OperationalError,
        {| store := store w; tick := S (tick w); conn := conn w |})
  else (Ok tt,
        {| store := store w; tick := S (tick w);
           conn := Some {| working := store w; aborted := false;
                           txn_now := server_time (tick w) |} |}).

(** [cursor.execute(stmt)].  A statement that fails aborts the transaction;
    in an aborted transaction every statement fails. *)
Definition execute {srv : Server} (stmt : statement) : DB answer := fun w =>
  match conn w with
  | None => (Raise OperationalError, w)
  | Some s =>
      let failed :=
        (Raise DatabaseError,
         {| store := store w; tick := S (tick w);
            conn := Some {| working := working s; aborted := true;
                            txn_now := txn_now s |} |}) in
      if aborted s || fault_at (tick w) then failed
      else match run_statement (txn_now s) stmt (working s) with
           | Some (a, db') =>
               (Ok a,
                {| store := store w; tick := S (tick w);
                   conn := Some {| working := db'; aborted := false;
                                   txn_now := txn_now s |} |})
           | None => failed
           end
  end.

(** [conn.commit()]: an aborted transaction is rolled back instead. *)
Definition commit {srv : Server} : DB unit := fun w =>
  match conn w with
  | None => (Raise OperationalError, w)
  | Some s =>
      if fault_at (tick w)
      then (Raise OperationalError,
            {| store := store w; tick := S (tick w); conn := conn w |})
      else
        let db := if aborted s then store w else working s in
        (Ok tt,
         {| store := db; tick := S (tick w);
            conn := Some {| working := db; aborted := false;
                            txn_now := txn_now s |} |})
  end.

(** [conn.rollback()]: it is sent to the server as the other operations
    are, and raises when the connection is lost. *)
Definition rollback {srv : Server} : DB unit := fun w =>
  match conn w with
  | None => (Raise OperationalError, w)
  | Some s =>
      if fault_at (tick w)
      then (Raise OperationalError,
            {| store := store w; tick := S (tick w); conn := conn w |})
      else (Ok tt,
            {| store := store w; tick := S (tick w);
               conn := Some {| working := store w; aborted := false;
                               txn_now := txn_now s |} |})
  end.

(** [cursor.close(); conn.close()]: what was not committed is lost. *)
Definition close (w : world) : world :=
  {| store := store w; tick := tick w; conn := None |}.

(** The rows a frame holds, as stored rows. *)
Definition rows_of_frame (df : DataFrame) : list row :=
  map (fun r => zip (columns df) r) (cells df).

(** *** The handler *)

Record handler : Type := {
  tables_to_manage : list string
}.

Definition index_name (t : string) : string :=
  "idx_" +:+ t +:+ "_extracted_at".

(** [for stmt in stmts: cursor.execute(stmt)] *)
Fixpoint execute_all {srv : Server} (stmts : list statement) : DB unit :=
  match stmts with
  | [] => ret tt
  | stmt :: more => _ <- execute stmt ;; execute_all more
  end.

(** pandas cuts the rows of a frame into chunks of [chunksize] rows and
    sends one multi-row INSERT for each; without [chunksize] the whole frame
    is one chunk. *)
Definition chunks (rows : list row) : list (list row) := [rows].

(** [df.to_sql(table, engine, if_exists="append", index=False,
    method="multi")]: on a connection of the engine and in one transaction,
    pandas creates the table when there is no relation of that name, sends
    the INSERTs, and commits; what fails is rolled back and raised. *)
Definition to_sql {srv : Server} (df : DataFrame) (table : string) : DB unit :=
  _ <- get_connection ;;
  finally
    (catch
       (_ <- execute (CreateTableIfNotExists table) ;;
        _ <- execute_all (map (InsertRows table) (chunks (rows_of_frame df))) ;;
        commit)
       (fun e => _ <- rollback ;; raise e))
    close.

(** [init_tables] (lines 46-142) *)
Definition init_tables {srv : Server} (self : handler) : DB unit :=
  _ <- get_connection ;;
  finally
    (catch
       (_ <- execute (CreateTableIfNotExists "active_users_by_page") ;;
        _ <- execute (CreateTableIfNotExists "events_by_page") ;;
        _ <- execute (CreateTableIfNotExists "conversions") ;;
        _ <- execute (CreateTableIfNotExists "traffic_sources") ;;
        _ <- execute (CreateTableIfNotExists "overview") ;;
        _ <- execute_all
               (map (fun t => CreateIndexIfNotExists (index_name t) t)
                    (tables_to_manage self)) ;;
        commit)
       (fun e => _ <- rollback ;; raise e))
    close.

(** [__init__] (lines 13-35): [create_engine] connects to nothing yet. *)
Definition PostgreSQLHandler {srv : Server} : DB handler :=
  let self :=
    {| tables_to_manage :=
         ["active_users_by_page"; "events_by_page"; "conversions";
          "traffic_sources"; "overview"] |} in
  _ <- init_tables self ;;
  ret self.

(** [insert_dataframe] (lines 144-156) *)
Definition insert_dataframe {srv : Server} (self : handler) (df : DataFrame)
    (table_name : string) : DB unit :=
  if df_empty df then ret tt
  else catch (to_sql df table_name) (fun e => raise e).

(** Newest first; NULL sorts before every timestamp in descending order. *)
Definition newer_or_equal (a b : row) : Prop :=
  match extracted_at a, extracted_at b with
  | None, _ => True
  | Some _, None => False
  | Some x, Some y => (y <= x)%Z
  end.

#[global] Instance newer_or_equal_dec a b : Decision (newer_or_equal a b).
Proof.
  unfold newer_or_equal.
  destruct (extracted_at a), (extracted_at b); apply _.
Defined.

(** The rows [SELECT * FROM name] ranges over: those of the table, or what
    the server answers for the view; [None] when there is nothing of that
    name or the query is in error. *)
Definition selected {srv : Server} (name : string) (now : Z) (db : database)
    : option (list row) :=
  match relations db !! name with
  | Some (BaseTable rs) => Some rs
  | Some View => view_rows name db now
  | None => None
  end.

(** [pd.read_sql] of [SELECT * ... ORDER BY extracted_at DESC LIMIT limit],
    on a connection of the engine; a negative [LIMIT] is an error. *)
Definition read_latest {srv : Server} (table_name : string) (limit : Z)
    : DB (list row) := fun w =>
  let w' := {| store := store w; tick := S (tick w); conn := conn w |} in
  if fault_at (tick w) then (Raise DatabaseError, w')
  else match selected table_name (server_time (tick w)) (store w) with
       | Some rs =>
           if (limit <? 0)%Z then (Raise DatabaseError, w')
           else (Ok (take (Z.to_nat limit) (merge_sort newer_or_equal rs)), w')
       | None => (Raise DatabaseError, w')
       end.

(** [get_latest_data] (lines 158-170) *)
Definition get_latest_data {srv : Server} (self : handler) (table_name : string)
    (limit : Z) : DB (list row) :=
  catch (read_latest table_name limit) (fun _ => ret []).

(** The dict [check_database_status] returns. *)
Inductive status : Type :=
  | StatusOk (tables : gmap string nat)
  | StatusError (message : exn).

(** [for (table_name,) in tables: ... stats[table_name] = count] *)
Fixpoint count_tables {srv : Server} (tables : list string)
    (stats : gmap string nat) : DB (gmap string nat) :=
  match tables with
  | [] => ret stats
  | t :: more =>
      a <- execute (SelectCount t) ;;
      match a with
      | Count n => count_tables more (<[t := n]> stats)
      | _ => raise DatabaseError
      end
  end.

(** [check_database_status] (lines 172-201) *)
Definition check_database_status {srv : Server} (self : handler) : DB status :=
  _ <- get_connection ;;
  finally
    (catch
       (a <- execute SelectBaseTables ;;
        match a with
        | Names tables =>
            stats <- count_tables tables ∅ ;;
            ret (StatusOk stats)
        | _ => raise DatabaseError
        end)
       (fun e => ret (StatusError e)))
    close.

(** One entry of the dict [get_summary_stats] returns. *)
Inductive table_stats : Type :=
  | Stats (total_records : nat) (latest_update earliest_record : option Z)
  | StatsError (message : exn).

Fixpoint summarise {srv : Server} (tables : list string)
    (stats : gmap string table_stats) : DB (gmap string table_stats) :=
  match tables with
  | [] => ret stats
  | t :: more =>
      entry <- catch
                 (a <- execute (SelectSummary t) ;;
                  match a with
                  | Summary n hi lo => ret (Stats n hi lo)
                  | _ => raise DatabaseError
                  end)
                 (fun e => ret (StatsError e)) ;;
      summarise more (<[t := entry]> stats)
  end.

(** [get_summary_stats] (lines 203-236) *)
Definition get_summary_stats {srv : Server} (self : handler)
    : DB (gmap string table_stats) :=
  _ <- get_connection ;;
  finally
    (catch (summarise (tables_to_manage self) ∅) (fun _ => ret ∅))
    close.

(** [for table in self.tables_to_manage: try: DELETE ... except: log] *)
Fixpoint delete_old {srv : Server} (hours : Z) (tables : list string) : DB unit :=
  match tables with
  | [] => ret tt
  | t :: more =>
      _ <- catch (_ <- execute (DeleteOlderThan t hours) ;; ret tt)
                 (fun _ => ret tt) ;;
      delete_old hours more
  end.

(** [cleanup_old_data] (lines 238-259) *)
Definition cleanup_old_data {srv : Server} (self : handler) (hours_to_keep : Z)
    : DB unit :=
  _ <- get_connection ;;
  finally
    (catch
       (_ <- delete_old hours_to_keep (tables_to_manage self) ;;
        commit)
       (fun _ => rollback))
    close.

(** [create_aggregated_views] (lines 261-323) *)
Definition create_aggregated_views {srv : Server} (self : handler) : DB unit :=
  _ <- get_connection ;;
  finally
    (catch
       (_ <- execute (DropViewIfExists "hourly_metrics") ;;
        _ <- execute (DropViewIfExists "realtime_dashboard") ;;
        _ <- execute (CreateView "hourly_metrics"
                        ["active_users_by_page"; "conversions"; "traffic_sources"]) ;;
        _ <- execute (CreateView "realtime_dashboard" ["active_users_by_page"]) ;;
        commit)
       (fun _ => rollback))
    close.

End Storage.

(** ** Vocabulary for the gateway's properties *)

Module Gateway.
Import Client Storage.

(** The rows of [table] before an append: none when the table is missing. *)
Definition rows_before (table : string) (db : database) : list row :=
  match relations db !! table with
  | Some (BaseTable rs) => rs
  | _ => []
  end.

(** The five tables every handler manages. *)
Definition managed : list string :=
  ["active_users_by_page"; "events_by_page"; "conversions";
   "traffic_sources"; "overview"].

(** The two derived views, the only relations the gateway ever drops. *)
Definition view_names : list string := ["hourly_metrics"; "realtime_dashboard"].

(** The schema [init_tables] ensures: every managed name is a relation of
    the database and has its index on [extracted_at]. *)
Definition schema_ensured (db : database) : Prop :=
  forall t, t ∈ managed ->
    is_Some (relations db !! t) /\ index_name t ∈ indexes db.

(** [db'] has every relation of [db], the derived views apart, and every
    index of [db]. *)
Definition grows (db db' : database) : Prop :=
  (forall t, t ∉ view_names ->
     is_Some (relations db !! t) -> is_Some (relations db' !! t))
  /\ indexes db ⊆ indexes db'.

(** The committed database, and the open transaction's view of it, have
    grown from [db0]. *)
Definition grown_from (db0 : database) (w : world) : Prop :=
  grows db0 (store w)
  /\ forall s, conn w = Some s -> grows db0 (working s).

(** The statements the handler sends drop nothing but the derived views. *)
Definition handler_statement (stmt : statement) : Prop :=
  match stmt with
  | DropViewIfExists v => v ∈ view_names
  | _ => True
  end.

(** A computation keeps a property of the world, whatever its outcome. *)
Definition keeps {A} (P : world -> Prop) (m : DB A) : Prop :=
  forall w r w', P w -> m w = (r, w') -> P w'.

(** The operations a task can invoke on a handler. *)
Inductive operation : Type :=
  | InsertDataframe (df : DataFrame) (table_name : string)
  | GetLatestData (table_name : string) (limit : Z)
  | CheckDatabaseStatus
  | GetSummaryStats
  | CleanupOldData (hours_to_keep : Z)
  | CreateAggregatedViews
  | InitTables.

(** The world after an operation, whether it returned or raised. *)
Definition after {srv : Server} (self : handler) (op : operation) (w : world) : world :=
  match op with
  | InsertDataframe df t => (insert_dataframe self df t w).2
  | GetLatestData t limit => (get_latest_data self t limit w).2
  | CheckDatabaseStatus => (check_database_status self w).2
  | GetSummaryStats => (get_summary_stats self w).2
  | CleanupOldData hours => (cleanup_old_data self hours w).2
  | CreateAggregatedViews => (create_aggregated_views self w).2
  | InitTables => (init_tables self w).2
  end.

(** The world after a sequence of operations. *)
Definition after_all {srv : Server} (self : handler) (ops : list operation)
    (w : world) : world :=
  fold_left (fun w op => after self op w) ops w.

(** The statements of a list run one after the other on a database. *)
Fixpoint run_all (now : Z) (stmts : list statement) (db : database)
    : option database :=
  match stmts with
  | [] => Some db
  | stmt :: more =>
      match run_statement now stmt db with
      | Some (_, db') => run_all now more db'
      | None => None
      end
  end.

(** A transaction as [init_tables] and [to_sql] run it: connect, send the
    statements, commit; what fails is rolled back and raised again. *)
Definition transaction {srv : Server} (stmts : list statement) : DB unit :=
  _ <- get_connection ;;
  finally
    (catch (_ <- execute_all stmts ;; commit)
           (fun e => _ <- rollback ;; raise e))
    close.

(** A transaction as [create_aggregated_views] runs it: what fails is rolled
    back and logged. *)
Definition logged_transaction {srv : Server} (stmts : list statement) : DB unit :=
  _ <- get_connection ;;
  finally
    (catch (_ <- execute_all stmts ;; commit) (fun _ => rollback))
    close.

(** The statements of [init_tables]. *)
Definition init_statements (self : handler) : list statement :=
  map CreateTableIfNotExists managed
  ++ map (fun t => CreateIndexIfNotExists (index_name t) t) (tables_to_manage self).


(** The statements of [init_tables] only add relations and indexes. *)
Definition is_create (stmt : statement) : Prop :=
  match stmt with
  | CreateTableIfNotExists _ | CreateIndexIfNotExists _ _ => True
  | _ => False
  end.

(** The rows a purge with the given cutoff leaves alone. *)
Definition within_window (cutoff : Z) (rs : list row) : list row :=
  List.filter (fun r => negb (older_than cutoff r)) rs.



(** No operation on the server fails from the [k]-th on, for [n]
    operations. *)
Definition fault_free {srv : Server} (k n : nat) : Prop :=
  forall i, k <= i < k + n -> fault_at i = false.


End Gateway.

(** ** The orchestrator (ga4_realtime_dag.py) *)

Module Dag.

(** The tasks of the DAG, under the names of the variables that hold
    them. *)
Inductive task : Type :=
  | start_task
  | check_creds_task
  | extract_active_users_task
  | extract_events_by_page_task
  | extract_conversions_task
  | extract_traffic_sources_task
  | extract_overview_task
  | create_views_task
  | cleanup_task
  | check_db_status_task
  | summary_task
  | end_task.

#[global] Instance task_eq_dec : EqDecision task.
Proof. solve_decision. Defined.

Inductive trigger_rule : Type :=
  | all_success
  | all_done
  | none_failed_min_one_success.

(** The [trigger_rule] argument of each operator; [all_success] is
    Airflow's default. *)
Definition trigger_rule_of (t : task) : trigger_rule :=
  match t with
  | create_views_task => none_failed_min_one_success
  | cleanup_task | summary_task | end_task => all_done
  | _ => all_success
  end.

Definition extractions : list task :=
  [ extract_active_users_task; extract_events_by_page_task;
    extract_conversions_task; extract_traffic_sources_task;
    extract_overview_task ].

(** The dependencies declared with [>>] (lines 284-302). *)
Definition upstream (t : task) : list task :=
  match t with
  | start_task => []
  | check_creds_task => [start_task]
  | extract_active_users_task | extract_events_by_page_task
  | extract_conversions_task | extract_traffic_sources_task
  | extract_overview_task => [check_creds_task]
  | create_views_task => extractions
  | cleanup_task => [create_views_task]
  | check_db_status_task => [cleanup_task]
  | summary_task => [check_db_status_task]
  | end_task => [summary_task]
  end.

(** The state a task instance ends in. *)
Inductive task_state : Type :=
  | success
  | failed
  | upstream_failed
  | skipped.

Definition is_failure (st : task_state) : bool :=
  match st with failed | upstream_failed => true | _ => false end.

Definition is_success (st : task_state) : bool :=
  match st with success => true | _ => false end.

Definition is_skipped (st : task_state) : bool :=
  match st with skipped => true | _ => false end.

(** Airflow's trigger rules, once every upstream task is done: the task is
    run, and succeeds or fails as its callable returns or raises ([ok]), or
    it is not run and marked [upstream_failed] or [skipped].
    - [all_success]: run when all upstream tasks succeeded;
    - [all_done]: run whatever the upstream states;
    - [none_failed_min_one_success]: run when no upstream task is [failed]
      or [upstream_failed] and at least one succeeded. *)
Definition evaluate (rule : trigger_rule) (ups : list task_state) (ok : bool)
    : task_state :=
  let ran := if ok then success else failed in
  match rule with
  | all_success =>
      if existsb is_failure ups then upstream_failed
      else if existsb is_skipped ups then skipped
      else ran
  | all_done => ran
  | none_failed_min_one_success =>
      if existsb is_failure ups then upstream_failed
      else if existsb is_success ups then ran
      else skipped
  end.

(** Whether the task's callable returns without raising, were it run;
    the two [DummyOperator]s have nothing to raise. *)
Definition returns (outcome : task -> bool) (t : task) : bool :=
  match t with
  | start_task | end_task => true
  | _ => outcome t
  end.

(** The tasks done so far in a run, with their states, latest first. *)
Definition log : Type := list (task * task_state).

Definition state_in (s : log) (t : task) : option task_state :=
  match find (fun e => bool_decide (e.1 = t)) s with
  | Some e => Some e.2
  | None => None
  end.

(** The states of the given tasks, if all of them are done. *)
Fixpoint states_in (s : log) (ts : list task) : option (list task_state) :=
  match ts with
  | [] => Some []
  | t :: more =>
      match state_in s t, states_in s more with
      | Some st, Some sts => Some (st :: sts)
      | _, _ => None
      end
  end.

(** The scheduler's step: a task not yet done whose upstream tasks are all
    done gets its state from its trigger rule. *)
Inductive step (outcome : task -> bool) : log -> log -> Prop :=
  | step_task (s : log) (t : task) (ups : list task_state) :
      state_in s t = None ->
      states_in s (upstream t) = Some ups ->
      step outcome s
        ((t, evaluate (trigger_rule_of t) ups (returns outcome t)) :: s).

Definition complete (s : log) : Prop := forall t, is_Some (state_in s t).

(** A run of the DAG: steps from the empty log until every task is done. *)
Definition run (outcome : task -> bool) (s : log) : Prop :=
  rtc (step outcome) [] s /\ complete s.

(** The task was run (its callable was called). *)
Definition executed (st : option task_state) : bool :=
  match st with
  | Some success | Some failed => true
  | _ => false
  end.

(** The state each task ends in, along the dependencies. *)
Definition final (outcome : task -> bool) (t : task) : task_state :=
  let state rule ups t := evaluate rule ups (returns outcome t) in
  let start := state all_success [] start_task in
  let creds := state all_success [start] check_creds_task in
  let extraction := state all_success [creds] in
  let extracted := map extraction extractions in
  let views := state none_failed_min_one_success extracted create_views_task in
  let cleanup := state all_done [views] cleanup_task in
  let status := state all_success [cleanup] check_db_status_task in
  let summary := state all_done [status] summary_task in
  match t with
  | start_task => start
  | check_creds_task => creds
  | extract_active_users_task | extract_events_by_page_task
  | extract_conversions_task | extract_traffic_sources_task
  | extract_overview_task => extraction t
  | create_views_task => views
  | cleanup_task => cleanup
  | check_db_status_task => status
  | summary_task => summary
  | end_task => state all_done [summary] end_task
  end.

(** Every state in the log is the one [final] gives. *)
Definition consistent (outcome : task -> bool) (s : log) : Prop :=
  forall t st, state_in s t = Some st -> st = final outcome t.

(** One order in which the scheduler can take the tasks. *)
Definition schedule : list task :=
  [ start_task; check_creds_task; extract_active_users_task;
    extract_events_by_page_task; extract_conversions_task;
    extract_traffic_sources_task; extract_overview_task; create_views_task;
    cleanup_task; check_db_status_task; summary_task; end_task ].

(** The log of the run that follows [schedule]. *)
Definition scheduled (outcome : task -> bool) : log :=
  rev (map (fun t => (t, final outcome t)) schedule).

End Dag.

(** ** The four single-query reports (ga4_client.py, lines 41-102 and 155-180) *)

Module Reports.
Import Client.

(** The shape the four methods share: build the request, run it, normalise
    the response; any exception is logged and an empty frame returned. *)
Definition report {env : Environment} (dims mets : list string)
    (report_type : string) : M DataFrame :=
  catch
    (response <- call_api {| dimensions := dims; metrics := mets |} ;;
     parse_response_to_df response report_type)
    (fun _ => ret empty_frame).

Definition get_realtime_active_users_by_page {env : Environment} : M DataFrame :=
  report ["unifiedScreenName"; "country"] ["activeUsers"; "screenPageViews"]
    "active_users_by_page".

Definition get_realtime_events_by_page {env : Environment} : M DataFrame :=
  report ["unifiedScreenName"; "eventName"] ["eventCount"] "events_by_page".

Definition get_realtime_conversions {env : Environment} : M DataFrame :=
  report ["eventName"] ["keyEvents"] "conversions".

Definition get_realtime_overview {env : Environment} : M DataFrame :=
  report [] ["activeUsers"; "screenPageViews"; "keyEvents"; "eventCount"]
    "overview".

(** *** What the normaliser makes of a complete response *)

(** [dim_value.value or '(not set)'] *)
Definition dimension_cell (v : string) : value :=
  VStr (if String.eqb v "" then not_set else v).

(** The number of a metric value that is empty or that [float] accepts. *)
Definition metric_cell (v : string) : value :=
  VFloat match metric_number v with Ok x => x | Raise _ => PyFloat.zero end.

(** A row has one value per header, and [float] accepts its non-empty
    metric values. *)
Definition complete_row (response : Response) (row : Row) : Prop :=
  length (dimension_values row) = length (dimension_headers response)
  /\ length (metric_values row) = length (metric_headers response)
  /\ Forall (fun v => exists x, metric_number v = Ok x) (metric_values row).

(** The column labels of a complete response. *)
Definition normal_columns (response : Response) : list string :=
  map Snake.to_snake (dimension_headers response)
  ++ map Snake.to_snake (metric_headers response)
  ++ ["report_type"; "extracted_at"].

(** The record of a complete row read at time [t]. *)
Definition normal_record (report_type : string) (t : Z) (row : Row)
    : list (option value) :=
  map (fun v => Some (dimension_cell v)) (dimension_values row)
  ++ map (fun v => Some (metric_cell v)) (metric_values row)
  ++ [Some (VStr report_type); Some (VTime t)].

(** The dict [parse_row] builds for a complete row. *)
Definition normal_dict (dh mh : list string) (report_type : string) (t : Z)
    (row : Row) : dict :=
  zip dh (map dimension_cell (dimension_values row))
  ++ zip mh (map metric_cell (metric_values row))
  ++ [("report_type", VStr report_type); ("extracted_at", VTime t)].

End Reports.

(** ** More vocabulary for the gateway *)

Module GatewayMore.
Import Client Storage Gateway.

(** Every base table of [db] is a base table of [db'] with the same rows. *)
Definition tables_kept (db db' : database) : Prop :=
  forall t rs,
    relations db !! t = Some (BaseTable rs) ->
    relations db' !! t = Some (BaseTable rs).

(** A property [R] that relates [db0] to the committed database and to the
    open transaction's view of it. *)
Definition related_from (R : database -> database -> Prop) (db0 : database)
    (w : world) : Prop :=
  R db0 (store w) /\ forall s, conn w = Some s -> R db0 (working s).

(** The statements that leave every stored row alone. *)
Definition keeps_rows (stmt : statement) : Prop :=
  match stmt with
  | DeleteOlderThan _ _ | InsertRows _ _ => False
  | _ => True
  end.

(** When a computation raises, the committed database is the one it
    started from. *)
Definition raises_unchanged {A} (m : DB A) : Prop :=
  forall w e w', m w = (Raise e, w') -> store w' = store w.

(** The relations of [db], and an empty table for each name of [ts] that
    [db] lacks. *)
Definition with_tables (ts : list string) (db : database) (t : string)
    : option relation :=
  match relations db !! t with
  | Some r => Some r
  | None => if bool_decide (t ∈ ts) then Some (BaseTable []) else None
  end.

(** [init_tables] can create the index of every managed name: none of them
    is a view that lacks its index. *)
Definition indexable (db : database) : Prop :=
  forall t, t ∈ managed ->
    relations db !! t = Some View -> index_name t ∈ indexes db.

(** The operations that neither add nor delete rows. *)
Definition read_or_ddl (op : operation) : Prop :=
  match op with
  | InsertDataframe _ _ | CleanupOldData _ => False
  | _ => True
  end.

(** The statements of [create_aggregated_views]. *)
Definition view_statements : list statement :=
  [ DropViewIfExists "hourly_metrics";
    DropViewIfExists "realtime_dashboard";
    CreateView "hourly_metrics"
      ["active_users_by_page"; "conversions"; "traffic_sources"];
    CreateView "realtime_dashboard" ["active_users_by_page"] ].

(** The database with the two derived views defined. *)
Definition with_views (db : database) : database :=
  {| relations :=
       <["realtime_dashboard" := View]>
         (<["hourly_metrics" := View]> (relations db));
     indexes := indexes db |}.

(** The views can be rebuilt on [db]: the tables they read exist, and no
    table has the name of a view. *)
Definition views_definable (db : database) : Prop :=
  (forall t, t ∈ ["active_users_by_page"; "conversions"; "traffic_sources"] ->
     is_Some (relations db !! t))
  /\ (forall v, v ∈ view_names -> relations db !! v = None
                                  \/ relations db !! v = Some View).

(** [db'] is [db] with each table of [tables] purged of the rows older than
    [cutoff], and nothing else changed. *)
Definition purged_all (cutoff : Z) (tables : list string) (db db' : database)
    : Prop :=
  indexes db' = indexes db
  /\ forall t,
       (t ∈ tables ->
          exists rs, relations db !! t = Some (BaseTable rs)
                     /\ relations db' !! t
                        = Some (BaseTable (within_window cutoff rs)))
       /\ (t ∉ tables -> relations db' !! t = relations db !! t).

(** The state of a cleanup after the DELETE statements of [tables]: nothing
    is committed, and the transaction is aborted or has purged them all. *)
Definition deleting (hours now : Z) (db0 : database) (tables : list string)
    (w : world) : Prop :=
  store w = db0
  /\ exists s,
       conn w = Some s /\ txn_now s = now
       /\ (aborted s = true
           \/ purged_all (now - hours * hour) tables db0 (working s)).


(** During a method that connected at operation [k]: the connection is
    open and the operations are counted on. *)
Definition connected_since (k : nat) (w : world) : Prop :=
  is_Some (conn w) /\ k <= tick w.

(** The last operation sent to the server since [w] failed. *)
Definition lost_connection {srv : Server} (w w' : world) : Prop :=
  tick w < tick w' /\ fault_at (pred (tick w')) = true.

End GatewayMore.

(** ** The task callables (ga4_realtime_dag.py) *)

Module Tasks.
Import Client Storage Reports.

(** What the callables of a run work on: the client's side, with the clock
    and the GA4 API, and the database server. *)
Record pipeline : Type := {
  api : state;
  db : world
}.

(** What the code cannot see: whether the service-account key loads when a
    client is built. *)
Class Deployment : Type := {
  load_credentials : result unit
}.

Abbreviation Task := (Effect pipeline).

(** Code of the client and of the gateway, run on their side of the
    pipeline. *)
Definition on_api {A} (m : M A) : Task A := fun p =>
  match m (api p) with
  | (r, st) => (r, {| api := st; db := db p |})
  end.

Definition on_db {A} (m : DB A) : Task A := fun p =>
  match m (db p) with
  | (r, w) => (r, {| api := api p; db := w |})
  end.

(** [GA4RealtimeClient(GA4_PROPERTY_ID, CREDENTIALS_PATH)] (ga4_client.py,
    lines 24-39): [_initialize_client] logs the failure and re-raises. *)
Definition GA4RealtimeClient {dep : Deployment} : Task unit :=
  catch (lift load_credentials) (fun e => raise e).

(** The dict an extraction returns. *)
Record extraction : Type := {
  status : string;
  records : nat;
  table : string
}.

(** The body the five [extract_*_data] callables share (lines 62-159), with
    the client's method and the table as parameters. *)
Definition extract {dep : Deployment} {srv : Server} (get : M DataFrame)
    (table_name : string) : Task extraction :=
  catch
    (_ <- GA4RealtimeClient ;;
     df <- on_api get ;;
     if negb (df_empty df) then
       db_handler <- on_db PostgreSQLHandler ;;
       _ <- on_db (insert_dataframe db_handler df table_name) ;;
       ret {| status := "success"; records := df_len df; table := table_name |}
     else
       ret {| status := "no_data"; records := 0; table := table_name |})
    (fun e => raise e).

Definition extract_active_users_data {dep : Deployment} {env : Environment}
    {srv : Server} : Task extraction :=
  extract get_realtime_active_users_by_page "active_users_by_page".

Definition extract_events_by_page_data {dep : Deployment} {env : Environment}
    {srv : Server} : Task extraction :=
  extract get_realtime_events_by_page "events_by_page".

Definition extract_conversions_data {dep : Deployment} {env : Environment}
    {srv : Server} : Task extraction :=
  extract get_realtime_conversions "conversions".

Definition extract_traffic_sources_data {dep : Deployment} {env : Environment}
    {srv : Server} : Task extraction :=
  extract get_realtime_traffic_sources "traffic_sources".

Definition extract_overview_data {dep : Deployment} {env : Environment}
    {srv : Server} : Task extraction :=
  extract get_realtime_overview "overview".

(** The five extractions with their tables. *)
Definition extractions {dep : Deployment} {env : Environment} {srv : Server}
    : list (Task extraction * string) :=
  [ (extract_active_users_data, "active_users_by_page");
    (extract_events_by_page_data, "events_by_page");
    (extract_conversions_data, "conversions");
    (extract_traffic_sources_data, "traffic_sources");
    (extract_overview_data, "overview") ].


End Tasks.

(** ** Concrete inputs for the examples *)

Module Samples.
Import Client.

Definition st0 : state := {| clock_reads := 0; api_calls := [] |}.

(** A clock that advances by one microsecond between two readings; the API
    is not used. *)
Definition ticking : Environment :=
  {| now_at := fun k => (1762190000000000 + Z.of_nat k)%Z;
     run_realtime_report := fun _ => Raise ApiError |}.

Definition row (dims mets : list string) : Row :=
  {| dimension_values := dims; metric_values := mets |}.

(** The end-to-end scenario of the specification, with a second row. *)
Definition two_pages : Response :=
  {| dimension_headers := ["unifiedScreenName"; "country"];
     metric_headers := ["activeUsers"; "screenPageViews"];
     rows := [row ["/home"; "US"] ["12"; "340"]; row ["/about"; ""] [""; "7"]] |}.

Definition two_pages_frame : DataFrame :=
  {| columns := ["unified_screen_name"; "country"; "active_users";
                 "screen_page_views"; "report_type"; "extracted_at"];
     cells :=
       [ [Some (VStr "/home"); Some (VStr "US"); Some (VFloat (FNum false 12 0));
          Some (VFloat (FNum false 340 0)); Some (VStr "active_users_by_page");
          Some (VTime 1762190000000000)];
         [Some (VStr "/about"); Some (VStr "(not set)"); Some (VFloat (FNum false 0 0));
          Some (VFloat (FNum false 7 0)); Some (VStr "active_users_by_page");
          Some (VTime 1762190000000001)] ] |}.

(** The same response with a metric value that [float] rejects. *)
Definition bad_metric : Response :=
  {| dimension_headers := ["unifiedScreenName"; "country"];
     metric_headers := ["activeUsers"; "screenPageViews"];
     rows := [row ["/home"; "US"] ["n/a"; "340"]; row ["/about"; "DE"] ["3"; "7"]] |}.

(** An API in realtime mode: the session dimensions are rejected or give
    nothing, the device category gives two rows. *)
Definition by_device : Response :=
  {| dimension_headers := ["deviceCategory"];
     metric_headers := ["activeUsers"];
     rows := [row ["desktop"] ["7"]; row [""] [""]] |}.

Definition no_rows (dims : list string) : Response :=
  {| dimension_headers := dims; metric_headers := ["activeUsers"]; rows := [] |}.

Definition device_only : Environment :=
  {| now_at := fun k => (1762190000000000 + Z.of_nat k)%Z;
     run_realtime_report := fun req =>
       if bool_decide (dimensions req = ["sessionSource"; "sessionMedium"; "sessionCampaign"])
       then Raise ApiError
       else if bool_decide (dimensions req = ["sessionSource"; "sessionMedium"])
       then Ok (no_rows (dimensions req))
       else if bool_decide (dimensions req = ["deviceCategory"])
       then Ok by_device
       else Raise ApiError |}.

Definition by_device_frame : DataFrame :=
  {| columns := ["source"; "medium"; "campaign"; "active_users"; "report_type";
                 "extracted_at"];
     cells :=
       [ [Some (VStr "desktop"); Some (VStr "(not set)"); Some (VStr "(not set)");
          Some (VFloat (FNum false 7 0)); Some (VStr "traffic_sources");
          Some (VTime 1762190000000000)];
         [Some (VStr "(not set)"); Some (VStr "(not set)"); Some (VStr "(not set)");
          Some (VFloat (FNum false 0 0)); Some (VStr "traffic_sources");
          Some (VTime 1762190000000001)] ] |}.

(** A server on which nothing fails, one that cannot be reached, and an
    empty database. *)
Definition reliable : Storage.Server :=
  {| Storage.fault_at := fun _ => false;
     Storage.server_time := fun k => (1762190000000000 + Z.of_nat k)%Z;
     Storage.view_rows := fun _ _ _ => None |}.

Definition unreachable : Storage.Server :=
  {| Storage.fault_at := fun k => (k =? 0)%nat;
     Storage.server_time := fun k => (1762190000000000 + Z.of_nat k)%Z;
     Storage.view_rows := fun _ _ _ => None |}.

Definition empty_world : Storage.world :=
  {| Storage.store := {| Storage.relations := ∅; Storage.indexes := ∅ |};
     Storage.tick := 0;
     Storage.conn := None |}.

Definition the_handler : Storage.handler :=
  {| Storage.tables_to_manage := Gateway.managed |}.

(** A database with the five managed tables, one of which has a row older
    than a day on the sample servers' clock, a recent row and a row without
    timestamp; and one derived view. *)
Definition old_row : Storage.row :=
  [ ("active_users", Some (VFloat (FNum false 5 0)));
    ("report_type", Some (VStr "overview"));
    ("extracted_at", Some (VTime 1762100000000000)) ].

Definition fresh_row : Storage.row :=
  [ ("active_users", Some (VFloat (FNum false 8 0)));
    ("report_type", Some (VStr "overview"));
    ("extracted_at", Some (VTime 1762180000000000)) ].

Definition undated_row : Storage.row :=
  [ ("active_users", Some (VFloat (FNum false 1 0)));
    ("report_type", Some (VStr "overview"));
    ("extracted_at", None) ].

Definition stocked : Storage.database :=
  {| Storage.relations :=
       list_to_map
         [ ("active_users_by_page", Storage.BaseTable []);
           ("events_by_page", Storage.BaseTable []);
           ("conversions", Storage.BaseTable []);
           ("traffic_sources", Storage.BaseTable []);
           ("overview", Storage.BaseTable [old_row; fresh_row; undated_row]);
           ("realtime_dashboard", Storage.View) ];
     Storage.indexes := ∅ |}.

Definition stocked_world : Storage.world :=
  {| Storage.store := stocked; Storage.tick := 0; Storage.conn := None |}.

(** Callables: all of them return, or only the overview extraction
    raises. *)
Definition all_return : Dag.task -> bool := fun _ => true.

Definition overview_raises : Dag.task -> bool := fun t =>
  negb (bool_decide (t = Dag.extract_overview_task)).

End Samples.

(** ** More concrete inputs *)

Module MoreSamples.
Import Client.

(** A response whose second row has one dimension value too many. *)
Definition crowded : Response :=
  {| dimension_headers := ["country"];
     metric_headers := ["activeUsers"];
     rows := [Samples.row ["US"] ["3"]; Samples.row ["DE"; "Berlin"] ["1"]] |}.

(** A server on which the [k]-th operation fails and no other. *)
Definition flaky (k : nat) : Storage.Server :=
  {| Storage.fault_at := fun i => (i =? k)%nat;
     Storage.server_time := fun i => (1762190000000000 + Z.of_nat i)%Z;
     Storage.view_rows := fun _ _ _ => None |}.

(** A server whose connection is lost for good at the [k]-th operation. *)
Definition lost_from (k : nat) : Storage.Server :=
  {| Storage.fault_at := fun i => (k <=? i)%nat;
     Storage.server_time := fun i => (1762190000000000 + Z.of_nat i)%Z;
     Storage.view_rows := fun _ _ _ => None |}.

(** The two rows the dashboard view shows, and a server that answers them
    for it. *)
Definition home_row : Storage.row :=
  [ ("page", Some (VStr "/home")); ("country", Some (VStr "US"));
    ("active_users", Some (VFloat (FNum false 12 0)));
    ("page_views", Some (VFloat (FNum false 340 0)));
    ("extracted_at", Some (VTime 1762189000000000)) ].

Definition about_row : Storage.row :=
  [ ("page", Some (VStr "/about")); ("country", Some (VStr "DE"));
    ("active_users", Some (VFloat (FNum false 3 0)));
    ("page_views", Some (VFloat (FNum false 7 0)));
    ("extracted_at", Some (VTime 1762189500000000)) ].

Definition with_dashboard : Storage.Server :=
  {| Storage.fault_at := fun _ => false;
     Storage.server_time := fun i => (1762190000000000 + Z.of_nat i)%Z;
     Storage.view_rows := fun v _ _ =>
       if String.eqb v "realtime_dashboard" then Some [home_row; about_row]
       else None |}.

(** The stocked database once a handler has been constructed on it. *)
Definition ensured_world : Storage.world :=
  (Storage.init_tables (srv := Samples.reliable) Samples.the_handler
     Samples.stocked_world).2.

(** The service-account key loads. *)
Definition deployed : Tasks.Deployment := {| Tasks.load_credentials := Ok tt |}.

(** A pipeline that has done nothing yet, on a stocked database. *)
Definition fresh_pipeline : Tasks.pipeline :=
  {| Tasks.api := Samples.st0; Tasks.db := Samples.stocked_world |}.

(** The run that takes the extractions in the opposite order. *)
Definition backwards (outcome : Dag.task -> bool) : Dag.log :=
  rev (map (fun t => (t, Dag.final outcome t))
         [ Dag.start_task; Dag.check_creds_task; Dag.extract_overview_task;
           Dag.extract_traffic_sources_task; Dag.extract_conversions_task;
           Dag.extract_events_by_page_task; Dag.extract_active_users_task;
           Dag.create_views_task; Dag.cleanup_task; Dag.check_db_status_task;
           Dag.summary_task; Dag.end_task ]).

(** The credentials check raises, every other callable returns. *)
Definition no_credentials : Dag.task -> bool := fun t =>
  negb (bool_decide (t = Dag.check_creds_task)).

End MoreSamples.
(** * Properties

    ** Field-name canonicalisation *)

Import Snake.

Ltac by_char c :=
  destruct c as [[] [] [] [] [] [] [] []]; vm_compute; congruence.

(** *** Facts about the character classes *)


Lemma lower_not_upper c : is_lower c = true -> is_upper c = false.
Proof. by_char c. Qed.

Lemma upper_not_lower_or_digit c : is_upper c = true -> is_lower_or_digit c = false.
Proof. by_char c. Qed.

Lemma lower_is_lower_or_digit c : is_lower c = true -> is_lower_or_digit c = true.
Proof. by_char c. Qed.

Lemma lower_idem c : lower (lower c) = lower c.
Proof. by_char c. Qed.

Lemma lower_no_upper c : is_upper (lower c) = false.
Proof. by_char c. Qed.

Lemma replace_dot_lower_fixed c :
  replace_dot (lower (replace_dot c)) = lower (replace_dot c).
Proof. by_char c. Qed.

(** *** The scan terminates within the length of the text *)


Lemma span_lower_app s : s = (span_lower s).1 ++ (span_lower s).2.
Proof.
  induction s as [|c tl IH]; simpl; [reflexivity|].
  destruct (is_lower c); simpl; [|reflexivity].
  destruct (span_lower tl) as [run rest]; simpl in *. congruence.
Qed.

Lemma span_lower_run s : Forall (fun c => is_lower c = true) (span_lower s).1.
Proof.
  induction s as [|c tl IH]; simpl; [constructor|].
  destruct (is_lower c) eqn:E; simpl; [|constructor].
  destruct (span_lower tl) as [run rest]; simpl in *. by constructor.
Qed.

Lemma span_lower_stop s :
  match (span_lower s).2 with [] => True | x :: _ => is_lower x = false end.
Proof.
  induction s as [|c tl IH]; simpl; [exact I|].
  destruct (is_lower c) eqn:E; simpl; [|exact E].
  destruct (span_lower tl) as [run rest]; simpl in *. exact IH.
Qed.

Lemma span_lower_length s : length (span_lower s).2 <= length s.
Proof.
  rewrite (span_lower_app s) at 2. rewrite length_app. lia.
Qed.

Lemma match_cap_word_shrinking : shrinking match_cap_word.
Proof.
  intros s rep rest H. destruct s as [|c [|u [|l tl]]]; try discriminate.
  simpl in H. destruct (is_dot c && is_upper u && is_lower l); [|discriminate].
  pose proof (span_lower_length tl) as Hl.
  destruct (span_lower tl) as [run r]. simpl in *.
  injection H as _ <-. lia.
Qed.

Lemma match_hump_shrinking : shrinking match_hump.
Proof.
  intros s rep rest H. destruct s as [|c [|u tl]]; try discriminate.
  simpl in H. destruct (is_lower_or_digit c && is_upper u); [|discriminate].
  injection H as _ <-. simpl. lia.
Qed.

(** Any fuel from the length of the text upwards gives the same result:
    the scan never runs out. *)
Lemma re_sub_fuel_enough m :
  shrinking m ->
  forall fuel s, length s <= fuel -> re_sub_fuel m fuel s = re_sub m s.
Proof.
  intros Hm. unfold re_sub.
  assert (forall f1 f2 s, length s <= f1 -> length s <= f2 ->
            re_sub_fuel m f1 s = re_sub_fuel m f2 s) as H.
  { induction f1 as [|f1 IH]; intros f2 s H1 H2.
    - destruct s; [by destruct f2|simpl in H1; lia].
    - destruct s as [|c tl]; [by destruct f2|].
      destruct f2 as [|f2]; [simpl in H2; lia|]. simpl in *.
      destruct (m (c :: tl)) as [[rep rest]|] eqn:E.
      + apply Hm in E. simpl in E. f_equal. apply IH; lia.
      + f_equal. apply IH; lia. }
  intros fuel s Hf. by apply H.
Qed.

Lemma re_sub_nil m : re_sub m [] = [].
Proof. reflexivity. Qed.

Lemma re_sub_cons m c tl :
  shrinking m ->
  re_sub m (c :: tl) =
    match m (c :: tl) with
    | Some (rep, rest) => rep ++ re_sub m rest
    | None => c :: re_sub m tl
    end.
Proof.
  intros Hm. unfold re_sub at 1. simpl.
  destruct (m (c :: tl)) as [[rep rest]|] eqn:E.
  - f_equal. apply re_sub_fuel_enough; [done|].
    apply Hm in E. simpl in E. lia.
  - f_equal.
Qed.


(** *** The second pass is the hump rule *)

Lemma insert_humps_at_non_lower p s :
  match s with [] => True | u :: _ => hump_before p u = false end ->
  insert_humps p s = re_sub match_hump s.
Proof.
  remember (length s) as n eqn:Hn. revert s p Hn.
  induction n as [n IH] using lt_wf_ind. intros s p -> Hp.
  destruct s as [|c tl]; [reflexivity|].
  rewrite re_sub_cons by apply match_hump_shrinking.
  simpl insert_humps. rewrite Hp. simpl app.
  destruct tl as [|u tl]; [reflexivity|]. simpl match_hump.
  destruct (is_lower_or_digit c && is_upper u) eqn:E.
  - simpl. rewrite E. simpl. apply andb_prop in E as [_ Hu]. do 3 f_equal.
    eapply IH; [|reflexivity|]; [simpl; lia|].
    destruct tl; [exact I|]. simpl.
    by rewrite (upper_not_lower_or_digit _ Hu).
  - f_equal. eapply IH; [|reflexivity|]; [simpl; lia|]. exact E.
Qed.

Lemma re_sub_match_hump s : re_sub match_hump s = insert_humps None s.
Proof. symmetry. apply insert_humps_at_non_lower. by destruct s. Qed.

(** *** The two passes together are the closed-form rule *)

Lemma last_cons_default (x : ascii) r d d' :
  List.last (x :: r) d = List.last (x :: r) d'.
Proof.
  revert x. induction r as [|y r IH]; intros x; [reflexivity|].
  change (List.last (y :: r) d = List.last (y :: r) d'). apply IH.
Qed.

Lemma insert_humps_lower_run l run s :
  is_lower l = true ->
  Forall (fun c => is_lower c = true) run ->
  insert_humps (Some l) (run ++ s) = run ++ insert_humps (Some (List.last run l)) s.
Proof.
  intros Hl Hrun. revert l Hl.
  induction Hrun as [|c run Hc Hrun IH]; intros l Hl; [reflexivity|].
  simpl insert_humps. unfold hump_before.
  rewrite (lower_not_upper _ Hc), andb_false_r. simpl app.
  f_equal. rewrite (IH c Hc). do 3 f_equal.
  destruct run; [reflexivity|apply last_cons_default].
Qed.

Lemma insert_separators_lower_run l run s :
  is_lower l = true ->
  Forall (fun c => is_lower c = true) run ->
  insert_separators (Some l) (run ++ s)
  = run ++ insert_separators (Some (List.last run l)) s.
Proof.
  intros Hl Hrun. revert l Hl.
  induction Hrun as [|c run Hc Hrun IH]; intros l Hl; [reflexivity|].
  simpl insert_separators. unfold separator_before.
  rewrite (lower_not_upper _ Hc). simpl app.
  f_equal. rewrite (IH c Hc). do 3 f_equal.
  destruct run; [reflexivity|apply last_cons_default].
Qed.

Lemma last_lower l run :
  is_lower l = true ->
  Forall (fun c => is_lower c = true) run ->
  is_lower (List.last run l) = true.
Proof.
  intros Hl Hrun. revert l Hl.
  induction Hrun as [|c run Hc Hrun IH]; intros l Hl; [exact Hl|].
  specialize (IH c Hc). destruct run; [exact Hc|].
  by rewrite (last_cons_default _ _ l c).
Qed.

Lemma insert_separators_after_lower l s :
  is_lower l = true ->
  insert_separators (Some l) s = separators_from (Some l) s.
Proof.
  intros Hl. destruct s as [|x r]; [reflexivity|]. simpl.
  by rewrite (lower_is_lower_or_digit _ Hl), andb_true_r.
Qed.

Lemma insert_separators_no_match c tl :
  match_cap_word (c :: tl) = None ->
  insert_separators (Some c) tl = separators_from (Some c) tl.
Proof.
  intros Hm. destruct tl as [|u tl]; [reflexivity|]. simpl.
  destruct tl as [|l tl]; simpl.
  - by rewrite andb_false_r, orb_false_r, andb_comm.
  - simpl in Hm.
    destruct (is_dot c) eqn:Ed, (is_upper u) eqn:Eu, (is_lower l) eqn:El;
      simpl in *; rewrite ?andb_false_r, ?orb_false_r, ?andb_true_r;
      try reflexivity.
    destruct (span_lower tl); discriminate.
Qed.

Lemma two_passes_from p s :
  insert_humps p (re_sub match_cap_word s) = separators_from p s.
Proof.
  remember (length s) as n eqn:Hn. revert s p Hn.
  induction n as [n IH] using lt_wf_ind. intros s p ->.
  destruct s as [|c tl]; [reflexivity|].
  rewrite re_sub_cons by apply match_cap_word_shrinking.
  destruct (match_cap_word (c :: tl)) as [[rep rest]|] eqn:Em.
  - destruct tl as [|u [|l tl]]; try discriminate. simpl in Em.
    destruct (is_dot c) eqn:Ed; [|discriminate].
    destruct (is_upper u) eqn:Eu; [|discriminate].
    destruct (is_lower l) eqn:El; [|discriminate]. simpl in Em.
    pose proof (span_lower_app tl) as Happ.
    pose proof (span_lower_run tl) as Hrun.
    pose proof (span_lower_length tl) as Hlen.
    destruct (span_lower tl) as [run r]. simpl in *.
    injection Em as <- <-.
    simpl. rewrite Ed, Eu, El.
    rewrite (lower_not_upper _ El).
    rewrite (upper_not_lower_or_digit _ Eu).
    rewrite !andb_false_r, orb_true_r. simpl.
    rewrite insert_humps_lower_run by done.
    rewrite Happ at 1.
    rewrite insert_separators_lower_run by done.
    rewrite insert_separators_after_lower by (by apply last_lower).
    by rewrite (IH (length r) ltac:(lia) r _ eq_refl).
  - simpl. f_equal. f_equal.
    rewrite (insert_separators_no_match _ _ Em).
    eapply IH; [|reflexivity]. simpl. lia.
Qed.

Lemma to_snake_chars_rule s :
  to_snake_chars s = map lower (map replace_dot (insert_separators None s)).
Proof.
  unfold to_snake_chars. rewrite re_sub_match_hump, two_passes_from.
  by destruct s.
Qed.



(** *** Idempotence *)

Lemma insert_separators_no_upper p s :
  Forall (fun c => is_upper c = false) s -> insert_separators p s = s.
Proof.
  intros H. revert p. induction H as [|c s Hc Hs IH]; intros p; [reflexivity|].
  simpl. unfold separator_before. rewrite Hc.
  destruct p; simpl; by rewrite IH.
Qed.

Lemma to_snake_chars_idem s :
  to_snake_chars (to_snake_chars s) = to_snake_chars s.
Proof.
  rewrite (to_snake_chars_rule (to_snake_chars s)).
  rewrite insert_separators_no_upper.
  - rewrite (to_snake_chars_rule s). rewrite <- !list_fmap_compose.
    apply list_fmap_ext. intros _ c _. simpl.
    by rewrite replace_dot_lower_fixed, lower_idem.
  - rewrite (to_snake_chars_rule s). apply Forall_fmap, Forall_true.
    intros c. apply lower_no_upper.
Qed.

(** C5. Canonicalisation is idempotent: for every string [x],
    [to_snake (to_snake x) = to_snake x]. *)
Theorem to_snake_idempotent (x : string) : to_snake (to_snake x) = to_snake x.
Proof.
  unfold to_snake. rewrite list_ascii_of_string_of_list_ascii.
  by rewrite to_snake_chars_idem.
Qed.

(** Acronyms, digits and dots; and a capitalised word after a character
    that is neither a letter nor a digit. *)
Example to_snake_acronym :
  to_snake "HTTPResponse.codeA1B" = "http_response_code_a1_b".
Proof. by vm_compute. Qed.

Example to_snake_after_underscore : to_snake "_Foo" = "__foo".
Proof. by vm_compute. Qed.

(** ** The response normaliser and the traffic-source ladder *)

Example py_float_340 : py_float "340" = Some (FNum false 340 0).
Proof. reflexivity. Qed.
Example py_float_frac : py_float " -1_0.25e+3 " = Some (FNum true 1025 1).
Proof. reflexivity. Qed.
Example py_float_point : py_float "." = None.
Proof. reflexivity. Qed.
Example py_float_word : py_float "n/a" = None.
Proof. reflexivity. Qed.

Import Client.

(** *** Dicts *)

Lemma dict_get_set_eq k v d : dict_get k (dict_set k v d) = Some v.
Proof.
  induction d as [|[k' v'] tl IH]; simpl.
  - by rewrite String.eqb_refl.
  - destruct (String.eqb k k') eqn:E; simpl.
    + by rewrite String.eqb_refl.
    + by rewrite E.
Qed.

Lemma dict_get_set_ne k k' v d :
  k <> k' -> dict_get k (dict_set k' v d) = dict_get k d.
Proof.
  intros Hne. induction d as [|[k2 v2] tl IH]; simpl.
  - destruct (String.eqb_spec k k'); [done|reflexivity].
  - destruct (String.eqb_spec k' k2) as [->|Hk]; simpl.
    + destruct (String.eqb_spec k k2); [done|reflexivity].
    + destruct (String.eqb_spec k k2); [reflexivity|exact IH].
Qed.

Lemma dict_get_key k d v : dict_get k d = Some v -> k ∈ map fst d.
Proof.
  induction d as [|[k' v'] tl IH]; simpl; [discriminate|].
  destruct (String.eqb_spec k k') as [->|Hk]; intros H.
  - apply list_elem_of_here.
  - apply list_elem_of_further. by apply IH.
Qed.

(** *** Frames built from dicts *)

Lemma existsb_eqb_elem k (l : list string) :
  existsb (String.eqb k) l = true <-> k ∈ l.
Proof.
  rewrite existsb_exists. split.
  - intros (x & Hin & Heq). apply String.eqb_eq in Heq as ->.
    by apply list_elem_of_In.
  - intros Hin. exists k. split; [by apply list_elem_of_In|apply String.eqb_refl].
Qed.

Lemma add_keys_seen x seen ks : x ∈ seen -> x ∈ add_keys seen ks.
Proof.
  revert seen. induction ks as [|k tl IH]; intros seen Hx; simpl; [done|].
  apply IH. destruct (existsb (String.eqb k) seen); [done|].
  apply elem_of_app. by left.
Qed.

Lemma add_keys_keys x seen ks : x ∈ ks -> x ∈ add_keys seen ks.
Proof.
  revert seen. induction ks as [|k tl IH]; intros seen Hx; simpl.
  - by apply elem_of_nil in Hx.
  - apply elem_of_cons in Hx as [->|Hx]; [|by apply IH].
    apply add_keys_seen.
    destruct (existsb (String.eqb k) seen) eqn:E.
    + by apply existsb_eqb_elem.
    + apply elem_of_app. right. apply list_elem_of_here.
Qed.

Lemma frame_columns_seen x (ds : list dict) seen :
  x ∈ seen -> x ∈ fold_left (fun seen d => add_keys seen (map fst d)) ds seen.
Proof.
  revert seen. induction ds as [|d tl IH]; intros seen Hx; simpl; [done|].
  apply IH. by apply add_keys_seen.
Qed.

Lemma frame_columns_key x (ds : list dict) d seen :
  d ∈ ds -> x ∈ map fst d ->
  x ∈ fold_left (fun seen d => add_keys seen (map fst d)) ds seen.
Proof.
  revert seen. induction ds as [|d' tl IH]; intros seen Hd Hx; simpl.
  - by apply elem_of_nil in Hd.
  - apply elem_of_cons in Hd as [<-|Hd].
    + apply frame_columns_seen. by apply add_keys_keys.
    + by apply IH.
Qed.

Lemma positions_first col j cols :
  col ∈ cols ->
  exists i rest, positions col j cols = (j + i) :: rest /\ cols !! i = Some col.
Proof.
  revert j. induction cols as [|c tl IH]; intros j Hin.
  - by apply elem_of_nil in Hin.
  - simpl. destruct (String.eqb_spec col c) as [->|Hne].
    + exists 0, (positions c (S j) tl). split; [|reflexivity].
      simpl. f_equal. lia.
    + apply elem_of_cons in Hin as [->|Hin]; [done|].
      destruct (IH (S j) Hin) as (i & rest & Hp & Hl).
      exists (S i), rest. split; [|exact Hl].
      simpl. rewrite Hp. f_equal. lia.
Qed.

(** The cell of a frame built from dicts is the entry of the row's dict. *)
Lemma cell_frame_of_dicts ds k d col v :
  ds !! k = Some d -> dict_get col d = Some v ->
  cell (frame_of_dicts ds) k col = Some v.
Proof.
  intros Hk Hget. unfold cell, frame_of_dicts. simpl.
  set (cols := frame_columns ds).
  assert (col ∈ cols) as Hin.
  { eapply (frame_columns_key _ _ d); [by eapply list_elem_of_lookup_2|].
    by eapply dict_get_key. }
  destruct (positions_first col 0 cols Hin) as (i & rest & -> & Hi).
  rewrite list_lookup_fmap, Hk. simpl.
  by rewrite list_lookup_fmap, Hi; simpl; rewrite Hget.
Qed.

Lemma df_len_frame_of_dicts ds : df_len (frame_of_dicts ds) = length ds.
Proof. unfold df_len, frame_of_dicts. simpl. by rewrite length_map. Qed.

(** *** One dict per row, one clock reading per row *)

Section Normaliser.
Context {env : Environment}.

Lemma parse_row_ok dh mh rt row st d st' :
  parse_row dh mh rt row st = (Ok d, st') ->
  st' = {| clock_reads := S (clock_reads st); api_calls := api_calls st |}
  /\ dict_get "report_type" d = Some (VStr rt)
  /\ dict_get "extracted_at" d = Some (VTime (now_at (clock_reads st))).
Proof.
  unfold parse_row, bind, lift, now, ret.
  destruct (set_dimensions dh 0 (dimension_values row) []) as [d1|e]; [|discriminate].
  destruct (set_metrics mh 0 (metric_values row) d1) as [d2|e]; [|discriminate].
  intros [= <- <-]. split; [reflexivity|]. split.
  - rewrite dict_get_set_ne by discriminate. apply dict_get_set_eq.
  - apply dict_get_set_eq.
Qed.

Lemma parse_rows_inv dh mh rt rs st ds st' :
  parse_rows dh mh rt rs st = (Ok ds, st') ->
  length ds = length rs
  /\ st' = {| clock_reads := clock_reads st + length rs; api_calls := api_calls st |}
  /\ forall k row, rs !! k = Some row ->
       exists d, ds !! k = Some d
         /\ parse_row dh mh rt row
              {| clock_reads := clock_reads st + k; api_calls := api_calls st |}
            = (Ok d, {| clock_reads := S (clock_reads st + k);
                        api_calls := api_calls st |}).
Proof.
  revert st ds st'. induction rs as [|row more IH]; intros st ds st'; simpl.
  - unfold ret. intros [= <- <-]. split; [reflexivity|]. split.
    + destruct st; simpl. f_equal. lia.
    + intros k d Hk. discriminate.
  - unfold bind at 1.
    destruct (parse_row dh mh rt row st) as [[d|e] st1] eqn:Erow; [|discriminate].
    pose proof (parse_row_ok _ _ _ _ _ _ _ Erow) as (-> & _ & _).
    unfold bind at 1.
    destruct (parse_rows dh mh rt more _) as [[ds'|e] st2] eqn:Emore; [|discriminate].
    apply IH in Emore as (Hlen & -> & Hall). simpl in *.
    unfold ret. intros [= <- <-]. split; [simpl; lia|]. split.
    + f_equal. lia.
    + intros [|k] row' Hk; simpl in Hk.
      * injection Hk as <-. exists d. split; [reflexivity|].
        rewrite Nat.add_0_r. destruct st; exact Erow.
      * destruct (Hall k row' Hk) as (d' & Hd' & Hrow). exists d'.
        split; [exact Hd'|].
        replace (clock_reads st + S k) with (S (clock_reads st + k)) by lia.
        exact Hrow.
Qed.

Lemma parse_rows_ok dh mh rt rs st ds st' :
  parse_rows dh mh rt rs st = (Ok ds, st') ->
  length ds = length rs
  /\ st' = {| clock_reads := clock_reads st + length rs; api_calls := api_calls st |}
  /\ forall k d, ds !! k = Some d ->
       dict_get "report_type" d = Some (VStr rt)
       /\ dict_get "extracted_at" d = Some (VTime (now_at (clock_reads st + k))).
Proof.
  intros Hp. apply parse_rows_inv in Hp as (Hlen & -> & Hall).
  split; [done|]. split; [done|]. intros k d Hk.
  assert (k < length rs) as Hlt by (rewrite <- Hlen; by eapply lookup_lt_Some).
  destruct (lookup_lt_is_Some_2 rs k Hlt) as [row Hrow].
  destruct (Hall k row Hrow) as (d' & Hd' & Hparse).
  assert (d' = d) as -> by congruence.
  by apply parse_row_ok in Hparse as (_ & ? & ?).
Qed.

(** C1, as the code has it. For a non-empty response that parses without
    error, [_parse_response_to_df] gives exactly one record per response
    row, every record's [report_type] is the caller's constant, and the
    [extracted_at] of the record of row [k] is the clock reading taken while
    that row was processed: one reading per row, in row order, not one per
    response. *)
Theorem parse_one_record_per_row response report_type st df st' :
  rows response <> [] ->
  parse_response_body response report_type st = (Ok df, st') ->
  parse_response_to_df response report_type st = (Ok df, st')
  /\ df_len df = length (rows response)
  /\ clock_reads st' = clock_reads st + length (rows response)
  /\ forall k, k < length (rows response) ->
       cell df k "report_type" = Some (VStr report_type)
       /\ cell df k "extracted_at" = Some (VTime (now_at (clock_reads st + k))).
Proof.
  intros Hne Hbody. split.
  { unfold parse_response_to_df, catch. by rewrite Hbody. }
  unfold parse_response_body in Hbody.
  destruct (rows response) as [|r0 rs] eqn:Erows; [done|].
  unfold bind in Hbody.
  destruct (parse_rows _ _ _ _ st) as [[ds|e] st1] eqn:Eds; [|discriminate].
  apply parse_rows_ok in Eds as (Hlen & -> & Hall).
  unfold ret in Hbody. injection Hbody as <- <-.
  rewrite df_len_frame_of_dicts. split; [done|]. split; [reflexivity|].
  intros k Hk. rewrite <- Hlen in Hk.
  destruct (lookup_lt_is_Some_2 ds k Hk) as [d Hd].
  destruct (Hall k d Hd) as [Hrt Hat].
  split; by eapply cell_frame_of_dicts.
Qed.

End Normaliser.

(** *** Missing and unparseable values *)

Lemma set_dimensions_frame dh i vals d d' k :
  set_dimensions dh i vals d = Ok d' ->
  (forall j, j < length vals -> dh !! (i + j) <> Some k) ->
  dict_get k d' = dict_get k d.
Proof.
  revert i d. induction vals as [|v tl IH]; intros i d; simpl.
  - by intros [= <-].
  - destruct (dh !! i) as [h|] eqn:Eh; [|discriminate].
    intros Hset Hk. rewrite (IH _ _ Hset).
    + apply dict_get_set_ne. intros ->.
      apply (Hk 0); [lia|]. by rewrite Nat.add_0_r.
    + intros j Hj. replace (S i + j) with (i + S j) by lia. apply Hk. lia.
Qed.

Lemma set_dimensions_get dh i vals d d' j v h :
  NoDup dh ->
  set_dimensions dh i vals d = Ok d' ->
  vals !! j = Some v -> dh !! (i + j) = Some h ->
  dict_get h d' = Some (VStr (if String.eqb v "" then not_set else v)).
Proof.
  intros Hnd. revert i d j. induction vals as [|v0 tl IH]; intros i d j; simpl.
  - discriminate.
  - destruct (dh !! i) as [h0|] eqn:Eh; [|discriminate].
    intros Hset Hj Hh. destruct j as [|j]; simpl in Hj.
    + injection Hj as ->. rewrite Nat.add_0_r in Hh.
      assert (h0 = h) as -> by congruence.
      rewrite (set_dimensions_frame _ _ _ _ _ h Hset).
      * apply dict_get_set_eq.
      * intros j' _ Hj'.
        pose proof (NoDup_lookup _ _ _ _ Hnd Eh Hj'). lia.
    + eapply IH; [exact Hset|exact Hj|].
      by replace (S i + j) with (i + S j) by lia.
Qed.

Lemma set_metrics_frame mh i vals d d' k :
  set_metrics mh i vals d = Ok d' ->
  (forall j, j < length vals -> mh !! (i + j) <> Some k) ->
  dict_get k d' = dict_get k d.
Proof.
  revert i d. induction vals as [|v tl IH]; intros i d; simpl.
  - by intros [= <-].
  - destruct (metric_number v) as [x|e]; [|discriminate].
    destruct (mh !! i) as [h|] eqn:Eh; [|discriminate].
    intros Hset Hk. rewrite (IH _ _ Hset).
    + apply dict_get_set_ne. intros ->.
      apply (Hk 0); [lia|]. by rewrite Nat.add_0_r.
    + intros j Hj. replace (S i + j) with (i + S j) by lia. apply Hk. lia.
Qed.

Lemma set_metrics_get mh i vals d d' j v h :
  NoDup mh ->
  set_metrics mh i vals d = Ok d' ->
  vals !! j = Some v -> mh !! (i + j) = Some h ->
  exists x, metric_number v = Ok x /\ dict_get h d' = Some (VFloat x).
Proof.
  intros Hnd. revert i d j. induction vals as [|v0 tl IH]; intros i d j; simpl.
  - discriminate.
  - destruct (metric_number v0) as [x0|e] eqn:Ex; [|discriminate].
    destruct (mh !! i) as [h0|] eqn:Eh; [|discriminate].
    intros Hset Hj Hh. destruct j as [|j]; simpl in Hj.
    + injection Hj as ->. rewrite Nat.add_0_r in Hh.
      assert (h0 = h) as -> by congruence.
      exists x0. split; [exact Ex|].
      rewrite (set_metrics_frame _ _ _ _ _ h Hset).
      * apply dict_get_set_eq.
      * intros j' _ Hj'.
        pose proof (NoDup_lookup _ _ _ _ Hnd Eh Hj'). lia.
    + eapply IH; [exact Hset|exact Hj|].
      by replace (S i + j) with (i + S j) by lia.
Qed.

Lemma set_metrics_unparseable mh i vals d v :
  v ∈ vals -> v <> "" -> py_float v = None ->
  exists e, set_metrics mh i vals d = Raise e.
Proof.
  intros Hin Hne Hnone. revert i d.
  induction vals as [|v0 tl IH]; intros i d; [by apply elem_of_nil in Hin|].
  simpl. apply elem_of_cons in Hin as [<-|Hin].
  - unfold metric_number.
    destruct (String.eqb_spec v ""); [done|]. rewrite Hnone. by eexists.
  - destruct (metric_number v0) as [x|e]; [|by eexists].
    destruct (mh !! i); [|by eexists]. by apply IH.
Qed.

Section MissingValues.
Context {env : Environment}.

Lemma parse_row_unparseable dh mh rt row st v :
  v ∈ metric_values row -> v <> "" -> py_float v = None ->
  exists e st', parse_row dh mh rt row st = (Raise e, st').
Proof.
  intros Hin Hne Hnone. unfold parse_row, bind, lift.
  destruct (set_dimensions dh 0 (dimension_values row) []) as [d|e];
    [|by eexists _, _].
  destruct (set_metrics_unparseable mh 0 _ d v Hin Hne Hnone) as [e ->].
  by eexists _, _.
Qed.

Lemma parse_rows_unparseable dh mh rt rs st row v :
  row ∈ rs -> v ∈ metric_values row -> v <> "" -> py_float v = None ->
  exists e st', parse_rows dh mh rt rs st = (Raise e, st').
Proof.
  intros Hrow Hin Hne Hnone. revert st.
  induction rs as [|r0 more IH]; intros st; [by apply elem_of_nil in Hrow|].
  simpl. unfold bind at 1. apply elem_of_cons in Hrow as [<-|Hrow].
  - destruct (parse_row_unparseable dh mh rt row st v Hin Hne Hnone)
      as (e & st' & ->). by eexists _, _.
  - destruct (parse_row dh mh rt r0 st) as [[d|e] st1]; [|by eexists _, _].
    unfold bind. destruct (IH Hrow st1) as (e & st' & ->). by eexists _, _.
Qed.

Lemma parse_row_values dh mh rt row st d st' :
  NoDup (dh ++ mh ++ ["report_type"; "extracted_at"]) ->
  parse_row dh mh rt row st = (Ok d, st') ->
  (forall i v h, dimension_values row !! i = Some v -> dh !! i = Some h ->
     dict_get h d = Some (VStr (if String.eqb v "" then not_set else v)))
  /\ (forall i v h, metric_values row !! i = Some v -> mh !! i = Some h ->
        exists x, metric_number v = Ok x /\ dict_get h d = Some (VFloat x)).
Proof.
  intros Hnd. apply NoDup_app in Hnd as (Hdh & Hdisj1 & Hnd).
  apply NoDup_app in Hnd as (Hmh & Hdisj2 & _).
  unfold parse_row, bind, lift, now, ret.
  destruct (set_dimensions dh 0 (dimension_values row) []) as [d1|e] eqn:E1;
    [|discriminate].
  destruct (set_metrics mh 0 (metric_values row) d1) as [d2|e] eqn:E2;
    [|discriminate].
  intros [= <- <-]. split.
  - intros i v h Hv Hh.
    assert (h ∈ dh) as Hin by (by eapply list_elem_of_lookup_2).
    specialize (Hdisj1 h Hin). rewrite elem_of_app in Hdisj1.
    rewrite !dict_get_set_ne.
    + rewrite (set_metrics_frame _ _ _ _ _ h E2).
      * by eapply (set_dimensions_get dh 0).
      * intros j _ Hj. apply Hdisj1. left. by eapply list_elem_of_lookup_2.
    + intros ->. apply Hdisj1. right. set_solver.
    + intros ->. apply Hdisj1. right. set_solver.
  - intros i v h Hv Hh.
    assert (h ∈ mh) as Hin by (by eapply list_elem_of_lookup_2).
    specialize (Hdisj2 h Hin).
    destruct (set_metrics_get mh 0 _ _ _ i v h Hmh E2 Hv Hh) as (x & Hx & Hget).
    exists x. split; [exact Hx|].
    rewrite !dict_get_set_ne; [exact Hget| |]; intros ->; apply Hdisj2; set_solver.
Qed.

(** C3, as the code has it. In a response that parses without error (its
    canonical header names being pairwise distinct and different from the
    two trailer fields), an empty dimension value becomes the sentinel
    [(not set)], an empty metric value becomes [0.0], and every other value
    is kept or parsed.  A non-empty metric value that [float] rejects is not
    mapped to [0.0]: it makes the normaliser give up the whole response and
    return the empty frame. *)
Theorem normalise_missing_values response report_type st :
  (forall df st',
     parse_response_body response report_type st = (Ok df, st') ->
     NoDup (map Snake.to_snake (dimension_headers response)
            ++ map Snake.to_snake (metric_headers response)
            ++ ["report_type"; "extracted_at"]) ->
     forall k row, rows response !! k = Some row ->
       (forall i v h,
          dimension_values row !! i = Some v ->
          dimension_headers response !! i = Some h ->
          cell df k (Snake.to_snake h)
          = Some (VStr (if String.eqb v "" then "(not set)" else v)))
       /\ (forall i v h,
             metric_values row !! i = Some v ->
             metric_headers response !! i = Some h ->
             exists x,
               metric_number v = Ok x
               /\ (v = "" -> x = PyFloat.zero)
               /\ cell df k (Snake.to_snake h) = Some (VFloat x)))
  /\ (forall row v,
        row ∈ rows response -> v ∈ metric_values row ->
        v <> "" -> py_float v = None ->
        exists st', parse_response_to_df response report_type st
                    = (Ok empty_frame, st')).
Proof.
  split.
  - intros df st' Hbody Hnd k row Hrow.
    unfold parse_response_body in Hbody.
    destruct (rows response) as [|r0 rs] eqn:Erows; [discriminate|].
    unfold bind in Hbody.
    destruct (parse_rows _ _ _ _ st) as [[ds|e] st1] eqn:Eds; [|discriminate].
    apply parse_rows_inv in Eds as (Hlen & -> & Hall).
    unfold ret in Hbody. injection Hbody as <- <-.
    destruct (Hall k row Hrow) as (d & Hd & Hparse).
    destruct (parse_row_values _ _ _ _ _ _ _ Hnd Hparse) as [Hdim Hmet].
    split.
    + intros i v h Hv Hh. eapply cell_frame_of_dicts; [exact Hd|].
      eapply Hdim; [exact Hv|]. by rewrite list_lookup_fmap, Hh.
    + intros i v h Hv Hh.
      destruct (Hmet i v (Snake.to_snake h) Hv) as (x & Hx & Hget).
      { by rewrite list_lookup_fmap, Hh. }
      exists x. split; [exact Hx|]. split.
      * intros ->. unfold metric_number in Hx. simpl in Hx. congruence.
      * by eapply cell_frame_of_dicts.
  - intros row v Hrow Hin Hne Hnone.
    unfold parse_response_to_df, catch, parse_response_body.
    destruct (rows response) as [|r0 rs] eqn:Erows; [by apply elem_of_nil in Hrow|].
    unfold bind.
    destruct (parse_rows_unparseable
                (map Snake.to_snake (dimension_headers response))
                (map Snake.to_snake (metric_headers response))
                report_type (r0 :: rs) st row v Hrow Hin Hne Hnone)
      as (e & st' & ->).
    by exists st'.
Qed.

End MissingValues.

(** *** The normaliser on concrete responses *)

Example parse_two_pages :
  parse_response_body (env := Samples.ticking) Samples.two_pages
    "active_users_by_page" Samples.st0
  = (Ok Samples.two_pages_frame, {| clock_reads := 2; api_calls := [] |}).
Proof. vm_compute. reflexivity. Qed.

Lemma parse_one_record_per_row_witness :
  cell Samples.two_pages_frame 1 "report_type" = Some (VStr "active_users_by_page")
  /\ cell Samples.two_pages_frame 1 "extracted_at" = Some (VTime 1762190000000001).
Proof.
  refine (proj2 (proj2 (proj2
    (parse_one_record_per_row (env := Samples.ticking) Samples.two_pages
       "active_users_by_page" Samples.st0 Samples.two_pages_frame
       {| clock_reads := 2; api_calls := [] |} _ _))) 1 _).
  - discriminate.
  - vm_compute. reflexivity.
  - vm_compute. lia.
Defined.

(** The two records of one response carry different timestamps when the
    clock advances between the rows. *)
Lemma extracted_at_differs_between_rows :
  exists df st',
    parse_response_to_df (env := Samples.ticking) Samples.two_pages
      "active_users_by_page" Samples.st0 = (Ok df, st')
    /\ df_len df = 2
    /\ cell df 0 "extracted_at" <> cell df 1 "extracted_at".
Proof.
  exists Samples.two_pages_frame, {| clock_reads := 2; api_calls := [] |}.
  split; [by vm_compute|]. split; [reflexivity|]. by vm_compute.
Qed.

Lemma normalise_missing_values_witness :
  cell Samples.two_pages_frame 1 "country" = Some (VStr "(not set)")
  /\ (exists x, metric_number "" = Ok x /\ ("" = "" -> x = PyFloat.zero)
        /\ cell Samples.two_pages_frame 1 "active_users" = Some (VFloat x))
  /\ (exists st', parse_response_to_df (env := Samples.ticking) Samples.bad_metric
                    "active_users_by_page" Samples.st0 = (Ok empty_frame, st')).
Proof.
  pose proof (normalise_missing_values (env := Samples.ticking) Samples.two_pages
                "active_users_by_page" Samples.st0) as [Hvals _].
  pose proof (normalise_missing_values (env := Samples.ticking) Samples.bad_metric
                "active_users_by_page" Samples.st0) as [_ Hbad].
  specialize (Hvals Samples.two_pages_frame {| clock_reads := 2; api_calls := [] |}
                ltac:(vm_compute; reflexivity)
                ltac:(compute_done)
                1 (Samples.row ["/about"; ""] [""; "7"]) eq_refl) as [Hdim Hmet].
  split; [|split].
  - exact (Hdim 1 "" "country" eq_refl eq_refl).
  - exact (Hmet 0 "" "activeUsers" eq_refl eq_refl).
  - apply (Hbad (Samples.row ["/home"; "US"] ["n/a"; "340"]) "n/a").
    + apply list_elem_of_here.
    + apply list_elem_of_here.
    + discriminate.
    + reflexivity.
Defined.

(** An unparseable metric value is not mapped to [0.0] and the other rows
    are not normalised: the whole response is dropped. *)
Lemma unparseable_metric_drops_response :
  exists df st',
    parse_response_to_df (env := Samples.ticking) Samples.bad_metric
      "active_users_by_page" Samples.st0 = (Ok df, st')
    /\ df_len df = 0
    /\ cell df 0 "active_users" <> Some (VFloat PyFloat.zero)
    /\ cell df 1 "country" <> Some (VStr "DE").
Proof.
  exists empty_frame, Samples.st0.
  split; [by vm_compute|]. split; [reflexivity|]. by split.
Qed.

(** ** The traffic-source ladder *)

Import Ladder.

Lemma snake_candidates :
  map (map Snake.to_snake) candidates
  = [ ["session_source"; "session_medium"; "session_campaign"];
      ["session_source"; "session_medium"];
      ["device_category"];
      ["country"] ].
Proof. by vm_compute. Qed.

Lemma candidates_cases dims :
  dims ∈ candidates ->
  dims = ["sessionSource"; "sessionMedium"; "sessionCampaign"]
  \/ dims = ["sessionSource"; "sessionMedium"]
  \/ dims = ["deviceCategory"]
  \/ dims = ["country"].
Proof. unfold candidates. rewrite !elem_of_cons, elem_of_nil. tauto. Qed.

Section LadderFacts.
Context {env : Environment}.

Lemma parse_row_answered dims row st :
  dims ∈ candidates -> row_answers dims row = true ->
  parse_row (map Snake.to_snake dims) ["active_users"] "traffic_sources" row st
  = (Ok (answered_dict (map Snake.to_snake dims) (now_at (clock_reads st)) row),
     {| clock_reads := S (clock_reads st); api_calls := api_calls st |}).
Proof.
  intros Hin Hrow. unfold row_answers in Hrow.
  apply andb_prop in Hrow as [Hlen Hmet]. apply Nat.eqb_eq in Hlen.
  destruct row as [dvs mvs]. simpl in *.
  destruct mvs as [|v [|]]; try discriminate.
  destruct (metric_number v) as [x|] eqn:Ex; [|discriminate].
  unfold parse_row, bind, lift, now, ret, answered_dict, first_metric. simpl.
  apply candidates_cases in Hin as [-> | [-> | [-> | ->]]];
    repeat (destruct dvs as [|? dvs]; try discriminate);
    vm_compute (map Snake.to_snake _); simpl; rewrite Ex; reflexivity.
Qed.

Lemma parse_rows_answered dims rs st :
  dims ∈ candidates ->
  Forall (fun row => row_answers dims row = true) rs ->
  parse_rows (map Snake.to_snake dims) ["active_users"] "traffic_sources" rs st
  = (Ok (imap (fun k row =>
                 answered_dict (map Snake.to_snake dims)
                   (now_at (clock_reads st + k)) row) rs),
     {| clock_reads := clock_reads st + length rs; api_calls := api_calls st |}).
Proof.
  intros Hin Hall. revert st.
  induction Hall as [|row more Hrow Hmore IH]; intros st.
  - simpl. unfold ret. destruct st; simpl. do 2 f_equal. lia.
  - simpl parse_rows. unfold bind at 1.
    rewrite (parse_row_answered dims row st Hin Hrow).
    unfold bind at 1. rewrite IH. unfold ret. simpl.
    f_equal.
    + f_equal. rewrite Nat.add_0_r. f_equal.
      apply imap_ext. intros k r _. simpl. do 2 f_equal. lia.
    + f_equal. lia.
Qed.

End LadderFacts.

(** *** A frame built from dicts that all have the same keys *)

Lemma add_keys_fresh seen ks : NoDup (seen ++ ks) -> add_keys seen ks = seen ++ ks.
Proof.
  revert seen. induction ks as [|k tl IH]; intros seen Hnd; simpl.
  - by rewrite app_nil_r.
  - destruct (existsb (String.eqb k) seen) eqn:E.
    + apply existsb_eqb_elem in E. apply NoDup_app in Hnd as (_ & Hd & _).
      exfalso. apply (Hd k E). apply list_elem_of_here.
    + rewrite IH; rewrite <- app_assoc; [reflexivity|exact Hnd].
Qed.

Lemma add_keys_known seen ks : ks ⊆ seen -> add_keys seen ks = seen.
Proof.
  induction ks as [|k tl IH]; intros Hsub; simpl; [reflexivity|].
  assert (existsb (String.eqb k) seen = true) as ->.
  { apply existsb_eqb_elem. apply Hsub. apply list_elem_of_here. }
  apply IH. intros x Hx. apply Hsub. by apply list_elem_of_further.
Qed.

Lemma frame_columns_same ks (ds : list dict) seen :
  Forall (fun d => map fst d = ks) ds -> ks ⊆ seen ->
  fold_left (fun seen d => add_keys seen (map fst d)) ds seen = seen.
Proof.
  intros Hall Hsub. induction Hall as [|d tl Hd Htl IH]; simpl; [reflexivity|].
  rewrite Hd, add_keys_known by done. exact IH.
Qed.

Lemma dict_get_own_keys (d : dict) :
  NoDup (map fst d) ->
  map (fun c => dict_get c d) (map fst d) = map (fun kv => Some kv.2) d.
Proof.
  induction d as [|[k v] tl IH]; intros Hnd; simpl; [reflexivity|].
  apply NoDup_cons in Hnd as [Hk Hnd]. rewrite String.eqb_refl. f_equal.
  rewrite <- (IH Hnd). apply map_ext_in. intros c Hc.
  destruct (String.eqb_spec c k) as [->|]; [|reflexivity].
  exfalso. apply Hk. by apply list_elem_of_In.
Qed.

Lemma frame_of_same_keys ks (ds : list dict) :
  ds <> [] -> NoDup ks -> Forall (fun d => map fst d = ks) ds ->
  frame_of_dicts ds
  = {| columns := ks; cells := map (fun d => map (fun kv => Some kv.2) d) ds |}.
Proof.
  intros Hne Hnd Hall. unfold frame_of_dicts.
  assert (frame_columns ds = ks) as ->.
  { unfold frame_columns. destruct Hall as [|d tl Hd Htl]; [done|]. simpl.
    rewrite Hd, (add_keys_fresh [] ks) by done. simpl.
    by apply (frame_columns_same ks). }
  f_equal. apply map_ext_in. intros d Hd.
  rewrite Forall_forall in Hall. apply list_elem_of_In in Hd.
  rewrite <- (Hall d Hd). apply dict_get_own_keys. by rewrite (Hall d Hd).
Qed.

Lemma answered_dict_keys dh t row :
  length (dimension_values row) = length dh ->
  map fst (answered_dict dh t row)
  = dh ++ ["active_users"; "report_type"; "extracted_at"].
Proof.
  intros Hlen. unfold answered_dict. rewrite map_app. f_equal.
  apply fst_zip. rewrite length_map. lia.
Qed.

Lemma candidate_columns_NoDup dims :
  dims ∈ candidates ->
  NoDup (map Snake.to_snake dims ++ ["active_users"; "report_type"; "extracted_at"]).
Proof.
  intros Hin. apply candidates_cases in Hin as [-> | [-> | [-> | ->]]];
    compute_done.
Qed.

Section LadderSteps.
Context {env : Environment}.

Lemma parse_answered dims response st :
  dims ∈ candidates -> answers dims response ->
  parse_response_to_df response "traffic_sources" st
  = (Ok {| columns := map Snake.to_snake dims
                      ++ ["active_users"; "report_type"; "extracted_at"];
           cells := imap (fun k row =>
                            map (fun kv : string * value => Some kv.2)
                              (answered_dict (map Snake.to_snake dims)
                                 (now_at (clock_reads st + k)) row))
                         (rows response) |},
     {| clock_reads := clock_reads st + length (rows response);
        api_calls := api_calls st |}).
Proof.
  intros Hin (Hdh & Hmh & Hne & Hall).
  unfold parse_response_to_df, catch, parse_response_body.
  destruct (rows response) as [|r0 rs] eqn:Erows; [done|].
  rewrite Hdh, Hmh. change (map Snake.to_snake ["activeUsers"]) with ["active_users"].
  unfold bind. rewrite (parse_rows_answered dims (r0 :: rs) st Hin Hall).
  unfold ret. f_equal. f_equal.
  rewrite (frame_of_same_keys
             (map Snake.to_snake dims ++ ["active_users"; "report_type"; "extracted_at"])).
  - f_equal. by rewrite fmap_imap.
  - discriminate.
  - by apply candidate_columns_NoDup.
  - apply Forall_lookup. intros k d Hk.
    apply list_lookup_imap_Some in Hk as (row & Hrow & ->).
    apply answered_dict_keys. rewrite length_map.
    rewrite Forall_lookup in Hall. specialize (Hall k row Hrow).
    unfold row_answers in Hall. apply andb_prop in Hall as [Hlen _].
    by apply Nat.eqb_eq in Hlen.
Qed.

Lemma try_candidate_skip dims st :
  failed_or_empty (run_realtime_report (traffic_request dims)) ->
  try_candidate dims st
  = (Ok None, {| clock_reads := clock_reads st;
                 api_calls := api_calls st ++ [traffic_request dims] |}).
Proof.
  intros Hfail. unfold try_candidate, catch, bind at 1, call_api.
  destruct (run_realtime_report (traffic_request dims)) as [response|e];
    simpl in Hfail; [|reflexivity].
  unfold bind, parse_response_to_df, catch, parse_response_body.
  by rewrite Hfail.
Qed.

Lemma try_candidate_hit dims response st :
  dims ∈ candidates ->
  run_realtime_report (traffic_request dims) = Ok response ->
  answers dims response ->
  try_candidate dims st
  = (Ok (Some (traffic_frame (clock_reads st) (rows response))),
     {| clock_reads := clock_reads st + length (rows response);
        api_calls := api_calls st ++ [traffic_request dims] |}).
Proof.
  intros Hin Hapi Hans. unfold try_candidate, catch, bind at 1, call_api.
  rewrite Hapi. unfold bind at 1.
  rewrite (parse_answered dims response _ Hin Hans). simpl clock_reads.
  simpl api_calls.
  destruct Hans as (_ & _ & Hne & Hall).
  unfold traffic_frame.
  remember (imap _ (rows response)) as got eqn:Hgot.
  assert (Forall (fun row => exists dvs v x,
                    row = {| dimension_values := dvs; metric_values := [v] |}
                    /\ length dvs = length dims /\ metric_number v = Ok x)
            (rows response)) as Hshape.
  { eapply Forall_impl; [exact Hall|]. intros [dvs mvs] Hrow.
    unfold row_answers in Hrow. simpl in Hrow.
    apply andb_prop in Hrow as [Hlen Hmet]. apply Nat.eqb_eq in Hlen.
    destruct mvs as [|v [|]]; try discriminate.
    destruct (metric_number v) as [x|] eqn:Ex; [|discriminate].
    by exists dvs, v, x. }
  clear Hall.
  assert (forall cols, cols <> [] ->
            df_empty {| columns := cols; cells := got |} = false) as Hnonempty.
  { intros [|c cols] Hcols; [done|]. unfold df_empty. simpl. subst got.
    destruct (rows response); [done|reflexivity]. }
  apply candidates_cases in Hin as [-> | [-> | [-> | ->]]];
    vm_compute (map Snake.to_snake _) in Hgot;
    vm_compute (map Snake.to_snake _);
    rewrite Hnonempty by (simpl; discriminate);
    unfold bind, lift, ret; simpl;
    rewrite Hgot, ?fmap_imap; do 4 f_equal;
    apply imap_ext; intros k row Hk;
    rewrite Forall_lookup in Hshape;
    destruct (Hshape k row Hk) as (dvs & v & x & -> & Hlen & Hx);
    repeat (destruct dvs as [|? dvs]; try discriminate);
    unfold traffic_record, dimension_or_not_set, answered_dict;
    simpl; unfold first_metric; simpl; rewrite Hx; reflexivity.
Qed.

Lemma traffic_loop_skip pre post st :
  (forall dims, dims ∈ pre ->
     failed_or_empty (run_realtime_report (traffic_request dims))) ->
  traffic_loop (pre ++ post) st
  = traffic_loop post
      {| clock_reads := clock_reads st;
         api_calls := api_calls st ++ map traffic_request pre |}.
Proof.
  revert st. induction pre as [|dims pre IH]; intros st Hfail; simpl.
  - rewrite app_nil_r. by destruct st.
  - unfold bind. rewrite try_candidate_skip.
    + rewrite IH.
      * simpl. by rewrite <- app_assoc.
      * intros d Hd. apply Hfail. by apply list_elem_of_further.
    + apply Hfail. apply list_elem_of_here.
Qed.

Lemma traffic_loop_hit dims post st df st' :
  try_candidate dims st = (Ok (Some df), st') ->
  traffic_loop (dims :: post) st = (Ok df, st').
Proof. intros Htry. simpl. unfold bind. by rewrite Htry. Qed.

Lemma traffic_frame_cells reads rs k row :
  rs !! k = Some row ->
  cell (traffic_frame reads rs) k "source" = Some (dimension_or_not_set row 0)
  /\ cell (traffic_frame reads rs) k "medium" = Some (dimension_or_not_set row 1)
  /\ cell (traffic_frame reads rs) k "campaign" = Some (dimension_or_not_set row 2).
Proof.
  intros Hk. unfold cell, traffic_frame. simpl.
  rewrite list_lookup_imap, Hk. simpl. done.
Qed.

(** C2. [get_realtime_traffic_sources] asks the API for the candidates in
    the order source-medium-campaign, source-medium, device category,
    country.  It stops at the first candidate whose query succeeds with
    non-empty rows: the requests sent are exactly those up to that
    candidate, and the result has the canonical columns, the candidate's
    dimensions in the places of source, medium and campaign and the sentinel
    [(not set)] for those it lacks.  If only the device-category candidate
    succeeds, every record has the (normalised) device category as source
    and [(not set)] as medium and campaign.  If every candidate fails or has
    no rows, the result is the empty frame. *)
Theorem traffic_sources_ladder st :
  (forall i dims response,
     candidates !! i = Some dims ->
     (forall j earlier, j < i -> candidates !! j = Some earlier ->
        failed_or_empty (run_realtime_report (traffic_request earlier))) ->
     run_realtime_report (traffic_request dims) = Ok response ->
     answers dims response ->
     get_realtime_traffic_sources st
     = (Ok (traffic_frame (clock_reads st) (rows response)),
        {| clock_reads := clock_reads st + length (rows response);
           api_calls := api_calls st
                        ++ map traffic_request (take (S i) candidates) |}))
  /\ (forall response,
        failed_or_empty (run_realtime_report
          (traffic_request ["sessionSource"; "sessionMedium"; "sessionCampaign"])) ->
        failed_or_empty (run_realtime_report
          (traffic_request ["sessionSource"; "sessionMedium"])) ->
        run_realtime_report (traffic_request ["deviceCategory"]) = Ok response ->
        answers ["deviceCategory"] response ->
        exists df st',
          get_realtime_traffic_sources st = (Ok df, st')
          /\ df_len df = length (rows response)
          /\ forall k row, rows response !! k = Some row ->
               exists category,
                 dimension_values row = [category]
                 /\ cell df k "source"
                    = Some (VStr (if String.eqb category "" then "(not set)"
                                  else category))
                 /\ cell df k "medium" = Some (VStr "(not set)")
                 /\ cell df k "campaign" = Some (VStr "(not set)"))
  /\ ((forall dims, dims ∈ candidates ->
         failed_or_empty (run_realtime_report (traffic_request dims))) ->
      get_realtime_traffic_sources st
      = (Ok empty_frame,
         {| clock_reads := clock_reads st;
            api_calls := api_calls st ++ map traffic_request candidates |})).
Proof.
  assert (forall i dims response,
     candidates !! i = Some dims ->
     (forall j earlier, j < i -> candidates !! j = Some earlier ->
        failed_or_empty (run_realtime_report (traffic_request earlier))) ->
     run_realtime_report (traffic_request dims) = Ok response ->
     answers dims response ->
     get_realtime_traffic_sources st
     = (Ok (traffic_frame (clock_reads st) (rows response)),
        {| clock_reads := clock_reads st + length (rows response);
           api_calls := api_calls st
                        ++ map traffic_request (take (S i) candidates) |}))
    as Hfirst.
  { intros i dims response Hi Hearlier Hapi Hans.
    unfold get_realtime_traffic_sources.
    rewrite <- (take_drop_middle candidates i dims Hi) at 1.
    rewrite traffic_loop_skip.
    - erewrite traffic_loop_hit.
      + reflexivity.
      + rewrite (try_candidate_hit dims response); [|by eapply list_elem_of_lookup_2|done..].
        cbn [clock_reads api_calls]. do 2 f_equal.
        rewrite (take_S_r _ _ _ Hi), map_app, app_assoc. reflexivity.
    - intros d Hd. apply list_elem_of_lookup in Hd as [j Hj].
      pose proof (lookup_lt_Some _ _ _ Hj) as Hlt.
      rewrite length_take in Hlt.
      rewrite lookup_take_lt in Hj by lia.
      apply (Hearlier j d); [lia|done]. }
  split; [exact Hfirst|]. split.
  - intros response H0 H1 Hapi Hans.
    eexists _, _. split; [|split].
    + apply (Hfirst 2 ["deviceCategory"] response); [reflexivity| |done..].
      intros [|[|j]] earlier Hj Hl; [| |lia]; injection Hl as <-; done.
    + unfold df_len, traffic_frame. simpl. by rewrite length_imap.
    + intros k row Hk.
      destruct Hans as (_ & _ & _ & Hall). rewrite Forall_lookup in Hall.
      specialize (Hall k row Hk). unfold row_answers in Hall.
      apply andb_prop in Hall as [Hlen _]. apply Nat.eqb_eq in Hlen.
      destruct (dimension_values row) as [|category [|]] eqn:Edv; try discriminate.
      exists category. split; [reflexivity|].
      destruct (traffic_frame_cells (clock_reads st) _ k row Hk) as (-> & -> & ->).
      unfold dimension_or_not_set. rewrite Edv. done.
  - intros Hfail. unfold get_realtime_traffic_sources.
    rewrite <- (app_nil_r candidates) at 1.
    by rewrite traffic_loop_skip.
Qed.

End LadderSteps.

(** *** The ladder on a concrete API *)

Example traffic_sources_by_device :
  get_realtime_traffic_sources (env := Samples.device_only) Samples.st0
  = (Ok Samples.by_device_frame,
     {| clock_reads := 2;
        api_calls := [ traffic_request ["sessionSource"; "sessionMedium"; "sessionCampaign"];
                       traffic_request ["sessionSource"; "sessionMedium"];
                       traffic_request ["deviceCategory"] ] |}).
Proof. by vm_compute. Qed.

Lemma by_device_answers : answers ["deviceCategory"] Samples.by_device.
Proof.
  split; [reflexivity|]. split; [reflexivity|]. split; [discriminate|].
  repeat constructor.
Defined.

Lemma traffic_sources_ladder_witness :
  get_realtime_traffic_sources (env := Samples.device_only) Samples.st0
  = (Ok (traffic_frame (env := Samples.device_only) 0 (rows Samples.by_device)),
     {| clock_reads := 2;
        api_calls := map traffic_request (take 3 candidates) |})
  /\ (exists df st',
        get_realtime_traffic_sources (env := Samples.device_only) Samples.st0
        = (Ok df, st')
        /\ df_len df = 2
        /\ forall k row, rows Samples.by_device !! k = Some row ->
             exists category,
               dimension_values row = [category]
               /\ cell df k "source"
                  = Some (VStr (if String.eqb category "" then "(not set)"
                                else category))
               /\ cell df k "medium" = Some (VStr "(not set)")
               /\ cell df k "campaign" = Some (VStr "(not set)"))
  /\ get_realtime_traffic_sources (env := Samples.ticking) Samples.st0
     = (Ok empty_frame,
        {| clock_reads := 0; api_calls := map traffic_request candidates |}).
Proof.
  split; [|split].
  - apply (proj1 (traffic_sources_ladder (env := Samples.device_only) Samples.st0)
             2 ["deviceCategory"] Samples.by_device).
    + reflexivity.
    + intros [|[|j]] earlier Hj Hl; [| |lia]; injection Hl as <-; vm_compute; done.
    + reflexivity.
    + exact by_device_answers.
  - apply (proj1 (proj2 (traffic_sources_ladder (env := Samples.device_only)
                           Samples.st0)) Samples.by_device).
    + exact I.
    + reflexivity.
    + reflexivity.
    + exact by_device_answers.
  - apply (proj2 (proj2 (traffic_sources_ladder (env := Samples.ticking)
                           Samples.st0))).
    intros dims _. exact I.
Defined.
(** ** The storage gateway *)

Import Storage Gateway.

(** *** Properties kept by every step *)

Lemma keeps_ret {A} (P : world -> Prop) (a : A) : keeps P (ret a).
Proof. intros w r w' HP [= <- <-]. exact HP. Qed.

Lemma keeps_raise {A} (P : world -> Prop) e : keeps P (raise (A := A) e).
Proof. intros w r w' HP [= <- <-]. exact HP. Qed.

Lemma keeps_bind {A B} (P : world -> Prop) (m : DB A) (k : A -> DB B) :
  keeps P m -> (forall a, keeps P (k a)) -> keeps P (bind m k).
Proof.
  intros Hm Hk w r w' HP. unfold bind.
  destruct (m w) as [[a|e] w1] eqn:Em.
  - intros Hka. eapply Hk; [|exact Hka]. eapply Hm; [exact HP|exact Em].
  - intros [= <- <-]. eapply Hm; [exact HP|exact Em].
Qed.

Lemma keeps_catch {A} (P : world -> Prop) (m : DB A) (h : exn -> DB A) :
  keeps P m -> (forall e, keeps P (h e)) -> keeps P (catch m h).
Proof.
  intros Hm Hh w r w' HP. unfold catch.
  destruct (m w) as [[a|e] w1] eqn:Em.
  - intros [= <- <-]. eapply Hm; [exact HP|exact Em].
  - intros Hhe. eapply Hh; [|exact Hhe]. eapply Hm; [exact HP|exact Em].
Qed.

Lemma keeps_finally {A} (P : world -> Prop) (m : DB A) (cleanup : world -> world) :
  keeps P m -> (forall w, P w -> P (cleanup w)) -> keeps P (finally m cleanup).
Proof.
  intros Hm Hc w r w' HP. unfold finally.
  destruct (m w) as [r1 w1] eqn:Em. intros [= <- <-].
  apply Hc. eapply Hm; [exact HP|exact Em].
Qed.

(** Inversion of a successful sequence. *)
Lemma bind_ok {S A B} (m : Effect S A) (k : A -> Effect S B) st b st' :
  bind m k st = (Ok b, st') ->
  exists a st1, m st = (Ok a, st1) /\ k a st1 = (Ok b, st').
Proof.
  unfold bind. destruct (m st) as [[a|e] st1]; [|discriminate].
  intros Hk. by exists a, st1.
Qed.

(** *** Databases that only grow *)

Lemma grows_refl db : grows db db.
Proof. split; [tauto|reflexivity]. Qed.

Lemma grows_trans db1 db2 db3 : grows db1 db2 -> grows db2 db3 -> grows db1 db3.
Proof.
  intros [H1 I1] [H2 I2]. split; [|by etransitivity].
  intros t Ht Hs. auto.
Qed.

Lemma run_statement_grows now stmt db a db' :
  handler_statement stmt ->
  run_statement now stmt db = Some (a, db') ->
  grows db db'.
Proof.
  intros Hstmt Hrun. destruct stmt; simpl in *.
  - destruct (relations db !! table) eqn:E; injection Hrun as <- <-;
      [apply grows_refl|].
    split; simpl; [|reflexivity]. intros t _ Ht.
    destruct (decide (table = t)) as [->|Hne];
      [by rewrite lookup_insert_eq|by rewrite lookup_insert_ne].
  - destruct (bool_decide (index ∈ indexes db));
      [injection Hrun as <- <-; apply grows_refl|].
    destruct (relations db !! table) as [[rs|]|]; try discriminate.
    injection Hrun as <- <-. split; simpl; [tauto|apply union_subseteq_r].
  - injection Hrun as <- <-. apply grows_refl.
  - destruct (relations db !! table) as [[rs|]|]; try discriminate.
    injection Hrun as <- <-. apply grows_refl.
  - destruct (relations db !! table) as [[rs|]|]; try discriminate.
    injection Hrun as <- <-. apply grows_refl.
  - destruct (relations db !! table) as [[rs|]|] eqn:E; try discriminate.
    injection Hrun as <- <-. split; simpl; [|reflexivity]. intros t _ Ht.
    destruct (decide (table = t)) as [->|Hne];
      [by rewrite lookup_insert_eq|by rewrite lookup_insert_ne].
  - destruct (relations db !! table) as [[rs|]|] eqn:E; try discriminate.
    injection Hrun as <- <-. split; simpl; [|reflexivity]. intros t _ Ht.
    destruct (decide (table = t)) as [->|Hne];
      [by rewrite lookup_insert_eq|by rewrite lookup_insert_ne].
  - destruct (relations db !! view) as [[rs|]|] eqn:E; try discriminate;
      injection Hrun as <- <-; [|apply grows_refl].
    split; simpl; [|reflexivity]. intros t Hview Ht.
    rewrite lookup_delete_ne; [exact Ht|]. intros ->. by apply Hview.
  - destruct (relations db !! view) eqn:E; [discriminate|].
    destruct (forallb _ sources); [|discriminate].
    injection Hrun as <- <-. split; simpl; [|reflexivity]. intros t _ Ht.
    destruct (decide (view = t)) as [->|Hne];
      [by rewrite lookup_insert_eq|by rewrite lookup_insert_ne].
Qed.

Lemma schema_ensured_grows db db' :
  schema_ensured db -> grows db db' -> schema_ensured db'.
Proof.
  intros Hs [Hrel Hidx] t Ht. destruct (Hs t Ht) as [Hr Hi]. split.
  - apply Hrel; [|exact Hr]. intros Hv. revert Ht Hv.
    unfold managed, view_names. rewrite !elem_of_cons, !elem_of_nil.
    intros [->|[->|[->|[->|[->|[]]]]]] [?|[?|[]]]; discriminate.
  - by apply Hidx.
Qed.

Section GrownFrom.
Context {srv : Server} (db0 : database).

Lemma keeps_get_connection : keeps (grown_from db0) get_connection.
Proof.
  intros w r w' [Hs Hc]. unfold get_connection.
  destruct (fault_at (tick w)); intros [= <- <-]; split; simpl; try done.
  intros s [= <-]. exact Hs.
Qed.

Lemma keeps_execute stmt :
  handler_statement stmt -> keeps (grown_from db0) (execute stmt).
Proof.
  intros Hstmt w r w' [Hs Hc]. unfold execute.
  destruct (conn w) as [s|] eqn:Ec; [|intros [= <- <-]; split; [done|by rewrite Ec]].
  specialize (Hc s eq_refl).
  destruct (aborted s || fault_at (tick w)).
  { intros [= <- <-]. split; simpl; [done|]. by intros s' [= <-]. }
  destruct (run_statement (txn_now s) stmt (working s)) as [[a db']|] eqn:Er.
  - intros [= <- <-]. split; simpl; [done|]. intros s' [= <-]. simpl.
    eapply grows_trans; [exact Hc|]. by eapply run_statement_grows.
  - intros [= <- <-]. split; simpl; [done|]. by intros s' [= <-].
Qed.

Lemma keeps_commit : keeps (grown_from db0) commit.
Proof.
  intros w r w' [Hs Hc]. unfold commit.
  destruct (conn w) as [s|] eqn:Ec; [|intros [= <- <-]; split; [done|by rewrite Ec]].
  specialize (Hc s eq_refl).
  destruct (fault_at (tick w)); intros [= <- <-].
  - split; simpl; [done|]. by intros s' [= <-].
  - destruct (aborted s); split; simpl; try done; by intros s' [= <-].
Qed.

Lemma keeps_rollback : keeps (grown_from db0) rollback.
Proof.
  intros w r w' [Hs Hc]. unfold rollback.
  destruct (conn w) as [s|] eqn:Ec; [|intros [= <- <-]; split; [done|by rewrite Ec]].
  specialize (Hc s eq_refl).
  destruct (fault_at (tick w)); intros [= <- <-]; split; simpl; try done;
    by intros s' [= <-].
Qed.

Lemma grown_from_close w : grown_from db0 w -> grown_from db0 (close w).
Proof. intros [Hs Hc]. split; simpl; done. Qed.

Lemma keeps_read_latest table limit : keeps (grown_from db0) (read_latest table limit).
Proof.
  intros w r w' [Hs Hc]. unfold read_latest.
  destruct (fault_at (tick w)); [by intros [= <- <-]|].
  destruct (selected table _ (store w)) as [rs|];
    [destruct (limit <? 0)%Z|]; by intros [= <- <-].
Qed.

Lemma keeps_execute_all stmts :
  Forall handler_statement stmts -> keeps (grown_from db0) (execute_all stmts).
Proof.
  induction 1 as [|stmt more Hstmt Hmore IH]; simpl.
  - apply keeps_ret.
  - apply keeps_bind; [by apply keeps_execute|intros _; exact IH].
Qed.

Lemma keeps_count_tables tables stats :
  keeps (grown_from db0) (count_tables tables stats).
Proof.
  revert stats. induction tables as [|t more IH]; intros stats; simpl.
  - apply keeps_ret.
  - apply keeps_bind; [by apply keeps_execute|].
    intros [| | |]; first [apply IH|apply keeps_raise].
Qed.

Lemma keeps_summarise tables stats :
  keeps (grown_from db0) (summarise tables stats).
Proof.
  revert stats. induction tables as [|t more IH]; intros stats; simpl.
  - apply keeps_ret.
  - apply keeps_bind; [|intros entry; apply IH].
    apply keeps_catch; [|intros e; apply keeps_ret].
    apply keeps_bind; [by apply keeps_execute|].
    intros [| | |]; first [apply keeps_ret|apply keeps_raise].
Qed.

Lemma keeps_delete_old hours tables :
  keeps (grown_from db0) (delete_old hours tables).
Proof.
  induction tables as [|t more IH]; simpl.
  - apply keeps_ret.
  - apply keeps_bind; [|intros _; exact IH].
    apply keeps_catch; [|intros e; apply keeps_ret].
    apply keeps_bind; [by apply keeps_execute|intros _; apply keeps_ret].
Qed.

Ltac keeps_step :=
  first
    [ apply keeps_ret
    | apply keeps_raise
    | apply keeps_get_connection
    | apply keeps_commit
    | apply keeps_rollback
    | apply keeps_read_latest
    | apply keeps_count_tables
    | apply keeps_summarise
    | apply keeps_delete_old
    | apply grown_from_close
    | apply keeps_execute; simpl; unfold view_names; set_solver
    | apply keeps_bind; [|intros ?]
    | apply keeps_catch; [|intros ?]
    | apply keeps_finally ].

Lemma keeps_init_tables self : keeps (grown_from db0) (init_tables self).
Proof.
  unfold init_tables. repeat keeps_step.
  apply keeps_execute_all. apply Forall_fmap, Forall_true. by intros t.
Qed.

Lemma keeps_to_sql df table : keeps (grown_from db0) (to_sql df table).
Proof.
  unfold to_sql. repeat keeps_step.
Qed.

Lemma keeps_insert_dataframe self df table :
  keeps (grown_from db0) (insert_dataframe self df table).
Proof.
  unfold insert_dataframe. destruct (df_empty df); repeat keeps_step.
Qed.

Lemma keeps_get_latest_data self table limit :
  keeps (grown_from db0) (get_latest_data self table limit).
Proof. unfold get_latest_data. repeat keeps_step. Qed.

Lemma keeps_check_database_status self :
  keeps (grown_from db0) (check_database_status self).
Proof.
  unfold check_database_status. repeat keeps_step.
  match goal with a : answer |- _ => destruct a end; repeat keeps_step.
Qed.

Lemma keeps_get_summary_stats self :
  keeps (grown_from db0) (get_summary_stats self).
Proof. unfold get_summary_stats. repeat keeps_step. Qed.

Lemma keeps_cleanup_old_data self hours :
  keeps (grown_from db0) (cleanup_old_data self hours).
Proof. unfold cleanup_old_data. repeat keeps_step. Qed.

Lemma keeps_create_aggregated_views self :
  keeps (grown_from db0) (create_aggregated_views self).
Proof. unfold create_aggregated_views. repeat keeps_step. Qed.

Lemma grown_from_after self op w :
  grown_from db0 w -> grown_from db0 (after self op w).
Proof.
  intros Hw. destruct op; simpl.
  - destruct (insert_dataframe self df table_name w) as [r w'] eqn:E.
    by eapply keeps_insert_dataframe.
  - destruct (get_latest_data self table_name limit w) as [r w'] eqn:E.
    by eapply keeps_get_latest_data.
  - destruct (check_database_status self w) as [r w'] eqn:E.
    by eapply keeps_check_database_status.
  - destruct (get_summary_stats self w) as [r w'] eqn:E.
    by eapply keeps_get_summary_stats.
  - destruct (cleanup_old_data self hours_to_keep w) as [r w'] eqn:E.
    by eapply keeps_cleanup_old_data.
  - destruct (create_aggregated_views self w) as [r w'] eqn:E.
    by eapply keeps_create_aggregated_views.
  - destruct (init_tables self w) as [r w'] eqn:E.
    by eapply keeps_init_tables.
Qed.

Lemma grown_from_after_all self ops w :
  grown_from db0 w -> grown_from db0 (after_all self ops w).
Proof.
  unfold after_all. revert w. induction ops as [|op more IH]; intros w Hw; simpl.
  - exact Hw.
  - apply IH. by apply grown_from_after.
Qed.

End GrownFrom.

(** *** Schema initialisation *)

Section Schema.
Context {srv : Server}.

Lemma execute_ok stmt w a w' :
  execute stmt w = (Ok a, w') ->
  exists s db',
    conn w = Some s /\ aborted s = false /\ fault_at (tick w) = false
    /\ run_statement (txn_now s) stmt (working s) = Some (a, db')
    /\ w' = {| store := store w; tick := S (tick w);
               conn := Some {| working := db'; aborted := false;
                               txn_now := txn_now s |} |}.
Proof.
  unfold execute. destruct (conn w) as [s|]; [|discriminate].
  destruct (aborted s) eqn:Ea; [discriminate|].
  destruct (fault_at (tick w)) eqn:Ef; [discriminate|]. simpl.
  destruct (run_statement (txn_now s) stmt (working s)) as [[a' db']|] eqn:Er;
    [|discriminate].
  intros [= <- <-]. by exists s, db'.
Qed.

Lemma execute_all_ok stmts w s w' :
  execute_all stmts w = (Ok tt, w') ->
  conn w = Some s -> aborted s = false ->
  exists db',
    run_all (txn_now s) stmts (working s) = Some db'
    /\ w' = {| store := store w; tick := tick w + length stmts;
               conn := Some {| working := db'; aborted := false;
                               txn_now := txn_now s |} |}.
Proof.
  revert w s. induction stmts as [|stmt more IH]; intros w s; simpl.
  - intros [= <-] Hc Ha. exists (working s). split; [reflexivity|].
    destruct w as [st tk c]; simpl in *. rewrite Nat.add_0_r. subst c.
    destruct s; simpl in *. by subst.
  - intros Hrun Hc Ha. apply bind_ok in Hrun as (a & w1 & Hex & Hmore).
    apply execute_ok in Hex as (s1 & db1 & Hc1 & _ & _ & Hr & ->).
    assert (s1 = s) as -> by congruence. rewrite Hr.
    destruct (IH _ _ Hmore eq_refl eq_refl) as (db' & Hrun' & ->). simpl in *.
    exists db'. split; [exact Hrun'|]. do 2 f_equal. lia.
Qed.

Lemma transaction_ok stmts w w' :
  transaction stmts w = (Ok tt, w') ->
  exists db',
    run_all (server_time (tick w)) stmts (store w) = Some db'
    /\ store w' = db' /\ conn w' = None.
Proof.
  unfold transaction, bind at 1, get_connection.
  destruct (fault_at (tick w)); [discriminate|].
  set (s := {| working := store w; aborted := false;
               txn_now := server_time (tick w) |}).
  set (w1 := {| store := store w; tick := S (tick w); conn := Some s |}).
  unfold finally, catch, bind.
  destruct (execute_all stmts w1) as [[[]|e1] w2] eqn:Eall.
  - destruct (execute_all_ok stmts w1 s w2 Eall eq_refl eq_refl)
      as (db' & Hrun & ->).
    unfold commit. simpl. destruct (fault_at _); simpl.
    + unfold rollback. simpl. destruct (fault_at _); discriminate.
    + intros [= <-]. by exists db'.
  - destruct (rollback w2) as [[[]|e2] w3]; discriminate.
Qed.

(** The body of [init_tables] is its statements, one after the other, and a
    commit. *)
Lemma init_tables_statements self w :
  init_tables self w = transaction (init_statements self) w.
Proof.
  unfold init_tables, transaction, init_statements, managed, bind, finally, catch.
  simpl. destruct (get_connection w) as [[[]|e] w0]; [|done].
  unfold bind.
  repeat (match goal with
          | |- context [execute ?stmt ?w1] =>
              destruct (execute stmt w1) as [[?|?] ?]; [|reflexivity]
          end).
  reflexivity.
Qed.

Lemma init_tables_ok self w w' :
  init_tables self w = (Ok tt, w') ->
  exists db',
    run_all (server_time (tick w)) (init_statements self) (store w) = Some db'
    /\ store w' = db' /\ conn w' = None.
Proof. rewrite init_tables_statements. apply transaction_ok. Qed.

End Schema.

Lemma run_all_creates now stmts db db' :
  Forall is_create stmts ->
  run_all now stmts db = Some db' ->
  (forall t, is_Some (relations db !! t) -> is_Some (relations db' !! t))
  /\ indexes db ⊆ indexes db'
  /\ (forall t, CreateTableIfNotExists t ∈ stmts -> is_Some (relations db' !! t))
  /\ (forall i t, CreateIndexIfNotExists i t ∈ stmts -> i ∈ indexes db').
Proof.
  intros Hall. revert db. induction Hall as [|stmt more Hstmt Hmore IH]; intros db.
  - simpl. intros [= <-]. split; [tauto|]. split; [reflexivity|].
    split; intros; by apply elem_of_nil in H.
  - simpl. destruct (run_statement now stmt db) as [[a db1]|] eqn:Er; [|discriminate].
    intros Hrun. destruct (IH _ Hrun) as (Hrel & Hidx & Htab & Hind).
    assert ((forall t, is_Some (relations db !! t) -> is_Some (relations db1 !! t))
            /\ indexes db ⊆ indexes db1
            /\ (forall t, stmt = CreateTableIfNotExists t -> is_Some (relations db1 !! t))
            /\ (forall i t, stmt = CreateIndexIfNotExists i t -> i ∈ indexes db1))
      as (Hrel1 & Hidx1 & Htab1 & Hind1).
    { destruct stmt; try done; simpl in Er.
      - destruct (relations db !! table) eqn:E; injection Er as <- <-.
        + split; [tauto|]. split; [reflexivity|]. split; [|done].
          intros t [= <-]. by rewrite E.
        + simpl. split; [|split; [reflexivity|split; [|done]]].
          * intros t Ht. destruct (decide (table = t)) as [->|Hne];
              [by rewrite lookup_insert_eq|by rewrite lookup_insert_ne].
          * intros t [= <-]. by rewrite lookup_insert_eq.
      - destruct (bool_decide (index ∈ indexes db)) eqn:Eb.
        + injection Er as <- <-. split; [tauto|]. split; [reflexivity|].
          split; [done|]. intros i t [= <- <-]. by apply bool_decide_eq_true in Eb.
        + destruct (relations db !! table) as [[rs|]|]; try discriminate.
          injection Er as <- <-. simpl. split; [tauto|].
          split; [apply union_subseteq_r|]. split; [done|].
          intros i t [= <- <-]. apply elem_of_union. left. by apply elem_of_singleton. }
    split; [auto|]. split; [by etransitivity|]. split.
    + intros t Ht. apply elem_of_cons in Ht as [<-|Ht]; [|by apply Htab].
      apply Hrel. by apply Htab1.
    + intros i t Ht. apply elem_of_cons in Ht as [<-|Ht]; [|by eapply Hind].
      apply Hidx. by eapply Hind1.
Qed.

Lemma init_statements_ensure now self db db' :
  tables_to_manage self = managed ->
  run_all now (init_statements self) db = Some db' ->
  schema_ensured db'.
Proof.
  intros Hself Hrun.
  apply run_all_creates in Hrun as (_ & _ & Htab & Hind).
  - intros t Ht. split.
    + apply Htab. unfold init_statements. apply elem_of_app. left.
      by apply list_elem_of_fmap_2.
    + apply (Hind _ t). unfold init_statements. apply elem_of_app. right.
      rewrite Hself. by apply (list_elem_of_fmap_2 (fun t => CreateIndexIfNotExists (index_name t) t)).
  - unfold init_statements. apply Forall_app. split; apply Forall_fmap, Forall_true; by intros t.
Qed.

Section Construction.
Context {srv : Server}.

(** C10. A handler exists only once [init_tables] has run to its end on it:
    [__init__] returns the handler after a successful [init_tables], and
    raises what [init_tables] raises.  After construction the schema of the
    five managed tables is ensured (each name is a relation with its index
    on [extracted_at]), and it stays ensured through every sequence of
    gateway operations, so each operation starts on an ensured schema. *)
Theorem handler_schema_ensured (w : world) :
  (forall self w',
     PostgreSQLHandler w = (Ok self, w') ->
     tables_to_manage self = managed
     /\ init_tables self w = (Ok tt, w')
     /\ schema_ensured (store w')
     /\ forall ops, schema_ensured (store (after_all self ops w')))
  /\ (forall e w',
        init_tables {| tables_to_manage := managed |} w = (Raise e, w') ->
        PostgreSQLHandler w = (Raise e, w')).
Proof.
  split.
  - intros self w' Hnew. unfold PostgreSQLHandler in Hnew.
    apply bind_ok in Hnew as ([] & w1 & Hinit & Hret).
    injection Hret as <- <-.
    split; [reflexivity|]. split; [exact Hinit|].
    destruct (init_tables_ok _ _ _ Hinit) as (db' & Hrun & Hstore & Hconn).
    assert (schema_ensured (store w1)) as Hens.
    { rewrite Hstore. eapply init_statements_ensure; [|exact Hrun]. reflexivity. }
    split; [exact Hens|]. intros ops.
    eapply schema_ensured_grows; [exact Hens|].
    apply (grown_from_after_all (store w1)).
    split; [apply grows_refl|]. intros s Hs. congruence.
  - intros e w' Hinit. unfold PostgreSQLHandler, bind. fold managed.
    by rewrite Hinit.
Qed.

End Construction.

(** *** Construction on concrete servers *)

Lemma handler_schema_ensured_witness :
  schema_ensured (store (PostgreSQLHandler (srv := Samples.reliable) Samples.empty_world).2)
  /\ schema_ensured
       (store (after_all (srv := Samples.reliable) Samples.the_handler
                 [CleanupOldData 24; CreateAggregatedViews]
                 (PostgreSQLHandler (srv := Samples.reliable) Samples.empty_world).2))
  /\ PostgreSQLHandler (srv := Samples.unreachable) Samples.empty_world
     = (Raise OperationalError,
        {| store := store Samples.empty_world; tick := 1; conn := None |}).
Proof.
  pose proof (proj1 (handler_schema_ensured (srv := Samples.reliable)
                       Samples.empty_world)
                Samples.the_handler
                (PostgreSQLHandler (srv := Samples.reliable) Samples.empty_world).2
                ltac:(vm_compute; reflexivity)) as (_ & _ & Hens & Hops).
  split; [exact Hens|]. split; [apply Hops|].
  apply (proj2 (handler_schema_ensured (srv := Samples.unreachable)
                  Samples.empty_world)).
  vm_compute. reflexivity.
Defined.

(** *** Retention *)

Lemma within_window_idem cutoff rs :
  within_window cutoff (within_window cutoff rs) = within_window cutoff rs.
Proof.
  unfold within_window. induction rs as [|r rs IH]; simpl; [reflexivity|].
  destruct (negb (older_than cutoff r)) eqn:E; simpl; [|exact IH].
  by rewrite E, IH.
Qed.






Section Retention.
Context {srv : Server}.

Section Purged.
Variables (hours cutoff : Z) (db0 : database).





End Purged.



End Retention.

(** *** The status check *)



Section Status.
Context {srv : Server}.



Lemma execute_keeps_store stmt db0 :
  keeps (fun w => store w = db0) (execute stmt).
Proof.
  intros w r w' Hs. unfold execute.
  destruct (conn w) as [s|]; [|by intros [= <- <-]].
  destruct (aborted s || fault_at (tick w)); [by intros [= <- <-]|].
  destruct (run_statement _ _ _) as [[a db']|]; by intros [= <- <-].
Qed.

Lemma count_tables_keeps_store tables stats db0 :
  keeps (fun w => store w = db0) (count_tables tables stats).
Proof.
  revert stats. induction tables as [|t more IH]; intros stats; simpl.
  - apply keeps_ret.
  - apply keeps_bind; [apply execute_keeps_store|].
    intros [| | |]; first [apply IH|apply keeps_raise].
Qed.


End Status.

(** *** The gateway on concrete databases *)

Example cleanup_overview :
  relations (store (cleanup_old_data (srv := Samples.reliable) Samples.the_handler 24
                      Samples.stocked_world).2) !! "overview"
  = Some (BaseTable [Samples.fresh_row; Samples.undated_row]).
Proof. vm_compute. reflexivity. Qed.



Example status_of_stocked :
  exists w',
    check_database_status (srv := Samples.reliable) Samples.the_handler
      Samples.stocked_world
    = (Ok (StatusOk (list_to_map
                       [ ("active_users_by_page", 0); ("events_by_page", 0);
                         ("conversions", 0); ("traffic_sources", 0);
                         ("overview", 3) ])), w').
Proof. eexists. vm_compute. reflexivity. Qed.

(** ** The orchestrator *)

Import Dag.

Lemma final_eq outcome t :
  final outcome t
  = evaluate (trigger_rule_of t) (map (final outcome) (upstream t))
      (returns outcome t).
Proof. destruct t; reflexivity. Qed.

Lemma state_in_cons t st s t' :
  state_in ((t, st) :: s) t' = if decide (t = t') then Some st else state_in s t'.
Proof.
  unfold state_in. simpl. destruct (decide (t = t')) as [->|Hne].
  - by rewrite bool_decide_eq_true_2.
  - by rewrite bool_decide_eq_false_2.
Qed.

Lemma states_in_consistent outcome s ts ups :
  consistent outcome s ->
  states_in s ts = Some ups ->
  ups = map (final outcome) ts.
Proof.
  intros Hs. revert ups. induction ts as [|t more IH]; intros ups; simpl.
  - by intros [= <-].
  - destruct (state_in s t) as [st|] eqn:Et; [|discriminate].
    destruct (states_in s more) as [sts|]; [|discriminate].
    intros [= <-]. f_equal; [by apply Hs|by apply IH].
Qed.

Lemma step_consistent outcome s s' :
  step outcome s s' -> consistent outcome s -> consistent outcome s'.
Proof.
  intros [s0 t ups Hnew Hups] Hs t' st'. rewrite state_in_cons.
  destruct (decide (t = t')) as [<-|Hne]; [|apply Hs].
  intros [= <-]. rewrite (states_in_consistent _ _ _ _ Hs Hups).
  symmetry. apply final_eq.
Qed.

Lemma steps_consistent outcome s :
  rtc (step outcome) [] s -> consistent outcome s.
Proof.
  intros Hrun. apply (rtc_ind_r (R := step outcome) (consistent outcome) []); [| |exact Hrun].
  - intros t st. discriminate.
  - intros s1 s2 _ Hstep IH. by eapply step_consistent.
Qed.

(** In a run every task ends in the state [final] gives it. *)
Lemma run_final outcome s t :
  run outcome s -> state_in s t = Some (final outcome t).
Proof.
  intros [Hsteps Hall]. destruct (Hall t) as [st Hst].
  rewrite Hst. f_equal. by eapply steps_consistent.
Qed.

(** The scheduler can always complete a run. *)
Lemma scheduled_run outcome : run outcome (scheduled outcome).
Proof.
  split.
  - unfold scheduled, schedule. cbv [map rev app].
    repeat (eapply rtc_r;
            [|match goal with
              | |- step _ _ ((?t, _) :: _) =>
                  rewrite (final_eq outcome t);
                  apply (step_task outcome _ t); reflexivity
              end]).
    apply rtc_refl.
  - intros t. unfold scheduled. by destruct t; eexists.
Qed.

(** C9, as the code has it. In every run: if at least one of the five
    extraction tasks succeeded and none of them failed, the view rebuild is
    run (trigger rule [none_failed_min_one_success]); if one of them failed,
    the view rebuild is not run but marked [upstream_failed], whatever the
    other four did; and the cleanup is run unconditionally (trigger rule
    [all_done]). *)
Theorem rebuild_and_cleanup_triggers (outcome : task -> bool) (s : log) :
  run outcome s ->
  ((exists e, e ∈ extractions /\ state_in s e = Some success) ->
   (forall e, e ∈ extractions -> state_in s e <> Some failed) ->
   executed (state_in s create_views_task) = true)
  /\ ((exists e, e ∈ extractions /\ state_in s e = Some failed) ->
      state_in s create_views_task = Some upstream_failed
      /\ executed (state_in s create_views_task) = false)
  /\ executed (state_in s cleanup_task) = true.
Proof.
  intros Hrun.
  assert (forall t, state_in s t = Some (final outcome t)) as Hfinal
    by (intros t; by apply run_final).
  rewrite !Hfinal.
  assert (forall P : task -> Prop,
            (forall e, e ∈ extractions -> P e)
            <-> P extract_active_users_task /\ P extract_events_by_page_task
                /\ P extract_conversions_task /\ P extract_traffic_sources_task
                /\ P extract_overview_task) as Hforall.
  { intros P. unfold extractions. split.
    - intros H. repeat split; apply H; rewrite !elem_of_cons; tauto.
    - intros (H1 & H2 & H3 & H4 & H5) e He.
      rewrite !elem_of_cons, elem_of_nil in He.
      destruct He as [-> | [-> | [-> | [-> | [-> | []]]]]]; assumption. }
  assert (forall P : task -> Prop,
            (exists e, e ∈ extractions /\ P e)
            <-> P extract_active_users_task \/ P extract_events_by_page_task
                \/ P extract_conversions_task \/ P extract_traffic_sources_task
                \/ P extract_overview_task) as Hexists.
  { intros P. unfold extractions. split.
    - intros (e & He & HP). rewrite !elem_of_cons, elem_of_nil in He.
      destruct He as [-> | [-> | [-> | [-> | [-> | []]]]]]; tauto.
    - intros [H | [H | [H | [H | H]]]]; eexists; (split; [|exact H]);
        rewrite !elem_of_cons; tauto. }
  split; [|split].
  - intros Hone Hnone. apply Hexists in Hone.
    rewrite (Hforall (fun e => state_in s e <> Some failed)) in Hnone.
    rewrite !Hfinal in Hone, Hnone. revert Hone Hnone.
    unfold final, evaluate, returns. simpl.
    destruct (outcome check_creds_task), (outcome extract_active_users_task),
      (outcome extract_events_by_page_task), (outcome extract_conversions_task),
      (outcome extract_traffic_sources_task), (outcome extract_overview_task),
      (outcome create_views_task); simpl; intros Hone Hnone;
      first [reflexivity | exfalso; intuition congruence].
  - intros Hone. apply Hexists in Hone. rewrite !Hfinal in Hone. revert Hone.
    unfold final, evaluate, returns. simpl.
    destruct (outcome check_creds_task), (outcome extract_active_users_task),
      (outcome extract_events_by_page_task), (outcome extract_conversions_task),
      (outcome extract_traffic_sources_task), (outcome extract_overview_task),
      (outcome create_views_task); simpl; intros Hone;
      first [by split | exfalso; intuition congruence].
  - unfold final, evaluate. simpl. by destruct (outcome cleanup_task).
Qed.

(** *** Concrete runs *)

Lemma rebuild_and_cleanup_triggers_witness :
  executed (state_in (scheduled Samples.all_return) create_views_task) = true
  /\ (state_in (scheduled Samples.overview_raises) create_views_task
      = Some upstream_failed
      /\ executed (state_in (scheduled Samples.overview_raises) create_views_task)
         = false)
  /\ executed (state_in (scheduled Samples.overview_raises) cleanup_task) = true.
Proof.
  split; [|split].
  - apply (proj1 (rebuild_and_cleanup_triggers Samples.all_return
                    (scheduled Samples.all_return)
                    (scheduled_run Samples.all_return))).
    + exists extract_active_users_task. split; [apply list_elem_of_here|reflexivity].
    + intros e He. unfold extractions in He.
      rewrite !elem_of_cons, elem_of_nil in He.
      destruct He as [-> | [-> | [-> | [-> | [-> | []]]]]]; discriminate.
  - apply (proj1 (proj2 (rebuild_and_cleanup_triggers Samples.overview_raises
                           (scheduled Samples.overview_raises)
                           (scheduled_run Samples.overview_raises)))).
    exists extract_overview_task. split; [|reflexivity].
    unfold extractions. rewrite !elem_of_cons. tauto.
  - apply (proj2 (proj2 (rebuild_and_cleanup_triggers Samples.overview_raises
                           (scheduled Samples.overview_raises)
                           (scheduled_run Samples.overview_raises)))).
Defined.

(** A run in which four extractions succeed and one fails: the view rebuild
    is not run. *)
Lemma rebuild_not_run_after_a_failed_extraction :
  run Samples.overview_raises (scheduled Samples.overview_raises)
  /\ state_in (scheduled Samples.overview_raises) extract_active_users_task
     = Some success
  /\ state_in (scheduled Samples.overview_raises) extract_overview_task
     = Some failed
  /\ executed (state_in (scheduled Samples.overview_raises) create_views_task)
     = false.
Proof. split; [apply scheduled_run|]. by vm_compute. Qed.

(** * Further properties

    ** The canonical names *)

Lemma lower_replace_dot_not_dot c : lower (replace_dot c) <> "."%char.
Proof. by_char c. Qed.

(** A canonical name has no ASCII capital and no dot. *)
Theorem to_snake_alphabet (name : string) :
  Forall (fun c => is_upper c = false /\ c <> "."%char)
    (list_ascii_of_string (to_snake name)).
Proof.
  unfold to_snake. rewrite list_ascii_of_string_of_list_ascii, to_snake_chars_rule.
  rewrite <- list_fmap_compose. apply Forall_fmap, Forall_true. intros c. simpl.
  split; [apply lower_no_upper|apply lower_replace_dot_not_dot].
Qed.

(** A name without capital letter and without dot is already canonical. *)
Theorem to_snake_fixed_point (name : string) :
  Forall (fun c => lower c = c /\ c <> "."%char) (list_ascii_of_string name) ->
  to_snake name = name.
Proof.
  intros Hname. unfold to_snake. rewrite to_snake_chars_rule.
  rewrite insert_separators_no_upper.
  - rewrite <- list_fmap_compose.
    rewrite <- (string_of_list_ascii_of_string name) at 2. f_equal.
    rewrite <- (list_fmap_id (list_ascii_of_string name)) at 2.
    apply Forall_fmap_ext_1. eapply Forall_impl; [exact Hname|].
    intros c [Hlow Hdot]. simpl.
    assert (replace_dot c = c) as ->; [|exact Hlow].
    revert Hdot. by_char c.
  - eapply Forall_impl; [exact Hname|]. intros c [Hlow _].
    rewrite <- Hlow. apply lower_no_upper.
Qed.

Lemma to_snake_fixed_point_witness : to_snake "event_name2" = "event_name2".
Proof.
  apply to_snake_fixed_point. simpl.
  repeat (constructor; [split; [reflexivity|discriminate]|]). constructor.
Defined.

Lemma insert_separators_only_underscores p s :
  List.filter (fun c => negb (Ascii.eqb c "_" || Ascii.eqb c "."))
    (insert_separators p s)
  = List.filter (fun c => negb (Ascii.eqb c "_" || Ascii.eqb c ".")) s.
Proof.
  revert p. induction s as [|u tl IH]; intros p; [reflexivity|].
  simpl insert_separators.
  destruct (separator_before p u (head tl)); simpl; rewrite IH; reflexivity.
Qed.

Lemma lower_replace_dot_underscore c :
  Ascii.eqb (lower (replace_dot c)) "_" = Ascii.eqb c "_" || Ascii.eqb c ".".
Proof. by_char c. Qed.

Lemma canonical_letters l :
  List.filter (fun c => negb (Ascii.eqb c "_")) (map lower (map replace_dot l))
  = map lower
      (List.filter (fun c => negb (Ascii.eqb c "_" || Ascii.eqb c ".")) l).
Proof.
  induction l as [|c l IH]; [reflexivity|]. simpl.
  rewrite lower_replace_dot_underscore.
  destruct (Ascii.eqb c "_") eqn:Eu; simpl; [exact IH|].
  destruct (Ascii.eqb c ".") eqn:Ed; simpl; [exact IH|].
  rewrite IH. f_equal. unfold replace_dot.
  apply Ascii.eqb_neq in Ed.
  destruct (Nat.eqb_spec (nat_of_ascii c) 46) as [E|]; [|reflexivity].
  exfalso. apply Ed. rewrite <- (ascii_nat_embedding c), E. reflexivity.
Qed.

(** [to_snake] loses and reorders nothing: without its underscores, the
    canonical name is the lowercased name without its dots and
    underscores. *)
Theorem to_snake_keeps_letters (name : string) :
  List.filter (fun c => negb (Ascii.eqb c "_"))
    (list_ascii_of_string (to_snake name))
  = map lower
      (List.filter (fun c => negb (Ascii.eqb c "_" || Ascii.eqb c "."))
         (list_ascii_of_string name)).
Proof.
  unfold to_snake. rewrite list_ascii_of_string_of_list_ascii, to_snake_chars_rule.
  by rewrite canonical_letters, insert_separators_only_underscores.
Qed.

(** ** The normaliser on arbitrary and on complete responses *)

Import Reports.

Section NormaliserMore.
Context {env : Environment}.

Lemma parse_row_calls dh mh rt row st r st' :
  parse_row dh mh rt row st = (r, st') -> api_calls st' = api_calls st.
Proof.
  unfold parse_row, bind, lift, now, ret.
  destruct (set_dimensions dh 0 (dimension_values row) []) as [d1|e];
    [|by intros [= <- <-]].
  destruct (set_metrics mh 0 (metric_values row) d1) as [d2|e];
    by intros [= <- <-].
Qed.

Lemma parse_rows_calls dh mh rt rs st r st' :
  parse_rows dh mh rt rs st = (r, st') -> api_calls st' = api_calls st.
Proof.
  revert st r st'. induction rs as [|row more IH]; intros st r st'; simpl.
  - by intros [= <- <-].
  - unfold bind at 1.
    destruct (parse_row dh mh rt row st) as [[d|e] st1] eqn:Erow.
    + apply parse_row_calls in Erow. unfold bind at 1.
      destruct (parse_rows dh mh rt more st1) as [[ds|e] st2] eqn:Emore;
        apply IH in Emore; intros [= <- <-]; congruence.
    + apply parse_row_calls in Erow. by intros [= <- <-].
Qed.

Lemma parse_response_outcome (response : Response)
    (report_type : string) (st : state) :
  exists df st',
    parse_response_to_df response report_type st = (Ok df, st')
    /\ api_calls st' = api_calls st
    /\ (df = empty_frame
        \/ (df_len df = length (rows response)
            /\ clock_reads st' = clock_reads st + length (rows response))).
Proof.
  unfold parse_response_to_df, catch.
  destruct (parse_response_body response report_type st) as [[df|e] st1] eqn:Eb.
  - exists df, st1. split; [reflexivity|].
    unfold parse_response_body in Eb.
    destruct (rows response) as [|r0 rs] eqn:Erows.
    + injection Eb as <- <-. split; [reflexivity|by left].
    + unfold bind in Eb.
      destruct (parse_rows _ _ _ _ st) as [[ds|e] st2] eqn:Eds; [|discriminate].
      injection Eb as <- <-. split; [by eapply parse_rows_calls|]. right.
      apply parse_rows_ok in Eds as (Hlen & -> & _).
      by rewrite df_len_frame_of_dicts.
  - exists empty_frame, st1. split; [reflexivity|]. split; [|by left].
    unfold parse_response_body in Eb.
    destruct (rows response) as [|r0 rs]; [discriminate|].
    unfold bind in Eb.
    destruct (parse_rows _ _ _ _ st) as [[ds|e'] st2] eqn:Eds; [discriminate|].
    injection Eb as <- <-. by eapply parse_rows_calls.
Qed.

(** [_parse_response_to_df] never raises and sends nothing to the API; the
    frame it returns is empty, or has one row per response row, each read
    at its own clock reading. *)
Theorem parse_response_all_or_nothing (response : Response)
    (report_type : string) (st : state) :
  exists df st',
    parse_response_to_df response report_type st = (Ok df, st')
    /\ api_calls st' = api_calls st
    /\ (df = empty_frame
        \/ (df_len df = length (rows response)
            /\ clock_reads st' = clock_reads st + length (rows response))).
Proof. apply parse_response_outcome. Qed.

Lemma parse_rows_raise dh mh rt rs row st :
  row ∈ rs ->
  (forall st0, exists e st1, parse_row dh mh rt row st0 = (Raise e, st1)) ->
  exists e st', parse_rows dh mh rt rs st = (Raise e, st').
Proof.
  intros Hrow Hraise. revert st.
  induction rs as [|r0 more IH]; intros st; [by apply elem_of_nil in Hrow|].
  simpl. unfold bind at 1. apply elem_of_cons in Hrow as [<-|Hrow].
  - destruct (Hraise st) as (e & st1 & ->). by eexists _, _.
  - destruct (parse_row dh mh rt r0 st) as [[d|e] st1]; [|by eexists _, _].
    unfold bind. destruct (IH Hrow st1) as (e & st' & ->). by eexists _, _.
Qed.

Lemma set_dimensions_overflow dh i vals d :
  length dh - i < length vals -> set_dimensions dh i vals d = Raise IndexError.
Proof.
  revert i d. induction vals as [|v tl IH]; intros i d Hlen; simpl in *; [lia|].
  destruct (dh !! i) as [h|] eqn:Eh; [|reflexivity].
  apply lookup_lt_Some in Eh. apply IH. lia.
Qed.

Lemma set_metrics_overflow mh i vals d :
  length mh - i < length vals -> exists e, set_metrics mh i vals d = Raise e.
Proof.
  revert i d. induction vals as [|v tl IH]; intros i d Hlen; simpl in *; [lia|].
  destruct (metric_number v) as [x|e]; [|by eexists].
  destruct (mh !! i) as [h|] eqn:Eh; [|by eexists].
  apply lookup_lt_Some in Eh. apply IH. lia.
Qed.

(** A row with more values than the response has headers makes the
    normaliser give up the whole response. *)
Theorem parse_row_with_too_many_values (response : Response)
    (report_type : string) (st : state) (row : Row) :
  row ∈ rows response ->
  length (dimension_headers response) < length (dimension_values row)
  \/ length (metric_headers response) < length (metric_values row) ->
  exists st',
    parse_response_to_df response report_type st = (Ok empty_frame, st').
Proof.
  intros Hrow Hmany. unfold parse_response_to_df, catch, parse_response_body.
  destruct (rows response) as [|r0 rs] eqn:Erows; [by apply elem_of_nil in Hrow|].
  unfold bind.
  destruct (parse_rows_raise (map Snake.to_snake (dimension_headers response))
              (map Snake.to_snake (metric_headers response)) report_type
              (r0 :: rs) row st Hrow) as (e & st' & ->); [|by exists st'].
  intros st0. unfold parse_row, bind, lift.
  destruct Hmany as [Hd|Hm].
  - rewrite set_dimensions_overflow by (rewrite length_map; lia).
    by eexists _, _.
  - destruct (set_dimensions _ 0 (dimension_values row) []) as [d|e];
      [|by eexists _, _].
    destruct (set_metrics_overflow (map Snake.to_snake (metric_headers response))
                0 (metric_values row) d) as [e ->]; [rewrite length_map; lia|].
    by eexists _, _.
Qed.

End NormaliserMore.

(** *** Complete responses *)

Lemma dict_set_fresh k v (d : dict) :
  k ∉ map fst d -> dict_set k v d = d ++ [(k, v)].
Proof.
  induction d as [|[k' v'] tl IH]; intros Hk; simpl; [reflexivity|].
  simpl in Hk. apply not_elem_of_cons in Hk as [Hne Hk].
  destruct (String.eqb_spec k k'); [done|]. by rewrite IH.
Qed.

Lemma set_dimensions_fresh dh i vals (d : dict) :
  NoDup (map fst d ++ drop i dh) ->
  length vals <= length (drop i dh) ->
  set_dimensions dh i vals d
  = Ok (d ++ zip (drop i dh) (map dimension_cell vals)).
Proof.
  revert i d. induction vals as [|v tl IH]; intros i d Hnd Hlen; simpl.
  - destruct (drop i dh); simpl; by rewrite app_nil_r.
  - destruct (dh !! i) as [h|] eqn:Eh.
    + rewrite (drop_S _ _ _ Eh) in Hnd, Hlen |- *. simpl in Hlen.
      rewrite dict_set_fresh.
      * rewrite IH.
        -- simpl. by rewrite <- app_assoc.
        -- rewrite map_app. simpl. by rewrite <- app_assoc.
        -- lia.
      * apply NoDup_app in Hnd as (_ & Hdisj & _). intros Hin.
        apply (Hdisj h Hin). apply list_elem_of_here.
    + apply lookup_ge_None in Eh. rewrite length_drop in Hlen. simpl in Hlen. lia.
Qed.

Lemma set_metrics_fresh mh i vals (d : dict) :
  NoDup (map fst d ++ drop i mh) ->
  length vals <= length (drop i mh) ->
  Forall (fun v => exists x, metric_number v = Ok x) vals ->
  set_metrics mh i vals d
  = Ok (d ++ zip (drop i mh) (map metric_cell vals)).
Proof.
  intros Hnd Hlen Hall. revert i d Hnd Hlen.
  induction Hall as [|v tl [x Hx] Htl IH]; intros i d Hnd Hlen; simpl.
  - destruct (drop i mh); simpl; by rewrite app_nil_r.
  - rewrite Hx. destruct (mh !! i) as [h|] eqn:Eh.
    + rewrite (drop_S _ _ _ Eh) in Hnd, Hlen |- *. simpl in Hlen.
      rewrite dict_set_fresh.
      * rewrite IH.
        -- simpl. unfold metric_cell at 2. rewrite Hx. by rewrite <- app_assoc.
        -- rewrite map_app. simpl. by rewrite <- app_assoc.
        -- lia.
      * apply NoDup_app in Hnd as (_ & Hdisj & _). intros Hin.
        apply (Hdisj h Hin). apply list_elem_of_here.
    + apply lookup_ge_None in Eh. rewrite length_drop in Hlen. simpl in Hlen. lia.
Qed.

Section Complete.
Context {env : Environment}.

Lemma parse_row_complete dh mh rt row st :
  NoDup (dh ++ mh ++ ["report_type"; "extracted_at"]) ->
  length (dimension_values row) = length dh ->
  length (metric_values row) = length mh ->
  Forall (fun v => exists x, metric_number v = Ok x) (metric_values row) ->
  parse_row dh mh rt row st
  = (Ok (normal_dict dh mh rt (now_at (clock_reads st)) row),
     {| clock_reads := S (clock_reads st); api_calls := api_calls st |}).
Proof.
  intros Hnd Hd Hm Hall. unfold parse_row, bind, lift, now, ret.
  pose proof Hnd as Hnd0.
  apply NoDup_app in Hnd as (Hdh & Hdisj1 & Hnd).
  apply NoDup_app in Hnd as (Hmh & Hdisj2 & Htr).
  rewrite (set_dimensions_fresh dh 0 _ []); [|by rewrite drop_0|rewrite drop_0; lia].
  rewrite drop_0. simpl app.
  assert (map fst (zip dh (map dimension_cell (dimension_values row))) = dh) as Hk1.
  { apply fst_zip. rewrite length_map. lia. }
  rewrite (set_metrics_fresh mh 0); [| |rewrite drop_0; lia|exact Hall].
  2:{ rewrite drop_0, Hk1. apply NoDup_app. split; [done|]. split; [|done].
      intros x Hx Hx'. apply (Hdisj1 x Hx). apply elem_of_app. by left. }
  rewrite drop_0.
  assert (map fst (zip mh (map metric_cell (metric_values row))) = mh) as Hk2.
  { apply fst_zip. rewrite length_map. lia. }
  rewrite (dict_set_fresh "report_type").
  2:{ rewrite map_app, Hk1, Hk2. intros Hin. apply elem_of_app in Hin as [Hin|Hin].
      - apply (Hdisj1 _ Hin). rewrite elem_of_app, !elem_of_cons. tauto.
      - apply (Hdisj2 _ Hin). rewrite !elem_of_cons. tauto. }
  rewrite (dict_set_fresh "extracted_at").
  2:{ rewrite !map_app, Hk1, Hk2. simpl. intros Hin.
      apply elem_of_app in Hin as [Hin|Hin].
      - apply elem_of_app in Hin as [Hin|Hin].
        + apply (Hdisj1 _ Hin). rewrite elem_of_app, !elem_of_cons. tauto.
        + apply (Hdisj2 _ Hin). rewrite !elem_of_cons. tauto.
      - apply NoDup_cons in Htr as [Hne _].
        apply elem_of_cons in Hin as [Hin|Hin]; [|by apply elem_of_nil in Hin].
        apply Hne. rewrite <- Hin. apply list_elem_of_here. }
  unfold normal_dict. by rewrite <- !app_assoc.
Qed.

Lemma parse_rows_complete dh mh rt rs st :
  NoDup (dh ++ mh ++ ["report_type"; "extracted_at"]) ->
  Forall (fun row =>
            length (dimension_values row) = length dh
            /\ length (metric_values row) = length mh
            /\ Forall (fun v => exists x, metric_number v = Ok x)
                 (metric_values row)) rs ->
  parse_rows dh mh rt rs st
  = (Ok (imap (fun k row => normal_dict dh mh rt (now_at (clock_reads st + k)) row)
           rs),
     {| clock_reads := clock_reads st + length rs; api_calls := api_calls st |}).
Proof.
  intros Hnd Hall. revert st.
  induction Hall as [|row more (Hd & Hm & Hx) Hmore IH]; intros st.
  - simpl. unfold ret. destruct st; simpl. do 2 f_equal. lia.
  - simpl parse_rows. unfold bind at 1.
    rewrite (parse_row_complete dh mh rt row st Hnd Hd Hm Hx).
    unfold bind at 1. rewrite IH. unfold ret. simpl.
    f_equal.
    + f_equal. rewrite Nat.add_0_r. f_equal.
      apply imap_ext. intros k r _. simpl. do 2 f_equal. lia.
    + f_equal. lia.
Qed.

Lemma normal_dict_keys dh mh rt t row :
  length (dimension_values row) = length dh ->
  length (metric_values row) = length mh ->
  map fst (normal_dict dh mh rt t row)
  = dh ++ mh ++ ["report_type"; "extracted_at"].
Proof.
  intros Hd Hm. unfold normal_dict. rewrite !map_app.
  rewrite !fst_zip by (rewrite length_map; lia). reflexivity.
Qed.

Lemma zip_values (ks : list string) (f : string -> value) vals :
  length vals <= length ks ->
  map (fun kv : string * value => Some kv.2) (zip ks (map f vals))
  = map (fun v => Some (f v)) vals.
Proof.
  revert ks. induction vals as [|v tl IH]; intros ks Hlen.
  - by destruct ks.
  - destruct ks as [|k ks]; simpl in *; [lia|]. f_equal. apply IH. lia.
Qed.

Lemma normal_dict_values dh mh rt t row :
  length (dimension_values row) = length dh ->
  length (metric_values row) = length mh ->
  map (fun kv : string * value => Some kv.2) (normal_dict dh mh rt t row)
  = normal_record rt t row.
Proof.
  intros Hd Hm. unfold normal_dict, normal_record. rewrite !map_app. simpl.
  rewrite !zip_values by lia. reflexivity.
Qed.

(** A complete response (distinct canonical headers, one value per header
    in every row, metric values empty or accepted by [float]) is normalised
    without loss: the columns are the canonical dimension names, the
    canonical metric names and the two trailer fields, and no cell is
    missing. *)
Theorem parse_complete_response (response : Response) (report_type : string)
    (st : state) :
  rows response <> [] ->
  NoDup (normal_columns response) ->
  Forall (complete_row response) (rows response) ->
  parse_response_to_df response report_type st
  = (Ok {| columns := normal_columns response;
           cells := imap (fun k row =>
                            normal_record report_type
                              (now_at (clock_reads st + k)) row)
                      (rows response) |},
     {| clock_reads := clock_reads st + length (rows response);
        api_calls := api_calls st |}).
Proof.
  intros Hne Hnd Hall. unfold parse_response_to_df, catch, parse_response_body.
  destruct (rows response) as [|r0 rs] eqn:Erows; [done|].
  unfold bind.
  assert (Forall (fun row =>
            length (dimension_values row)
            = length (map Snake.to_snake (dimension_headers response))
            /\ length (metric_values row)
               = length (map Snake.to_snake (metric_headers response))
            /\ Forall (fun v => exists x, metric_number v = Ok x)
                 (metric_values row)) (r0 :: rs)) as Hall'.
  { eapply Forall_impl; [exact Hall|]. intros row (Hd & Hm & Hx).
    by rewrite !length_map. }
  rewrite (parse_rows_complete _ _ _ _ _ Hnd Hall'). unfold ret.
  f_equal. f_equal.
  rewrite (frame_of_same_keys (normal_columns response)).
  - f_equal. rewrite fmap_imap. apply imap_ext. intros k row Hk. simpl.
    rewrite Forall_lookup in Hall'. destruct (Hall' k row Hk) as (Hd & Hm & _).
    by apply normal_dict_values.
  - discriminate.
  - exact Hnd.
  - apply Forall_lookup. intros k d Hk.
    apply list_lookup_imap_Some in Hk as (row & Hrow & ->).
    rewrite Forall_lookup in Hall'. destruct (Hall' k row Hrow) as (Hd & Hm & _).
    by apply normal_dict_keys.
Qed.

End Complete.

(** ** The reports, whatever the API does *)

Section ReportsRobust.
Context {env : Environment}.

Lemma report_never_raises dims mets rt st :
  exists df st',
    report dims mets rt st = (Ok df, st')
    /\ api_calls st'
       = api_calls st ++ [{| dimensions := dims; metrics := mets |}]
    /\ match run_realtime_report {| dimensions := dims; metrics := mets |} with
       | Raise _ => df = empty_frame /\ clock_reads st' = clock_reads st
       | Ok response => df = empty_frame \/ df_len df = length (rows response)
       end.
Proof.
  unfold report, catch, bind at 1, call_api.
  destruct (run_realtime_report _) as [response|e] eqn:Eapi.
  - set (st1 := {| clock_reads := clock_reads st; api_calls := _ |}).
    destruct (parse_response_outcome response rt st1)
      as (df & st' & -> & Hcalls & Hdf).
    exists df, st'. split; [reflexivity|]. split; [exact Hcalls|]. tauto.
  - eexists _, _. split; [reflexivity|]. split; [reflexivity|]. done.
Qed.

(** None of the four single-query reports ever raises: each sends exactly
    one request; when the API fails the result is the empty frame and the
    clock is not read, and when it answers the result is empty or has one
    row per response row. *)
Theorem reports_never_raise (st : state) :
  let never_raises (m : M DataFrame) (dims mets : list string) :=
    exists df st',
      m st = (Ok df, st')
      /\ api_calls st'
         = api_calls st ++ [{| dimensions := dims; metrics := mets |}]
      /\ match run_realtime_report {| dimensions := dims; metrics := mets |} with
         | Raise _ => df = empty_frame /\ clock_reads st' = clock_reads st
         | Ok response => df = empty_frame \/ df_len df = length (rows response)
         end in
  never_raises get_realtime_active_users_by_page
    ["unifiedScreenName"; "country"] ["activeUsers"; "screenPageViews"]
  /\ never_raises get_realtime_events_by_page
       ["unifiedScreenName"; "eventName"] ["eventCount"]
  /\ never_raises get_realtime_conversions ["eventName"] ["keyEvents"]
  /\ never_raises get_realtime_overview []
       ["activeUsers"; "screenPageViews"; "keyEvents"; "eventCount"].
Proof. repeat split; apply report_never_raises. Qed.

Lemma try_candidate_never_raises dims st :
  exists r st',
    try_candidate dims st = (Ok r, st')
    /\ api_calls st' = api_calls st ++ [traffic_request dims].
Proof.
  unfold try_candidate, catch, bind at 1, call_api.
  destruct (run_realtime_report (traffic_request dims)) as [response|e].
  - set (st1 := {| clock_reads := clock_reads st; api_calls := _ |}).
    unfold bind at 1.
    destruct (parse_response_outcome response "traffic_sources" st1)
      as (df & st' & -> & Hcalls & _).
    destruct (df_empty df); [by eexists _, _|].
    unfold bind, lift.
    destruct (select keep _) as [df'|e]; by eexists _, _.
  - by eexists _, _.
Qed.

Lemma traffic_loop_never_raises cands st :
  exists df st' n,
    traffic_loop cands st = (Ok df, st')
    /\ n <= length cands
    /\ (cands <> [] -> 1 <= n)
    /\ api_calls st' = api_calls st ++ map traffic_request (take n cands).
Proof.
  revert st. induction cands as [|dims more IH]; intros st.
  - exists empty_frame, st, 0. simpl. unfold ret.
    split; [reflexivity|]. split; [lia|]. split; [done|by rewrite app_nil_r].
  - simpl. unfold bind.
    destruct (try_candidate_never_raises dims st) as (r & st1 & -> & Hcalls).
    destruct r as [df|].
    + exists df, st1, 1. split; [reflexivity|]. simpl.
      split; [lia|]. split; [lia|]. exact Hcalls.
    + destruct (IH st1) as (df & st' & n & -> & Hn & _ & Hcalls').
      exists df, st', (S n). split; [reflexivity|]. simpl.
      split; [lia|]. split; [lia|].
      rewrite Hcalls', Hcalls, <- app_assoc. reflexivity.
Qed.

(** Whatever the API answers, [get_realtime_traffic_sources] never raises,
    and the requests it sends are the first [n] candidates in their order,
    for some [n] between one and four. *)
Theorem traffic_sources_never_raises (st : state) :
  exists df st' n,
    get_realtime_traffic_sources st = (Ok df, st')
    /\ 1 <= n <= 4
    /\ api_calls st' = api_calls st ++ map traffic_request (take n candidates).
Proof.
  destruct (traffic_loop_never_raises candidates st)
    as (df & st' & n & Hrun & Hn & H1 & Hcalls).
  exists df, st', n. split; [exact Hrun|]. split; [|exact Hcalls].
  split; [by apply H1|exact Hn].
Qed.

End ReportsRobust.

(** ** More on the storage gateway *)

Import GatewayMore.

(** *** Invariants of the committed database and of the transaction *)

Section RelatedFrom.
Context {srv : Server}.
Variable R : database -> database -> Prop.
Hypothesis R_refl : forall db, R db db.
Hypothesis R_trans : forall a b c, R a b -> R b c -> R a c.
Variable db0 : database.

Lemma related_get_connection : keeps (related_from R db0) get_connection.
Proof.
  intros w r w' [Hs Hc]. unfold get_connection.
  destruct (fault_at (tick w)); intros [= <- <-]; split; simpl; try done.
  intros s [= <-]. exact Hs.
Qed.

Lemma related_execute stmt :
  (forall now db a db', run_statement now stmt db = Some (a, db') -> R db db') ->
  keeps (related_from R db0) (execute stmt).
Proof.
  intros Hstmt w r w' [Hs Hc]. unfold execute.
  destruct (conn w) as [s|] eqn:Ec; [|intros [= <- <-]; split; [done|by rewrite Ec]].
  specialize (Hc s eq_refl).
  destruct (aborted s || fault_at (tick w)).
  { intros [= <- <-]. split; simpl; [done|]. by intros s' [= <-]. }
  destruct (run_statement (txn_now s) stmt (working s)) as [[a db']|] eqn:Er.
  - intros [= <- <-]. split; simpl; [done|]. intros s' [= <-]. simpl.
    eapply R_trans; [exact Hc|]. by eapply Hstmt.
  - intros [= <- <-]. split; simpl; [done|]. by intros s' [= <-].
Qed.

Lemma related_commit : keeps (related_from R db0) commit.
Proof.
  intros w r w' [Hs Hc]. unfold commit.
  destruct (conn w) as [s|] eqn:Ec; [|intros [= <- <-]; split; [done|by rewrite Ec]].
  specialize (Hc s eq_refl).
  destruct (fault_at (tick w)); intros [= <- <-].
  - split; simpl; [done|]. by intros s' [= <-].
  - destruct (aborted s); split; simpl; try done; by intros s' [= <-].
Qed.

Lemma related_rollback : keeps (related_from R db0) rollback.
Proof.
  intros w r w' [Hs Hc]. unfold rollback.
  destruct (conn w) as [s|] eqn:Ec; [|intros [= <- <-]; split; [done|by rewrite Ec]].
  specialize (Hc s eq_refl).
  destruct (fault_at (tick w)); intros [= <- <-]; split; simpl; try done;
    by intros s' [= <-].
Qed.

Lemma related_close w : related_from R db0 w -> related_from R db0 (close w).
Proof. intros [Hs Hc]. split; simpl; done. Qed.

Lemma related_read_latest table limit :
  keeps (related_from R db0) (read_latest table limit).
Proof.
  intros w r w' [Hs Hc]. unfold read_latest.
  destruct (fault_at (tick w)); [by intros [= <- <-]|].
  destruct (selected table _ (store w)) as [rs|];
    [destruct (limit <? 0)%Z|]; by intros [= <- <-].
Qed.

Lemma related_execute_all stmts :
  Forall (fun stmt => forall now db a db',
            run_statement now stmt db = Some (a, db') -> R db db') stmts ->
  keeps (related_from R db0) (execute_all stmts).
Proof.
  induction 1 as [|stmt more Hstmt Hmore IH]; simpl.
  - apply keeps_ret.
  - apply keeps_bind; [by apply related_execute|intros _; exact IH].
Qed.

End RelatedFrom.

(** *** Rows are only ever added by an append and deleted by a cleanup *)

Lemma tables_kept_refl db : tables_kept db db.
Proof. by intros t rs. Qed.

Lemma tables_kept_trans a b c : tables_kept a b -> tables_kept b c -> tables_kept a c.
Proof. intros H1 H2 t rs Ht. auto. Qed.

Lemma run_statement_keeps_rows now stmt db a db' :
  keeps_rows stmt ->
  run_statement now stmt db = Some (a, db') ->
  tables_kept db db'.
Proof.
  intros Hstmt Hrun t0 rs0 Ht0. destruct stmt; simpl in *; try done.
  - destruct (relations db !! table) eqn:E; injection Hrun as <- <-; [done|].
    simpl. rewrite lookup_insert_ne; [done|]. intros ->. congruence.
  - destruct (bool_decide (index ∈ indexes db)); [by injection Hrun as <- <-|].
    destruct (relations db !! table) as [[rs|]|]; try discriminate.
    by injection Hrun as <- <-.
  - by injection Hrun as <- <-.
  - destruct (relations db !! table) as [[rs|]|]; try discriminate.
    by injection Hrun as <- <-.
  - destruct (relations db !! table) as [[rs|]|]; try discriminate.
    by injection Hrun as <- <-.
  - destruct (relations db !! view) as [[rs|]|] eqn:E; try discriminate;
      injection Hrun as <- <-; [|done].
    simpl. rewrite lookup_delete_ne; [done|]. intros ->. congruence.
  - destruct (relations db !! view) eqn:E; [discriminate|].
    destruct (forallb _ sources); [|discriminate].
    injection Hrun as <- <-. simpl.
    rewrite lookup_insert_ne; [done|]. intros ->. congruence.
Qed.

Section RowsKept.
Context {srv : Server} (db0 : database).

Let kept := related_from tables_kept db0.

Lemma kept_execute stmt : keeps_rows stmt -> keeps kept (execute stmt).
Proof.
  intros Hstmt. apply related_execute; [apply tables_kept_trans|].
  intros now db a db'. by apply run_statement_keeps_rows.
Qed.

Lemma kept_count_tables tables stats : keeps kept (count_tables tables stats).
Proof.
  revert stats. induction tables as [|t more IH]; intros stats; simpl.
  - apply keeps_ret.
  - apply keeps_bind; [by apply kept_execute|].
    intros [| | |]; first [apply IH|apply keeps_raise].
Qed.

Lemma kept_summarise tables stats : keeps kept (summarise tables stats).
Proof.
  revert stats. induction tables as [|t more IH]; intros stats; simpl.
  - apply keeps_ret.
  - apply keeps_bind; [|intros entry; apply IH].
    apply keeps_catch; [|intros e; apply keeps_ret].
    apply keeps_bind; [by apply kept_execute|].
    intros [| | |]; first [apply keeps_ret|apply keeps_raise].
Qed.

Ltac kept_step :=
  first
    [ apply keeps_ret
    | apply keeps_raise
    | apply (related_get_connection tables_kept)
    | apply (related_commit tables_kept)
    | apply (related_rollback tables_kept)
    | apply (related_read_latest tables_kept)
    | apply kept_count_tables
    | apply kept_summarise
    | apply (related_close tables_kept)
    | apply kept_execute; exact I
    | apply keeps_bind; [|intros ?]
    | apply keeps_catch; [|intros ?]
    | apply keeps_finally ].

Lemma kept_after self op w :
  read_or_ddl op -> kept w -> kept (after self op w).
Proof.
  intros Hop Hw. destruct op; simpl in *; try done.
  - destruct (get_latest_data self table_name limit w) as [r w'] eqn:E.
    revert E. simpl. apply (fun H => H w r w' Hw).
    unfold get_latest_data. repeat kept_step.
  - destruct (check_database_status self w) as [r w'] eqn:E.
    revert E. simpl. apply (fun H => H w r w' Hw).
    unfold check_database_status. repeat kept_step.
    match goal with a : answer |- _ => destruct a end; repeat kept_step.
  - destruct (get_summary_stats self w) as [r w'] eqn:E.
    revert E. simpl. apply (fun H => H w r w' Hw).
    unfold get_summary_stats. repeat kept_step.
  - destruct (create_aggregated_views self w) as [r w'] eqn:E.
    revert E. simpl. apply (fun H => H w r w' Hw).
    unfold create_aggregated_views. repeat kept_step.
  - destruct (init_tables self w) as [r w'] eqn:E.
    revert E. simpl. apply (fun H => H w r w' Hw).
    unfold init_tables. repeat kept_step.
    apply (related_execute_all tables_kept); [apply tables_kept_trans|].
    apply Forall_fmap, Forall_true. intros t now db ans db'.
    by apply run_statement_keeps_rows.
Qed.

End RowsKept.

Section RowsKeptTheorem.
Context {srv : Server}.

(** Schema setup, view rebuild, status check, summary and the latest-rows
    query never add, change or delete a stored row, whatever fails on the
    way: every table has afterwards the rows it had before. *)
Theorem rows_kept_by_reads_and_ddl (self : handler) (op : operation) (w : world) :
  read_or_ddl op ->
  conn w = None ->
  forall t rs,
    relations (store w) !! t = Some (BaseTable rs) ->
    relations (store (after self op w)) !! t = Some (BaseTable rs).
Proof.
  intros Hop Hconn.
  apply (kept_after (store w) self op w Hop).
  split; [apply tables_kept_refl|]. intros s Hs. congruence.
Qed.

End RowsKeptTheorem.

(** ** What [init_tables] does to the database *)

Lemma run_all_app now stmts1 stmts2 db :
  run_all now (stmts1 ++ stmts2) db
  = match run_all now stmts1 db with
    | Some db1 => run_all now stmts2 db1
    | None => None
    end.
Proof.
  revert db. induction stmts1 as [|stmt more IH]; intros db; simpl; [done|].
  destruct (run_statement now stmt db) as [[a db1]|]; [apply IH|done].
Qed.

Lemma run_create_tables now ts db :
  exists db',
    run_all now (map CreateTableIfNotExists ts) db = Some db'
    /\ indexes db' = indexes db
    /\ forall t, relations db' !! t = with_tables ts db t.
Proof.
  revert db. induction ts as [|t0 ts IH]; intros db; simpl.
  { exists db. repeat split. intros t. unfold with_tables.
    by destruct (relations db !! t). }
  destruct (relations db !! t0) as [r0|] eqn:E0.
  - destruct (IH db) as (db' & Hrun & Hidx & Hrel).
    exists db'. repeat split; [done..|].
    intros t. rewrite Hrel. unfold with_tables.
    destruct (relations db !! t) eqn:Et; [done|].
    apply (f_equal (fun b : bool => if b then Some (BaseTable []) else None)).
    apply bool_decide_ext. rewrite elem_of_cons.
    split; [tauto|]. intros [-> | H]; [congruence|done].
  - set (db1 := {| relations := <[t0 := BaseTable []]> (relations db);
                   indexes := indexes db |}).
    destruct (IH db1) as (db' & Hrun & Hidx & Hrel).
    exists db'. repeat split; [done..|].
    intros t. rewrite Hrel. unfold with_tables. simpl.
    destruct (decide (t = t0)) as [->|Hne].
    + rewrite lookup_insert_eq, E0.
      by rewrite bool_decide_eq_true_2 by apply list_elem_of_here.
    + rewrite lookup_insert_ne by done.
      destruct (relations db !! t) eqn:Et; [done|].
      apply (f_equal (fun b : bool => if b then Some (BaseTable []) else None)).
      apply bool_decide_ext. rewrite elem_of_cons. tauto.
Qed.

Lemma run_create_indexes now ts db db' :
  run_all now (map (fun t => CreateIndexIfNotExists (index_name t) t) ts) db
  = Some db' ->
  relations db' = relations db
  /\ indexes db' = indexes db ∪ list_to_set (index_name <$> ts).
Proof.
  revert db. induction ts as [|t0 ts IH]; intros db; simpl.
  { intros [= <-]. split; [done|]. apply set_eq. intros i.
    rewrite elem_of_union. split; [tauto|]. intros [H | H]; [done|].
    by apply elem_of_empty in H. }
  destruct (bool_decide (index_name t0 ∈ indexes db)) eqn:Ei.
  - intros Hrun. destruct (IH _ Hrun) as [Hrel Hidx]. split; [done|].
    rewrite Hidx. apply bool_decide_eq_true_1 in Ei.
    apply set_eq. intros i. rewrite !elem_of_union, elem_of_singleton.
    split; [tauto|]. intros [H | [-> | H]]; tauto.
  - destruct (relations db !! t0) as [[rs|]|]; try discriminate.
    intros Hrun. destruct (IH _ Hrun) as [Hrel Hidx]. split; [done|].
    rewrite Hidx. simpl.
    apply set_eq. intros i. rewrite !elem_of_union, elem_of_singleton. tauto.
Qed.

Lemma run_create_indexes_ok now ts db :
  (forall t, t ∈ ts ->
     index_name t ∈ indexes db
     \/ exists rs, relations db !! t = Some (BaseTable rs)) ->
  exists db',
    run_all now (map (fun t => CreateIndexIfNotExists (index_name t) t) ts) db
    = Some db'.
Proof.
  revert db. induction ts as [|t0 ts IH]; intros db Hts; simpl; [by exists db|].
  destruct (bool_decide (index_name t0 ∈ indexes db)) eqn:Ei.
  { apply IH. intros t Ht. apply Hts. by apply list_elem_of_further. }
  apply bool_decide_eq_false_1 in Ei.
  destruct (Hts t0) as [H | [rs Hrs]]; [apply list_elem_of_here|done|].
  rewrite Hrs. apply IH. intros t Ht. simpl.
  destruct (Hts t) as [H | H]; [by apply list_elem_of_further|left|by right].
  apply elem_of_union. by right.
Qed.

(** The statements of [init_tables], run on [db]. *)
Lemma run_init_statements now self db db' :
  run_all now (init_statements self) db = Some db' ->
  (forall t, relations db' !! t = with_tables managed db t)
  /\ indexes db' = indexes db ∪ list_to_set (index_name <$> tables_to_manage self).
Proof.
  unfold init_statements. rewrite run_all_app.
  destruct (run_create_tables now managed db) as (db1 & -> & Hidx & Hrel).
  intros Hrun. apply run_create_indexes in Hrun as [Hrel' Hidx'].
  split; [|by rewrite Hidx', Hidx].
  intros t. by rewrite Hrel', Hrel.
Qed.

Lemma run_init_statements_ok now self db :
  tables_to_manage self = managed ->
  indexable db ->
  exists db', run_all now (init_statements self) db = Some db'.
Proof.
  intros Hself Hdb. unfold init_statements. rewrite run_all_app.
  destruct (run_create_tables now managed db) as (db1 & -> & Hidx & Hrel).
  apply run_create_indexes_ok. rewrite Hself. intros t Ht.
  rewrite Hidx, Hrel. unfold with_tables.
  destruct (relations db !! t) as [[rs|]|] eqn:Et.
  - right. by exists rs.
  - left. by apply Hdb.
  - right. exists []. by rewrite bool_decide_eq_true_2.
Qed.

Section Transactions.
Context {srv : Server}.

Lemma execute_all_run stmts w s db' :
  fault_free (tick w) (length stmts) ->
  conn w = Some s -> aborted s = false ->
  run_all (txn_now s) stmts (working s) = Some db' ->
  execute_all stmts w
  = (Ok tt, {| store := store w; tick := tick w + length stmts;
               conn := Some {| working := db'; aborted := false;
                               txn_now := txn_now s |} |}).
Proof.
  revert w s. induction stmts as [|stmt more IH]; intros w s Hfree Hconn Hab; simpl.
  { intros [= <-]. unfold ret. do 2 f_equal. destruct w as [st tk c]; simpl in *.
    rewrite Nat.add_0_r, Hconn. do 2 f_equal. destruct s; simpl in *. by subst. }
  destruct (run_statement (txn_now s) stmt (working s)) as [[a db1]|] eqn:Er;
    [|discriminate].
  intros Hrun. unfold bind, execute. rewrite Hconn, Hab, Er.
  rewrite (Hfree (tick w)) by (simpl; lia). simpl.
  erewrite IH; [|intros i Hi; apply Hfree; simpl in *; lia|reflexivity|reflexivity|exact Hrun].
  simpl. do 3 f_equal. lia.
Qed.

(** A statement, a commit or a rollback that raises leaves the committed
    database as it was. *)
Lemma execute_all_keeps_store stmts db0 :
  keeps (fun w => store w = db0) (execute_all stmts).
Proof.
  induction stmts as [|stmt more IH]; simpl; [apply keeps_ret|].
  apply keeps_bind; [apply execute_keeps_store|intros _; exact IH].
Qed.

Lemma commit_raises_unchanged w e w' :
  commit w = (Raise e, w') -> store w' = store w.
Proof.
  unfold commit. destruct (conn w) as [s|]; [|by intros [= _ <-]].
  destruct (fault_at (tick w)); [by intros [= _ <-]|discriminate].
Qed.

Lemma rollback_keeps_store db0 : keeps (fun w => store w = db0) rollback.
Proof.
  intros w r w' Hs. unfold rollback.
  destruct (conn w) as [s|]; [|by intros [= <- <-]].
  destruct (fault_at (tick w)); by intros [= <- <-].
Qed.

Lemma transaction_raises_unchanged stmts : raises_unchanged (transaction stmts).
Proof.
  intros w e w'. unfold transaction, bind at 1, get_connection.
  destruct (fault_at (tick w)); [by intros [= _ <-]|].
  set (w1 := {| store := store w; tick := S (tick w); conn := _ |}).
  unfold finally, catch, bind.
  destruct (execute_all stmts w1) as [[[]|e1] w2] eqn:Eall.
  - assert (store w2 = store w) as Hw2
      by (eapply (execute_all_keeps_store stmts (store w) w1); [done|exact Eall]).
    destruct (commit w2) as [[[]|e2] w3] eqn:Ec; [discriminate|].
    apply commit_raises_unchanged in Ec.
    destruct (rollback w3) as [[[]|e3] w4] eqn:Er;
      apply (rollback_keeps_store (store w3) w3) in Er; try done;
      intros [= _ <-]; simpl; congruence.
  - assert (store w2 = store w) as Hw2
      by (eapply (execute_all_keeps_store stmts (store w) w1); [done|exact Eall]).
    destruct (rollback w2) as [[[]|e3] w4] eqn:Er;
      apply (rollback_keeps_store (store w2) w2) in Er; try done;
      intros [= _ <-]; simpl; congruence.
Qed.

(** Once [init_tables] returns, the database has the relations it had and
    an empty table for each missing managed name, and the indexes it had and
    one for each managed table; when [init_tables] raises, the database is
    as it was, whichever statement failed. *)
Theorem init_tables_all_or_nothing (self : handler) (w : world) :
  match init_tables self w with
  | (Ok _, w') =>
      (forall t, relations (store w') !! t = with_tables managed (store w) t)
      /\ indexes (store w')
         = indexes (store w) ∪ list_to_set (index_name <$> tables_to_manage self)
  | (Raise _, w') => store w' = store w
  end.
Proof.
  destruct (init_tables self w) as [[[]|e] w'] eqn:E.
  - apply init_tables_ok in E as (db' & Hrun & <- & _).
    by apply run_init_statements in Hrun.
  - rewrite init_tables_statements in E.
    by apply transaction_raises_unchanged in E.
Qed.

Lemma init_tables_run self w :
  fault_free (tick w) 12 ->
  tables_to_manage self = managed ->
  indexable (store w) ->
  exists db',
    run_all (server_time (tick w)) (init_statements self) (store w) = Some db'
    /\ init_tables self w
       = (Ok tt, {| store := db'; tick := tick w + 12; conn := None |}).
Proof.
  intros Hfree Hself Hdb.
  destruct (run_init_statements_ok (server_time (tick w)) self (store w) Hself Hdb)
    as [db' Hrun].
  exists db'. split; [done|].
  rewrite init_tables_statements. unfold transaction, bind at 1, get_connection.
  rewrite (Hfree (tick w)) by lia.
  set (s := {| working := store w; aborted := false;
               txn_now := server_time (tick w) |}).
  set (w1 := {| store := store w; tick := S (tick w); conn := Some s |}).
  assert (length (init_statements self) = 10) as Hlen
    by (unfold init_statements; rewrite Hself; reflexivity).
  unfold finally, catch, bind.
  rewrite (execute_all_run (init_statements self) w1 s db'); try done.
  - rewrite Hlen. unfold commit. simpl.
    rewrite (Hfree (S (tick w + 10))) by lia.
    unfold close. simpl. do 2 f_equal. lia.
  - intros i Hi. apply Hfree. rewrite Hlen in Hi. simpl in Hi. lia.
Qed.

(** With no fault on the server, and no managed name taken by a view
    without its index, [init_tables] returns after twelve operations on the
    server. *)
Theorem init_tables_returns (self : handler) (w : world) :
  fault_free (tick w) 12 ->
  tables_to_manage self = managed ->
  indexable (store w) ->
  exists w', init_tables self w = (Ok tt, w') /\ tick w' = tick w + 12.
Proof.
  intros Hfree Hself Hdb.
  destruct (init_tables_run self w Hfree Hself Hdb) as (db' & _ & ->).
  by eexists.
Qed.

(** On a database that has the schema already, [init_tables] changes
    nothing: the constructor can be called again and again. *)
Theorem init_tables_idempotent (self : handler) (w : world) :
  fault_free (tick w) 12 ->
  tables_to_manage self = managed ->
  schema_ensured (store w) ->
  exists w', init_tables self w = (Ok tt, w') /\ store w' = store w.
Proof.
  intros Hfree Hself Hens.
  assert (indexable (store w)) as Hdb by (intros t Ht _; by apply Hens).
  destruct (init_tables_run self w Hfree Hself Hdb) as (db' & Hrun & ->).
  eexists. split; [done|]. simpl.
  apply run_init_statements in Hrun as [Hrel Hidx].
  destruct db' as [rel' idx'], (store w) as [rel idx] eqn:Estore. simpl in *.
  f_equal.
  - apply map_eq. intros t. rewrite Hrel. unfold with_tables. simpl.
    destruct (rel !! t) eqn:Et; [done|].
    rewrite bool_decide_eq_false_2; [done|].
    intros Ht. destruct (Hens t Ht) as [[r Hr] _]. simpl in Hr. congruence.
  - rewrite Hidx. apply set_eq. intros i. rewrite elem_of_union.
    split; [|tauto]. intros [H | H]; [done|].
    rewrite Hself in H. apply elem_of_list_to_set, list_elem_of_fmap in H
      as (t & -> & Ht).
    by apply (Hens t Ht).
Qed.

End Transactions.

(** *** Appending a batch *)



Section Append.
Context {srv : Server}.





End Append.

(** ** View rebuild and cleanup as transactions *)

Section Maintenance.
Context {srv : Server}.

(** A transaction whose handler rolls back and swallows the failure: the
    committed database is the one before, or the one all the statements
    give. *)
Lemma transaction_all_or_nothing stmts w r w' :
  logged_transaction stmts w = (r, w') ->
  store w' = store w
  \/ run_all (server_time (tick w)) stmts (store w) = Some (store w').
Proof.
  unfold logged_transaction, bind at 1, get_connection.
  destruct (fault_at (tick w)); [intros [= _ <-]; by left|].
  set (s := {| working := store w; aborted := false;
               txn_now := server_time (tick w) |}).
  set (w1 := {| store := store w; tick := S (tick w); conn := Some s |}).
  unfold finally, catch, bind.
  destruct (execute_all stmts w1) as [[[]|e1] w2] eqn:Eall.
  - destruct (execute_all_ok stmts w1 s w2 Eall eq_refl eq_refl) as (db' & Hrun & ->).
    unfold commit. simpl. destruct (fault_at _); simpl.
    + unfold rollback. simpl. destruct (fault_at _); intros [= _ <-]; by left.
    + intros [= _ <-]. by right.
  - assert (store w2 = store w) as Hw2
      by (eapply (execute_all_keeps_store stmts (store w) w1); [done|exact Eall]).
    destruct (rollback w2) as [r3 w3] eqn:Er.
    apply (rollback_keeps_store (store w2) w2) in Er; [|done].
    intros [= _ <-]. left. simpl. congruence.
Qed.

Lemma views_statements self w :
  create_aggregated_views self w = logged_transaction view_statements w.
Proof.
  unfold create_aggregated_views, logged_transaction, view_statements, bind,
    finally, catch. simpl.
  destruct (get_connection w) as [[[]|e] w0]; [|done].
  unfold bind.
  repeat (match goal with
          | |- context [execute ?stmt ?w1] =>
              destruct (execute stmt w1) as [[?|?] ?]; [|reflexivity]
          end).
  reflexivity.
Qed.

(** *** Ticks and the connection during a method *)

Lemma since_execute k stmt : keeps (connected_since k) (execute stmt).
Proof.
  intros w r w' [[s Hs] Hk]. unfold execute. rewrite Hs.
  destruct (aborted s || fault_at (tick w)).
  { intros [= <- <-]. split; simpl; [by eexists|lia]. }
  destruct (run_statement _ _ _) as [[a db']|]; intros [= <- <-];
    (split; simpl; [by eexists|lia]).
Qed.

Lemma since_commit k : keeps (connected_since k) commit.
Proof.
  intros w r w' [[s Hs] Hk]. unfold commit. rewrite Hs.
  destruct (fault_at (tick w)); intros [= <- <-];
    (split; simpl; [by eexists|lia]).
Qed.

Lemma since_execute_all k stmts : keeps (connected_since k) (execute_all stmts).
Proof.
  induction stmts as [|stmt more IH]; simpl; [apply keeps_ret|].
  apply keeps_bind; [apply since_execute|intros _; exact IH].
Qed.

Lemma since_delete_old k hours tables :
  keeps (connected_since k) (delete_old hours tables).
Proof.
  induction tables as [|t more IH]; simpl; [apply keeps_ret|].
  apply keeps_bind; [|intros _; exact IH].
  apply keeps_catch; [|intros e; apply keeps_ret].
  apply keeps_bind; [apply since_execute|intros _; apply keeps_ret].
Qed.

Lemma delete_old_returns hours tables w r w' :
  delete_old hours tables w = (r, w') -> r = Ok tt.
Proof.
  revert w. induction tables as [|t more IH]; intros w; simpl.
  - by intros [= <- _].
  - unfold bind at 1, catch, bind.
    destruct (execute _ w) as [[a|e] w1]; simpl; apply IH.
Qed.

(** A rollback that raises was sent on the open connection and failed. *)
Lemma rollback_raises k w e w' :
  connected_since k w ->
  rollback w = (Raise e, w') ->
  e = OperationalError /\ tick w' = S (tick w) /\ fault_at (tick w) = true.
Proof.
  intros [[s Hs] _]. unfold rollback. rewrite Hs.
  destruct (fault_at (tick w)) eqn:Ef; [|discriminate].
  by intros [= <- <-].
Qed.

End Maintenance.

Lemma run_drop_view now v db a db' :
  run_statement now (DropViewIfExists v) db = Some (a, db') ->
  relations db' = delete v (relations db) /\ indexes db' = indexes db.
Proof.
  simpl. destruct (relations db !! v) as [[rs|]|] eqn:E; try discriminate;
    intros [= <- <-]; [done|].
  split; [|done]. symmetry. by apply delete_id.
Qed.

Lemma run_create_view now v sources db a db' :
  run_statement now (CreateView v sources) db = Some (a, db') ->
  relations db' = <[v := View]> (relations db) /\ indexes db' = indexes db.
Proof.
  simpl. destruct (relations db !! v); [discriminate|].
  destruct (forallb _ sources); [|discriminate]. by intros [= <- <-].
Qed.

Lemma run_view_statements now db db' :
  run_all now view_statements db = Some db' -> db' = with_views db.
Proof.
  unfold view_statements. cbn [run_all].
  destruct (run_statement now (DropViewIfExists "hourly_metrics") db)
    as [[a1 db1]|] eqn:E1; [|discriminate].
  destruct (run_statement now (DropViewIfExists "realtime_dashboard") db1)
    as [[a2 db2]|] eqn:E2; [|discriminate].
  destruct (run_statement now (CreateView "hourly_metrics" _) db2)
    as [[a3 db3]|] eqn:E3; [|discriminate].
  destruct (run_statement now (CreateView "realtime_dashboard" _) db3)
    as [[a4 db4]|] eqn:E4; [|discriminate].
  intros [= <-].
  apply run_drop_view in E1 as [R1 I1]. apply run_drop_view in E2 as [R2 I2].
  apply run_create_view in E3 as [R3 I3]. apply run_create_view in E4 as [R4 I4].
  unfold with_views. destruct db4 as [rel4 idx4]. simpl in *. f_equal; [|congruence].
  rewrite R4, R3, R2, R1. apply map_eq. intros t.
  destruct (decide (t = "realtime_dashboard")) as [->|Hrd].
  { by rewrite !lookup_insert_eq. }
  rewrite !(lookup_insert_ne _ "realtime_dashboard") by done.
  destruct (decide (t = "hourly_metrics")) as [->|Hhm].
  { by rewrite !lookup_insert_eq. }
  rewrite !(lookup_insert_ne _ "hourly_metrics") by done.
  by rewrite !lookup_delete_ne.
Qed.

Lemma run_view_statements_ok now db :
  views_definable db -> run_all now view_statements db = Some (with_views db).
Proof.
  intros [Hsrc Hviews].
  assert (exists db', run_all now view_statements db = Some db') as [db' Hrun];
    [|by rewrite Hrun; f_equal; apply run_view_statements in Hrun].
  assert (is_Some (relations db !! "active_users_by_page")) as [r1 H1]
    by (apply Hsrc; rewrite !elem_of_cons; tauto).
  assert (is_Some (relations db !! "conversions")) as [r2 H2]
    by (apply Hsrc; rewrite !elem_of_cons; tauto).
  assert (is_Some (relations db !! "traffic_sources")) as [r3 H3]
    by (apply Hsrc; rewrite !elem_of_cons; tauto).
  unfold view_statements. cbn [run_all].
  destruct (run_statement now (DropViewIfExists "hourly_metrics") db)
    as [[a1 db1]|] eqn:E1.
  2:{ simpl in E1. destruct (Hviews "hourly_metrics") as [H | H];
        [unfold view_names; rewrite !elem_of_cons; tauto|..];
        rewrite H in E1; discriminate. }
  destruct (run_statement now (DropViewIfExists "realtime_dashboard") db1)
    as [[a2 db2]|] eqn:E2.
  2:{ apply run_drop_view in E1 as [R1 _]. simpl in E2. rewrite R1 in E2.
      rewrite lookup_delete_ne in E2 by done.
      destruct (Hviews "realtime_dashboard") as [H | H];
        [unfold view_names; rewrite !elem_of_cons; tauto|..];
        rewrite H in E2; discriminate. }
  apply run_drop_view in E1 as [R1 _]. apply run_drop_view in E2 as [R2 _].
  simpl. rewrite R2, R1.
  rewrite lookup_delete_ne, lookup_delete_eq by done. simpl.
  rewrite !(lookup_delete_ne _ _ "active_users_by_page"), H1 by done.
  rewrite !(lookup_delete_ne _ _ "conversions"), H2 by done.
  rewrite !(lookup_delete_ne _ _ "traffic_sources"), H3 by done.
  simpl. rewrite lookup_insert_ne, lookup_delete_eq by done.
  rewrite lookup_insert_ne by done.
  rewrite !(lookup_delete_ne _ _ "active_users_by_page"), H1 by done.
  simpl. by eexists.
Qed.

Section Views.
Context {srv : Server}.

(** The view rebuild and the cleanup raise only when the connection is
    lost: they raise [OperationalError], and the last operation they sent
    to the server failed, which is the connect or the rollback of a failed
    transaction.  For the cleanup, whose DELETEs are guarded one by one,
    the commit before that rollback failed as well.  A method that returns
    had connected. *)
Theorem maintenance_raises_only_on_lost_connection (self : handler)
    (hours : Z) (w : world) :
  match create_aggregated_views self w with
  | (Ok _, _) => fault_at (tick w) = false
  | (Raise e, w') => e = OperationalError /\ lost_connection w w'
  end
  /\ match cleanup_old_data self hours w with
     | (Ok _, _) => fault_at (tick w) = false
     | (Raise e, w') =>
         e = OperationalError /\ lost_connection w w'
         /\ (fault_at (tick w) = false ->
             tick w + 3 <= tick w' /\ fault_at (tick w' - 2) = true)
     end.
Proof.
  split.
  - rewrite views_statements.
    unfold logged_transaction, bind at 1, get_connection.
    destruct (fault_at (tick w)) eqn:Econn.
    { split; [done|]. split; simpl; [lia|done]. }
    set (s := {| working := store w; aborted := false;
                 txn_now := server_time (tick w) |}).
    set (w1 := {| store := store w; tick := S (tick w); conn := Some s |}).
    assert (connected_since (S (tick w)) w1) as Hw1
      by (split; simpl; [by eexists|lia]).
    unfold finally, catch.
    destruct (bind (execute_all view_statements) (fun _ => commit) w1)
      as [[[]|e1] w2] eqn:Ebody; [done|].
    assert (connected_since (S (tick w)) w2) as Hw2.
    { assert (keeps (connected_since (S (tick w)))
                (_ <- execute_all view_statements ;; commit)) as Hkeeps
        by (apply keeps_bind; [apply since_execute_all|intros _; apply since_commit]).
      exact (Hkeeps w1 (Raise e1) w2 Hw1 Ebody). }
    destruct (rollback w2) as [[[]|e2] w3] eqn:Eroll; [done|].
    destruct (rollback_raises _ _ _ _ Hw2 Eroll) as (-> & Htick & Hfault).
    split; [done|]. destruct Hw2 as [_ Hk]. split; simpl; rewrite Htick.
    + lia.
    + done.
  - unfold cleanup_old_data, bind at 1, get_connection.
    destruct (fault_at (tick w)) eqn:Econn.
    { split; [done|]. split; [split; simpl; [lia|done]|done]. }
    set (s := {| working := store w; aborted := false;
                 txn_now := server_time (tick w) |}).
    set (w1 := {| store := store w; tick := S (tick w); conn := Some s |}).
    assert (connected_since (S (tick w)) w1) as Hw1
      by (split; simpl; [by eexists|lia]).
    unfold finally, catch, bind.
    destruct (delete_old hours (tables_to_manage self) w1) as [r2 w2] eqn:Edel.
    assert (connected_since (S (tick w)) w2) as Hw2
      by (by eapply (since_delete_old _ hours (tables_to_manage self) w1)).
    apply delete_old_returns in Edel as ->.
    destruct Hw2 as [[s2 Hs2] Hk2].
    unfold commit. rewrite Hs2.
    destruct (fault_at (tick w2)) eqn:Ecommit; [|done].
    unfold rollback. simpl.
    destruct (fault_at (S (tick w2))) eqn:Eroll; [|done].
    split; [done|]. simpl. split; [split; simpl; [lia|done]|].
    intros _. split; [lia|].
    by rewrite Nat.sub_0_r.
Qed.

(** The view rebuild is one transaction: afterwards both views are defined
    anew and nothing else has changed, or the database is as it was. *)
Theorem views_all_or_nothing (self : handler) (w : world) :
  let w' := (create_aggregated_views self w).2 in
  store w' = store w \/ store w' = with_views (store w).
Proof.
  simpl. destruct (create_aggregated_views self w) as [r w'] eqn:E.
  rewrite views_statements in E.
  destruct (transaction_all_or_nothing view_statements w r w' E) as [H | H];
    [by left|right].
  by apply run_view_statements in H.
Qed.

(** With no fault on the server, the tables the views read in place and no
    table named as a view, the rebuild defines both views. *)
Theorem views_rebuilt (self : handler) (w : world) :
  fault_free (tick w) 6 ->
  views_definable (store w) ->
  exists w',
    create_aggregated_views self w = (Ok tt, w')
    /\ store w' = with_views (store w).
Proof.
  intros Hfree Hdef. rewrite views_statements.
  unfold logged_transaction, bind at 1, get_connection.
  rewrite (Hfree (tick w)) by lia.
  set (s := {| working := store w; aborted := false;
               txn_now := server_time (tick w) |}).
  set (w1 := {| store := store w; tick := S (tick w); conn := Some s |}).
  unfold finally, catch, bind.
  rewrite (execute_all_run view_statements w1 s (with_views (store w)));
    [|intros i Hi; apply Hfree; simpl in Hi; lia|done|done
     |by apply run_view_statements_ok].
  unfold commit. simpl. rewrite (Hfree (S (tick w + 4))) by lia.
  by eexists.
Qed.

End Views.

(** *** The cleanup as one transaction *)

Lemma purged_all_nil cutoff db : purged_all cutoff [] db db.
Proof.
  split; [done|]. intros t. split; [|done].
  intros H. by apply elem_of_nil in H.
Qed.

Lemma purged_all_delete cutoff tables db0 db t rs :
  purged_all cutoff tables db0 db ->
  relations db !! t = Some (BaseTable rs) ->
  purged_all cutoff (t :: tables) db0
    {| relations := <[t := BaseTable (within_window cutoff rs)]> (relations db);
       indexes := indexes db |}.
Proof.
  intros [Hidx Hrel] Ht. split; [done|]. intros t1. simpl.
  destruct (decide (t1 = t)) as [->|Hne].
  - rewrite lookup_insert_eq.
    split; [|intros H; exfalso; apply H, list_elem_of_here].
    intros _. destruct (decide (t ∈ tables)) as [Hin|Hnin].
    + destruct (proj1 (Hrel t) Hin) as (rs0 & H0 & H1). exists rs0.
      split; [done|]. rewrite Ht in H1. injection H1 as ->.
      by rewrite within_window_idem.
    + exists rs. split; [|done]. by rewrite <- (proj2 (Hrel t) Hnin).
  - rewrite lookup_insert_ne by done. split.
    + intros H. apply elem_of_cons in H as [H | H]; [done|]. by apply Hrel.
    + intros H. apply Hrel. intros H'. apply H. by apply list_elem_of_further.
Qed.

Lemma purged_all_equiv cutoff tables tables' db db' :
  (forall t, t ∈ tables <-> t ∈ tables') ->
  purged_all cutoff tables db db' -> purged_all cutoff tables' db db'.
Proof.
  intros Heq [Hidx Hrel]. split; [done|]. intros t. split.
  - intros H. apply Hrel. by apply Heq.
  - intros H. apply Hrel. intros H'. apply H. by apply Heq.
Qed.

Section CleanupTransaction.
Context {srv : Server}.

Lemma deleting_delete_old hours now db0 tables :
  forall seen w r w',
    deleting hours now db0 seen w ->
    delete_old hours tables w = (r, w') ->
    r = Ok tt /\ deleting hours now db0 (rev tables ++ seen) w'.
Proof.
  induction tables as [|t more IH]; intros seen w r w' Hw; simpl.
  { by intros [= <- <-]. }
  destruct Hw as (Hstore & s & Hconn & Hnow & Hstate).
  unfold bind at 1, catch, bind, execute. rewrite Hconn.
  rewrite <- app_assoc. simpl.
  assert (forall w1,
            store w1 = db0 ->
            conn w1 = Some {| working := working s; aborted := true;
                              txn_now := txn_now s |} ->
            deleting hours now db0 (t :: seen) w1) as Haborted.
  { intros w1 H1 H2. split; [done|]. eexists. split; [exact H2|].
    split; [done|]. by left. }
  destruct (aborted s) eqn:Eab; simpl.
  { apply IH. by apply Haborted. }
  destruct (fault_at (tick w)).
  { apply IH. by apply Haborted. }
  destruct Hstate as [Hab | Hpurged]; [congruence|].
  destruct (relations (working s) !! t) as [[rs|]|] eqn:Et.
  - apply IH. split; [done|]. eexists. split; [reflexivity|]. split; [done|].
    right. simpl. rewrite Hnow.
    by apply (purged_all_delete _ seen db0 (working s) t rs).
  - apply IH. by apply Haborted.
  - apply IH. by apply Haborted.
Qed.

Lemma cleanup_transaction self hours w r w' :
  cleanup_old_data self hours w = (r, w') ->
  store w' = store w
  \/ purged_all (server_time (tick w) - hours * hour) (tables_to_manage self)
       (store w) (store w').
Proof.
  unfold cleanup_old_data, bind at 1, get_connection.
  destruct (fault_at (tick w)); [intros [= _ <-]; by left|].
  set (s := {| working := store w; aborted := false;
               txn_now := server_time (tick w) |}).
  set (w1 := {| store := store w; tick := S (tick w); conn := Some s |}).
  unfold finally, catch, bind.
  destruct (delete_old hours (tables_to_manage self) w1) as [r2 w2] eqn:Edel.
  apply (deleting_delete_old hours (server_time (tick w)) (store w) _ [] w1) in Edel
    as [-> (Hstore & s2 & Hconn & Hnow & Hstate)].
  2:{ split; [done|]. exists s. repeat split. right. apply purged_all_nil. }
  unfold commit. rewrite Hconn.
  destruct (fault_at (tick w2)).
  { unfold rollback. simpl. destruct (fault_at _); intros [= _ <-]; by left. }
  intros [= _ <-]. simpl.
  destruct Hstate as [-> | Hpurged]; [by left|].
  destruct (aborted s2); [by left|]. right.
  eapply purged_all_equiv; [|exact Hpurged].
  intros t. rewrite app_nil_r, !list_elem_of_In, <- in_rev. tauto.
Qed.

(** The cleanup is one transaction: afterwards every managed table is
    purged of the rows older than the cutoff and nothing else has changed,
    or the database is as it was.  A DELETE that fails aborts the
    transaction, and the commit at the end then keeps none of the
    others. *)
Theorem cleanup_all_or_nothing (self : handler) (hours : Z) (w : world) :
  let w' := (cleanup_old_data self hours w).2 in
  store w' = store w
  \/ purged_all (server_time (tick w) - hours * hour) (tables_to_manage self)
       (store w) (store w').
Proof.
  simpl. destruct (cleanup_old_data self hours w) as [r w'] eqn:E.
  by apply cleanup_transaction in E.
Qed.

(** When one managed name is not a table of the database, the cleanup
    purges no table at all. *)
Theorem cleanup_needs_every_table (self : handler) (hours : Z) (w : world)
    (t : string) :
  t ∈ tables_to_manage self ->
  (forall rs, relations (store w) !! t <> Some (BaseTable rs)) ->
  store (cleanup_old_data self hours w).2 = store w.
Proof.
  intros Ht Hmissing.
  destruct (cleanup_old_data self hours w) as [r w'] eqn:E. simpl.
  apply cleanup_transaction in E as [E | [_ Hrel]]; [done|].
  destruct (proj1 (Hrel t) Ht) as (rs & Hrs & _). by destruct (Hmissing rs).
Qed.


End CleanupTransaction.

(** ** The queries *)







Section Reads.
Context {srv : Server}.

Lemma get_connection_keeps_store db0 :
  keeps (fun w => store w = db0) get_connection.
Proof.
  intros w r w' Hs. unfold get_connection.
  destruct (fault_at (tick w)); by intros [= <- <-].
Qed.

Lemma read_latest_keeps_store table limit db0 :
  keeps (fun w => store w = db0) (read_latest table limit).
Proof.
  intros w r w' Hs. unfold read_latest.
  destruct (fault_at (tick w)); [by intros [= <- <-]|].
  destruct (selected table _ (store w)) as [rs|];
    [destruct (limit <? 0)%Z|]; by intros [= <- <-].
Qed.

Lemma summarise_keeps_store tables stats db0 :
  keeps (fun w => store w = db0) (summarise tables stats).
Proof.
  revert stats. induction tables as [|t more IH]; intros stats; simpl.
  - apply keeps_ret.
  - apply keeps_bind; [|intros entry; apply IH].
    apply keeps_catch; [|intros e; apply keeps_ret].
    apply keeps_bind; [apply execute_keeps_store|].
    intros [| | |]; first [apply keeps_ret|apply keeps_raise].
Qed.

(** The three queries leave the committed database as it is: tables, views
    and indexes, whether they return or raise. *)
Theorem reads_leave_database (self : handler) (table : string) (limit : Z)
    (w : world) :
  store (get_latest_data self table limit w).2 = store w
  /\ store (check_database_status self w).2 = store w
  /\ store (get_summary_stats self w).2 = store w.
Proof.
  split; [|split].
  - destruct (get_latest_data self table limit w) as [r w'] eqn:E. simpl.
    assert (keeps (fun w0 => store w0 = store w)
              (get_latest_data self table limit)) as Hkeeps;
      [|exact (Hkeeps w r w' eq_refl E)].
    unfold get_latest_data.
    apply keeps_catch; [apply read_latest_keeps_store|intros e; apply keeps_ret].
  - destruct (check_database_status self w) as [r w'] eqn:E. simpl.
    assert (keeps (fun w0 => store w0 = store w) (check_database_status self))
      as Hkeeps; [|exact (Hkeeps w r w' eq_refl E)].
    unfold check_database_status.
    apply keeps_bind; [apply get_connection_keeps_store|intros _].
    apply keeps_finally; [|by intros w0].
    apply keeps_catch; [|intros e; apply keeps_ret].
    apply keeps_bind; [apply execute_keeps_store|].
    intros [| | |]; try apply keeps_raise.
    apply keeps_bind; [apply count_tables_keeps_store|intros stats; apply keeps_ret].
  - destruct (get_summary_stats self w) as [r w'] eqn:E. simpl.
    assert (keeps (fun w0 => store w0 = store w) (get_summary_stats self))
      as Hkeeps; [|exact (Hkeeps w r w' eq_refl E)].
    unfold get_summary_stats.
    apply keeps_bind; [apply get_connection_keeps_store|intros _].
    apply keeps_finally; [|by intros w0].
    apply keeps_catch; [apply summarise_keeps_store|intros e; apply keeps_ret].
Qed.


Lemma summarise_entries tables :
  forall stats w s,
    conn w = Some s ->
    exists stats' w' s',
      summarise tables stats w = (Ok stats', w')
      /\ conn w' = Some s' /\ working s' = working s
      /\ forall t,
           (t ∉ tables -> stats' !! t = stats !! t)
           /\ (t ∈ tables ->
                 (exists e, stats' !! t = Some (StatsError e))
                 \/ exists rs,
                      relations (working s) !! t = Some (BaseTable rs)
                      /\ stats' !! t
                         = Some (Stats (length rs) (latest rs) (earliest rs))).
Proof.
  induction tables as [|t0 more IH]; intros stats w s Hconn; simpl.
  { exists stats, w, s. repeat split; [done..|].
    intros H. by apply elem_of_nil in H. }
  assert (exists entry w1 s1,
            catch
              (a <- execute (SelectSummary t0) ;;
               match a with
               | Summary n hi lo => ret (Stats n hi lo)
               | _ => raise DatabaseError
               end)
              (fun e => ret (StatsError e)) w = (Ok entry, w1)
            /\ conn w1 = Some s1 /\ working s1 = working s
            /\ ((exists e, entry = StatsError e)
                \/ exists rs,
                     relations (working s) !! t0 = Some (BaseTable rs)
                     /\ entry = Stats (length rs) (latest rs) (earliest rs)))
    as (entry & w1 & s1 & Hentry & Hconn1 & Hwork1 & Hwhat).
  { unfold catch, bind, execute. rewrite Hconn.
    destruct (aborted s || fault_at (tick w)).
    { eexists _, _, _. split; [reflexivity|]. repeat split. left. by eexists. }
    simpl. destruct (relations (working s) !! t0) as [[rs|]|] eqn:Et.
    - eexists _, _, _. split; [reflexivity|]. repeat split. right. by exists rs.
    - eexists _, _, _. split; [reflexivity|]. repeat split. left. by eexists.
    - eexists _, _, _. split; [reflexivity|]. repeat split. left. by eexists. }
  unfold bind at 1. rewrite Hentry.
  destruct (IH (<[t0 := entry]> stats) w1 s1 Hconn1)
    as (stats' & w' & s' & Hrun & Hconn' & Hwork' & Hstats).
  exists stats', w', s'. split; [done|]. split; [done|].
  split; [congruence|]. intros t. split.
  - intros Ht. apply not_elem_of_cons in Ht as [Hne Ht].
    rewrite (proj1 (Hstats t) Ht). by rewrite lookup_insert_ne.
  - intros Ht. destruct (decide (t ∈ more)) as [Hin|Hnin].
    { rewrite <- Hwork1. by apply Hstats. }
    apply elem_of_cons in Ht as [-> | Ht]; [|done].
    rewrite (proj1 (Hstats t0) Hnin), lookup_insert_eq.
    destruct Hwhat as [[e ->] | (rs & Hrs & ->)]; [left; by exists e|].
    right. by exists rs.
Qed.

(** Once connected, [get_summary_stats] returns a dict with one entry for
    each managed table and no other: the number of rows of the table with
    its newest and oldest timestamp, or an error. *)
Theorem summary_stats_entries (self : handler) (w : world) :
  fault_at (tick w) = false ->
  exists stats w',
    get_summary_stats self w = (Ok stats, w')
    /\ forall t,
         match stats !! t with
         | None => t ∉ tables_to_manage self
         | Some (StatsError _) => t ∈ tables_to_manage self
         | Some (Stats n hi lo) =>
             t ∈ tables_to_manage self
             /\ exists rs,
                  relations (store w) !! t = Some (BaseTable rs)
                  /\ n = length rs /\ hi = latest rs /\ lo = earliest rs
         end.
Proof.
  intros Hfault. unfold get_summary_stats, bind at 1, get_connection.
  rewrite Hfault.
  set (s := {| working := store w; aborted := false;
               txn_now := server_time (tick w) |}).
  set (w1 := {| store := store w; tick := S (tick w); conn := Some s |}).
  destruct (summarise_entries (tables_to_manage self) ∅ w1 s eq_refl)
    as (stats & w2 & s2 & Hrun & _ & _ & Hstats).
  unfold finally, catch. rewrite Hrun.
  exists stats, (close w2). split; [done|]. intros t.
  destruct (decide (t ∈ tables_to_manage self)) as [Hin|Hnin].
  - destruct (proj2 (Hstats t) Hin) as [[e ->] | (rs & Hrs & ->)]; [done|].
    split; [done|]. by exists rs.
  - by rewrite (proj1 (Hstats t) Hnin), lookup_empty.
Qed.

End Reads.

(** ** More on the orchestrator *)



Lemma evaluate_success rule ups ok : evaluate rule ups ok = success -> ok = true.
Proof.
  unfold evaluate. destruct rule, ok; try done;
    repeat (destruct (existsb _ ups)); done.
Qed.

(** The scheduler is never stuck: as long as a task is not done, one of
    them can be taken. *)
Theorem scheduler_progress (outcome : task -> bool) (s : log) :
  complete s \/ exists s', step outcome s s'.
Proof.
  destruct (state_in s start_task) as [started|] eqn:Estart.
  2:{ right. eexists. by eapply (step_task _ s start_task). }
  destruct (state_in s check_creds_task) as [creds|] eqn:Ecreds.
  2:{ right. eexists. eapply (step_task _ s check_creds_task); [done|].
      simpl. by rewrite Estart. }
  destruct (state_in s extract_active_users_task) as [e1|] eqn:E1.
  2:{ right. eexists. eapply (step_task _ s extract_active_users_task); [done|].
      simpl. by rewrite Ecreds. }
  destruct (state_in s extract_events_by_page_task) as [e2|] eqn:E2.
  2:{ right. eexists. eapply (step_task _ s extract_events_by_page_task); [done|].
      simpl. by rewrite Ecreds. }
  destruct (state_in s extract_conversions_task) as [e3|] eqn:E3.
  2:{ right. eexists. eapply (step_task _ s extract_conversions_task); [done|].
      simpl. by rewrite Ecreds. }
  destruct (state_in s extract_traffic_sources_task) as [e4|] eqn:E4.
  2:{ right. eexists. eapply (step_task _ s extract_traffic_sources_task); [done|].
      simpl. by rewrite Ecreds. }
  destruct (state_in s extract_overview_task) as [e5|] eqn:E5.
  2:{ right. eexists. eapply (step_task _ s extract_overview_task); [done|].
      simpl. by rewrite Ecreds. }
  destruct (state_in s create_views_task) as [views|] eqn:Eviews.
  2:{ right. eexists. eapply (step_task _ s create_views_task); [done|].
      simpl. by rewrite E1, E2, E3, E4, E5. }
  destruct (state_in s cleanup_task) as [cleanup|] eqn:Ecleanup.
  2:{ right. eexists. eapply (step_task _ s cleanup_task); [done|].
      simpl. by rewrite Eviews. }
  destruct (state_in s check_db_status_task) as [status|] eqn:Estatus.
  2:{ right. eexists. eapply (step_task _ s check_db_status_task); [done|].
      simpl. by rewrite Ecleanup. }
  destruct (state_in s summary_task) as [summary|] eqn:Esummary.
  2:{ right. eexists. eapply (step_task _ s summary_task); [done|].
      simpl. by rewrite Estatus. }
  destruct (state_in s end_task) as [final_state|] eqn:Eend.
  2:{ right. eexists. eapply (step_task _ s end_task); [done|].
      simpl. by rewrite Esummary. }
  left. intros t. destruct t; by eexists.
Qed.


(** The order in which the scheduler takes the tasks does not matter: two
    runs with the same callables' outcomes end every task in the same
    state. *)
Theorem runs_agree (outcome : task -> bool) (s s' : log) (t : task) :
  run outcome s -> run outcome s' -> state_in s t = state_in s' t.
Proof.
  intros Hs Hs'. by rewrite (run_final outcome s t Hs), (run_final outcome s' t Hs').
Qed.

(** An extraction is run when the credentials check succeeded, and only
    then; its state does not depend on what the other extractions do. *)
Theorem extractions_depend_on_credentials_only (outcome : task -> bool)
    (s : log) (e : task) :
  run outcome s ->
  e ∈ extractions ->
  state_in s e
  = Some (if outcome check_creds_task
          then if outcome e then success else failed
          else upstream_failed).
Proof.
  intros Hrun He. rewrite (run_final outcome s e Hrun). f_equal.
  unfold extractions in He. rewrite !elem_of_cons, elem_of_nil in He.
  destruct He as [-> | [-> | [-> | [-> | [-> | []]]]]];
    unfold final, evaluate, returns; simpl;
    by destruct (outcome check_creds_task).
Qed.

(** Whatever happened before, the summary and the end task are run, and the
    end task succeeds; the status check is run exactly when the cleanup's
    callable returned. *)
Theorem tail_of_the_run (outcome : task -> bool) (s : log) :
  run outcome s ->
  executed (state_in s summary_task) = true
  /\ state_in s end_task = Some success
  /\ executed (state_in s check_db_status_task) = outcome cleanup_task.
Proof.
  intros Hrun.
  rewrite !(fun t => run_final outcome s t Hrun).
  unfold final, evaluate, returns. simpl. repeat split.
  - by destruct (outcome summary_task).
  - destruct (outcome cleanup_task); simpl; [|done].
    by destruct (outcome check_db_status_task).
Qed.

(** No task of this DAG ever ends skipped: it is run, or marked
    [upstream_failed]. *)
Theorem no_task_skipped (outcome : task -> bool) (s : log) (t : task) :
  run outcome s -> state_in s t <> Some skipped.
Proof.
  intros Hrun. rewrite (run_final outcome s t Hrun). intros [= H]. revert H.
  destruct t; unfold final, evaluate, returns; simpl;
    destruct (outcome check_creds_task); simpl; try discriminate;
    repeat match goal with
           | |- context [outcome ?t] => destruct (outcome t); simpl
           end; discriminate.
Qed.

(** Every task succeeds exactly when every callable returns. *)
Theorem run_succeeds_iff_callables_return (outcome : task -> bool) (s : log) :
  run outcome s ->
  (forall t, state_in s t = Some success) <-> (forall t, returns outcome t = true).
Proof.
  intros Hrun. split.
  - intros Hall t. specialize (Hall t).
    rewrite (run_final outcome s t Hrun), final_eq in Hall.
    injection Hall as Hall. by apply evaluate_success in Hall.
  - intros Hall t. rewrite (run_final outcome s t Hrun). f_equal.
    pose proof (Hall check_creds_task) as H1.
    pose proof (Hall extract_active_users_task) as H2.
    pose proof (Hall extract_events_by_page_task) as H3.
    pose proof (Hall extract_conversions_task) as H4.
    pose proof (Hall extract_traffic_sources_task) as H5.
    pose proof (Hall extract_overview_task) as H6.
    pose proof (Hall create_views_task) as H7.
    pose proof (Hall cleanup_task) as H8.
    pose proof (Hall check_db_status_task) as H9.
    pose proof (Hall summary_task) as H10.
    simpl in *.
    destruct t; unfold final, evaluate, returns; simpl;
      rewrite ?H1, ?H2, ?H3, ?H4, ?H5, ?H6, ?H7, ?H8, ?H9, ?H10; simpl;
      rewrite ?H1, ?H2, ?H3, ?H4, ?H5, ?H6, ?H7, ?H8, ?H9, ?H10; reflexivity.
Qed.

Lemma backwards_run outcome : run outcome (MoreSamples.backwards outcome).
Proof.
  split.
  - unfold MoreSamples.backwards. cbv [map rev app].
    repeat (eapply rtc_r;
            [|match goal with
              | |- step _ _ ((?t, _) :: _) =>
                  rewrite (final_eq outcome t);
                  apply (step_task outcome _ t); reflexivity
              end]).
    apply rtc_refl.
  - intros t. unfold MoreSamples.backwards. by destruct t; eexists.
Qed.

(** ** The extraction callables *)

Section Extraction.
Context {srv : Server}.




Context {dep : Tasks.Deployment}.


Context {env : Environment}.

Lemma report_during_outage dims mets report_type st :
  (forall req, exists e, run_realtime_report req = Raise e) ->
  exists st', report dims mets report_type st = (Ok empty_frame, st').
Proof.
  intros Hdown. unfold report, catch, bind, call_api.
  destruct (Hdown {| dimensions := dims; metrics := mets |}) as [e ->].
  by eexists.
Qed.

Lemma traffic_sources_during_outage st :
  (forall req, exists e, run_realtime_report req = Raise e) ->
  exists st', get_realtime_traffic_sources st = (Ok empty_frame, st').
Proof.
  intros Hdown. unfold get_realtime_traffic_sources.
  rewrite <- (app_nil_r candidates), traffic_loop_skip.
  - by eexists.
  - intros dims _. destruct (Hdown (traffic_request dims)) as [e ->]. exact I.
Qed.

Lemma extract_nothing get table_name p st' :
  Tasks.load_credentials = Ok tt ->
  get (Tasks.api p) = (Ok empty_frame, st') ->
  exists p',
    Tasks.extract get table_name p
    = (Ok {| Tasks.status := "no_data"; Tasks.records := 0;
             Tasks.table := table_name |}, p')
    /\ Tasks.db p' = Tasks.db p.
Proof.
  intros Hkey Hget.
  unfold Tasks.extract, catch at 1, bind at 1, Tasks.GA4RealtimeClient, catch, lift.
  rewrite Hkey. unfold bind at 1, Tasks.on_api. rewrite Hget. simpl.
  by eexists.
Qed.

(** While the GA4 API rejects every request, each of the five extractions
    returns with status [no_data] and no record, and does not open a
    connection to the database: an outage of the API fails no task. *)
Theorem extractions_survive_an_api_outage (p : Tasks.pipeline) :
  Tasks.load_credentials = Ok tt ->
  (forall req, exists e, run_realtime_report req = Raise e) ->
  Forall (fun '(task, table_name) =>
            exists p',
              task p = (Ok {| Tasks.status := "no_data"; Tasks.records := 0;
                              Tasks.table := table_name |}, p')
              /\ Tasks.db p' = Tasks.db p)
    Tasks.extractions.
Proof.
  intros Hkey Hdown. unfold Tasks.extractions.
  repeat apply List.Forall_cons; try apply List.Forall_nil.
  - destruct (report_during_outage ["unifiedScreenName"; "country"]
                ["activeUsers"; "screenPageViews"] "active_users_by_page"
                (Tasks.api p) Hdown) as [st' Hget].
    by eapply extract_nothing.
  - destruct (report_during_outage ["unifiedScreenName"; "eventName"]
                ["eventCount"] "events_by_page" (Tasks.api p) Hdown)
      as [st' Hget].
    by eapply extract_nothing.
  - destruct (report_during_outage ["eventName"] ["keyEvents"] "conversions"
                (Tasks.api p) Hdown) as [st' Hget].
    by eapply extract_nothing.
  - destruct (traffic_sources_during_outage (Tasks.api p) Hdown) as [st' Hget].
    by eapply extract_nothing.
  - destruct (report_during_outage []
                ["activeUsers"; "screenPageViews"; "keyEvents"; "eventCount"]
                "overview" (Tasks.api p) Hdown) as [st' Hget].
    by eapply extract_nothing.
Qed.

End Extraction.

(** ** The further properties on concrete inputs *)

Lemma parse_row_with_too_many_values_witness :
  exists st',
    parse_response_to_df (env := Samples.ticking) MoreSamples.crowded
      "active_users_by_page" Samples.st0 = (Ok empty_frame, st').
Proof.
  apply (parse_row_with_too_many_values (env := Samples.ticking)
           MoreSamples.crowded "active_users_by_page" Samples.st0
           (Samples.row ["DE"; "Berlin"] ["1"])).
  - simpl. rewrite !elem_of_cons. tauto.
  - left. simpl. lia.
Defined.

Lemma parse_complete_response_witness :
  parse_response_to_df (env := Samples.ticking) Samples.two_pages
    "active_users_by_page" Samples.st0
  = (Ok {| columns := normal_columns Samples.two_pages;
           cells := imap (fun k row =>
                            normal_record "active_users_by_page"
                              (now_at (Environment := Samples.ticking)
                                 (clock_reads Samples.st0 + k)) row)
                      (rows Samples.two_pages) |},
     {| clock_reads := clock_reads Samples.st0 + length (rows Samples.two_pages);
        api_calls := api_calls Samples.st0 |}).
Proof.
  apply (parse_complete_response (env := Samples.ticking) Samples.two_pages
           "active_users_by_page" Samples.st0).
  - discriminate.
  - vm_compute. repeat (constructor; [rewrite ?elem_of_cons, ?elem_of_nil; intuition discriminate|]).
    constructor.
  - repeat constructor; simpl; eexists; vm_compute; reflexivity.
Defined.

(** *** The gateway *)


(** A batch whose INSERT fails: [insert_dataframe] raises, and the table
    pandas had created for it in the transaction is not there either. *)
Example failed_insert_stores_nothing :
  exists w',
    insert_dataframe (srv := MoreSamples.flaky 2) Samples.the_handler
      Samples.by_device_frame "traffic_sources" Samples.empty_world
    = (Raise DatabaseError, w')
    /\ store w' = store Samples.empty_world.
Proof. eexists. split; vm_compute; reflexivity. Qed.



(** The cleanup raises after it has connected, when the connection is lost
    before the commit. *)
Example cleanup_raises_on_lost_connection :
  (cleanup_old_data (srv := MoreSamples.lost_from 6) Samples.the_handler 24
     Samples.stocked_world).1 = Raise OperationalError.
Proof. vm_compute. reflexivity. Qed.

(** The latest rows of the dashboard view are what the server answers for
    it, newest first. *)
Example latest_data_of_the_dashboard :
  (get_latest_data (srv := MoreSamples.with_dashboard) Samples.the_handler
     "realtime_dashboard" 1 Samples.stocked_world).1
  = Ok [MoreSamples.about_row].
Proof. vm_compute. reflexivity. Qed.

Lemma rows_kept_by_reads_and_ddl_witness :
  relations (store (after (srv := Samples.reliable) Samples.the_handler
                      InitTables Samples.stocked_world)) !! "overview"
  = Some (BaseTable [Samples.old_row; Samples.fresh_row; Samples.undated_row]).
Proof.
  apply (rows_kept_by_reads_and_ddl (srv := Samples.reliable)
           Samples.the_handler InitTables Samples.stocked_world).
  - exact I.
  - reflexivity.
  - vm_compute. reflexivity.
Defined.

Lemma stocked_indexable : indexable (store Samples.stocked_world).
Proof.
  intros t Ht. unfold managed in Ht. rewrite !elem_of_cons, elem_of_nil in Ht.
  destruct Ht as [-> | [-> | [-> | [-> | [-> | []]]]]]; vm_compute; discriminate.
Qed.

Lemma init_tables_returns_witness :
  exists w',
    init_tables (srv := Samples.reliable) Samples.the_handler
      Samples.stocked_world = (Ok tt, w')
    /\ tick w' = tick Samples.stocked_world + 12.
Proof.
  apply (init_tables_returns (srv := Samples.reliable) Samples.the_handler
           Samples.stocked_world).
  - intros i _. reflexivity.
  - reflexivity.
  - exact stocked_indexable.
Defined.

Lemma ensured_world_schema : schema_ensured (store MoreSamples.ensured_world).
Proof.
  intros t Ht. unfold managed in Ht. rewrite !elem_of_cons, elem_of_nil in Ht.
  destruct Ht as [-> | [-> | [-> | [-> | [-> | []]]]]];
    (split; [eexists; vm_compute; reflexivity|]); by vm_compute.
Qed.

Lemma init_tables_idempotent_witness :
  exists w',
    init_tables (srv := Samples.reliable) Samples.the_handler
      MoreSamples.ensured_world = (Ok tt, w')
    /\ store w' = store MoreSamples.ensured_world.
Proof.
  apply (init_tables_idempotent (srv := Samples.reliable) Samples.the_handler
           MoreSamples.ensured_world).
  - intros i _. reflexivity.
  - reflexivity.
  - exact ensured_world_schema.
Defined.

Lemma stocked_views_definable : views_definable (store Samples.stocked_world).
Proof.
  split.
  - intros t Ht. rewrite !elem_of_cons, elem_of_nil in Ht.
    destruct Ht as [-> | [-> | [-> | []]]]; eexists; vm_compute; reflexivity.
  - intros v Hv. unfold view_names in Hv.
    rewrite !elem_of_cons, elem_of_nil in Hv.
    destruct Hv as [-> | [-> | []]]; [left|right]; vm_compute; reflexivity.
Qed.

Lemma views_rebuilt_witness :
  exists w',
    create_aggregated_views (srv := Samples.reliable) Samples.the_handler
      Samples.stocked_world = (Ok tt, w')
    /\ store w' = with_views (store Samples.stocked_world).
Proof.
  apply (views_rebuilt (srv := Samples.reliable) Samples.the_handler
           Samples.stocked_world).
  - intros i _. reflexivity.
  - exact stocked_views_definable.
Defined.

Lemma cleanup_needs_every_table_witness :
  store (cleanup_old_data (srv := Samples.reliable)
           {| tables_to_manage := ["overview"; "sessions"] |} 24
           Samples.stocked_world).2
  = store Samples.stocked_world.
Proof.
  apply (cleanup_needs_every_table (srv := Samples.reliable)
           {| tables_to_manage := ["overview"; "sessions"] |} 24
           Samples.stocked_world "sessions").
  - simpl. rewrite !elem_of_cons. tauto.
  - intros rs. vm_compute. discriminate.
Defined.

Lemma summary_stats_entries_witness :
  exists stats w',
    get_summary_stats (srv := Samples.reliable) Samples.the_handler
      Samples.stocked_world = (Ok stats, w')
    /\ forall t,
         match stats !! t with
         | None => t ∉ tables_to_manage Samples.the_handler
         | Some (StatsError _) => t ∈ tables_to_manage Samples.the_handler
         | Some (Stats n hi lo) =>
             t ∈ tables_to_manage Samples.the_handler
             /\ exists rs,
                  relations (store Samples.stocked_world) !! t
                  = Some (BaseTable rs)
                  /\ n = length rs /\ hi = latest rs /\ lo = earliest rs
         end.
Proof.
  apply (summary_stats_entries (srv := Samples.reliable) Samples.the_handler
           Samples.stocked_world).
  reflexivity.
Defined.

(** *** The orchestrator *)


Lemma runs_agree_witness :
  state_in (scheduled Samples.overview_raises) create_views_task
  = state_in (MoreSamples.backwards Samples.overview_raises) create_views_task.
Proof.
  apply (runs_agree Samples.overview_raises
           (scheduled Samples.overview_raises)
           (MoreSamples.backwards Samples.overview_raises) create_views_task).
  - apply scheduled_run.
  - apply backwards_run.
Defined.

Lemma extractions_depend_on_credentials_only_witness :
  state_in (scheduled MoreSamples.no_credentials) extract_conversions_task
  = Some (if MoreSamples.no_credentials check_creds_task
          then if MoreSamples.no_credentials extract_conversions_task
               then success else failed
          else upstream_failed).
Proof.
  apply (extractions_depend_on_credentials_only MoreSamples.no_credentials
           (scheduled MoreSamples.no_credentials) extract_conversions_task).
  - apply scheduled_run.
  - unfold extractions. rewrite !elem_of_cons. tauto.
Defined.

Lemma tail_of_the_run_witness :
  executed (state_in (scheduled MoreSamples.no_credentials) summary_task) = true
  /\ state_in (scheduled MoreSamples.no_credentials) end_task = Some success
  /\ executed (state_in (scheduled MoreSamples.no_credentials)
                 check_db_status_task)
     = MoreSamples.no_credentials cleanup_task.
Proof.
  apply (tail_of_the_run MoreSamples.no_credentials
           (scheduled MoreSamples.no_credentials)).
  apply scheduled_run.
Defined.

Lemma no_task_skipped_witness :
  state_in (scheduled MoreSamples.no_credentials) create_views_task
  <> Some skipped.
Proof.
  apply (no_task_skipped MoreSamples.no_credentials
           (scheduled MoreSamples.no_credentials) create_views_task).
  apply scheduled_run.
Defined.

Lemma run_succeeds_iff_callables_return_witness :
  (forall t, state_in (scheduled Samples.all_return) t = Some success)
  <-> (forall t, returns Samples.all_return t = true).
Proof.
  apply (run_succeeds_iff_callables_return Samples.all_return
           (scheduled Samples.all_return)).
  apply scheduled_run.
Defined.

(** *** The extractions *)

Lemma extractions_survive_an_api_outage_witness :
  Forall (fun '(task, table_name) =>
            exists p',
              task MoreSamples.fresh_pipeline
              = (Ok {| Tasks.status := "no_data"; Tasks.records := 0;
                       Tasks.table := table_name |}, p')
              /\ Tasks.db p' = Tasks.db MoreSamples.fresh_pipeline)
    (Tasks.extractions (dep := MoreSamples.deployed) (env := Samples.ticking)
       (srv := Samples.reliable)).
Proof.
  apply (extractions_survive_an_api_outage (srv := Samples.reliable)
           (dep := MoreSamples.deployed) (env := Samples.ticking)
           MoreSamples.fresh_pipeline).
  - reflexivity.
  - intros req. by exists ApiError.
Defined.

(** An extraction that finds data: the device categories the API gives are
    appended to the table of traffic sources. *)
Example traffic_extraction_appends :
  let p' := (Tasks.extract_traffic_sources_data (dep := MoreSamples.deployed)
               (env := Samples.device_only) (srv := Samples.reliable)
               MoreSamples.fresh_pipeline) in
  p'.1 = Ok {| Tasks.status := "success"; Tasks.records := 2;
               Tasks.table := "traffic_sources" |}
  /\ rows_before "traffic_sources" (store (Tasks.db p'.2))
     = rows_of_frame Samples.by_device_frame.
Proof. vm_compute. split; reflexivity. Qed.
